(** * Temperature conversion tool: a shallow embedding of [converterr.py]

    The program reads a temperature from the command line with [argparse],
    converts it between Celsius and Fahrenheit and prints one line.

    - Python [float] is IEEE-754 binary64; it is modelled by the
      specification floats of the standard library ([spec_float], with
      [prec = 53] and [emax = 1024]), whose operations round to nearest,
      ties to even.
    - Exceptions are modelled by an error monad; standard output, standard
      error and the exit status by a record of the process's observable
      behaviour.
    - [argparse] is modelled as CPython 3.11 implements it, for the parser
      that [parse_arguments] configures. Strings are byte strings; the
      non-ASCII digits and spaces that Python also accepts in numbers are
      outside the model. *)

From Stdlib Require Import ZArith QArith Qabs Qpower Bool List String Ascii.
From Stdlib Require Import Lia Lqa.
From Stdlib Require Import SpecFloat.
Import ListNotations.

Local Open Scope string_scope.
Local Open Scope Z_scope.

(** ** Exceptions *)

Inductive exn : Type :=
| ValueError (msg : string)
| ZeroDivisionError
| TypeError
| KeyboardInterrupt
| SystemExit (code : Z).

Inductive result (A : Type) : Type :=
| Ok (a : A)
| Raise (e : exn).

Arguments Ok {A} a.
Arguments Raise {A} e.

Definition bind {A B : Type} (r : result A) (k : A -> result B) : result B :=
  match r with
  | Ok a => k a
  | Raise e => Raise e
  end.

Notation "x <- r ;; k" := (bind r (fun x => k))
  (at level 61, r at next level, right associativity).

(** ** Binary64 floating point *)

Definition float : Type := spec_float.

Module Binary64.

Definition prec : Z := 53.
Definition emax : Z := 1024.

Definition mul : float -> float -> float := SFmul prec emax.
Definition div : float -> float -> float := SFdiv prec emax.
Definition add : float -> float -> float := SFadd prec emax.
Definition sub : float -> float -> float := SFsub prec emax.

(** [float(n)] for an integer [n] (exact for [|n| <= 2^53]). *)
Definition of_Z (n : Z) : float := binary_normalize prec emax n 0 false.

Definition is_zero (x : float) : bool :=
  match x with
  | S754_zero _ => true
  | _ => false
  end.

Definition is_finite (x : float) : bool :=
  match x with
  | S754_zero _ | S754_finite _ _ _ => true
  | _ => false
  end.

(** The real number a finite float stands for (0 for the others). *)
Definition to_Q (x : float) : Q :=
  match x with
  | S754_finite s m e =>
      let v := if 0 <=? e then inject_Z (Zpos m * 2 ^ e)
               else Zpos m # Z.to_pos (2 ^ (- e)) in
      if s then Qopp v else v
  | _ => 0%Q
  end.

(** The floats that the format contains: 53 significant bits at most, the
    exponent in range, the mantissa normalised. *)
Definition valid (x : float) : bool := valid_binary prec emax x.

End Binary64.

(** ** The arithmetic the formulas use

    [celsius * 9 / 5 + 32] is evaluated left to right with the operators of
    the operand's type. Python converts the integer literals to that type;
    [/] raises [ZeroDivisionError] on a zero divisor, the other operators
    raise nothing. *)

Class PyNumber (T : Type) : Type := {
  of_int : Z -> T;
  py_mul : T -> T -> T;
  py_add : T -> T -> T;
  py_sub : T -> T -> T;
  py_truediv : T -> T -> result T
}.

#[export] Instance float_number : PyNumber float := {
  of_int := Binary64.of_Z;
  py_mul := Binary64.mul;
  py_add := Binary64.add;
  py_sub := Binary64.sub;
  py_truediv := fun x y =>
    if Binary64.is_zero y then Raise ZeroDivisionError
    else Ok (Binary64.div x y)
}.

(** Exact rational arithmetic (what [fractions.Fraction] computes). *)
#[export] Instance exact_number : PyNumber Q := {
  of_int := inject_Z;
  py_mul := Qmult;
  py_add := Qplus;
  py_sub := Qminus;
  py_truediv := fun x y =>
    if Qeq_bool y 0 then Raise ZeroDivisionError
    else Ok (Qdiv x y)
}.

(** ** The conversion formulas *)

Section Formulas.

Context {T : Type} `{PyNumber T}.

(** [return (celsius * 9/5) + 32] *)
Definition celsius_to_fahrenheit (celsius : T) : result T :=
  q <- py_truediv (py_mul celsius (of_int 9)) (of_int 5) ;;
  Ok (py_add q (of_int 32)).

(** [return (fahrenheit - 32) * 5/9] *)
Definition fahrenheit_to_celsius (fahrenheit : T) : result T :=
  py_truediv (py_mul (py_sub fahrenheit (of_int 32)) (of_int 5)) (of_int 9).

End Formulas.

(** ** Text: characters and decimal digits *)

Definition chars : Type := list ascii.

Definition code (c : ascii) : Z := Z.of_nat (nat_of_ascii c).

(** [Py_ISSPACE]: space, and the control characters 9 to 13. *)
Definition is_space (c : ascii) : bool :=
  (code c =? 32) || ((9 <=? code c) && (code c <=? 13)).

Definition is_digit (c : ascii) : bool :=
  (48 <=? code c) && (code c <=? 57).

Definition digit_value (c : ascii) : Z := code c - 48.

Definition digit_char (d : Z) : ascii := ascii_of_nat (Z.to_nat (48 + d)).

Definition is_char (c d : ascii) : bool := Ascii.eqb c d.

(** ASCII lower case, as the case-insensitive match of [inf] and [nan]. *)
Definition lower (c : ascii) : ascii :=
  if (65 <=? code c) && (code c <=? 90)
  then ascii_of_nat (Z.to_nat (code c + 32)) else c.

Fixpoint lstrip (s : chars) : chars :=
  match s with
  | c :: s' => if is_space c then lstrip s' else s
  | [] => []
  end.

Definition strip (s : chars) : chars := rev (lstrip (rev (lstrip s))).

(** Underscores are allowed between two digits only; they are removed
    before the number is read. [prev] is the character before [s]. *)
Fixpoint remove_underscores (prev : option ascii) (s : chars) : option chars :=
  match s with
  | [] =>
      match prev with
      | Some p => if is_char p "_" then None else Some []
      | None => Some []
      end
  | c :: s' =>
      let prev_digit := match prev with Some p => is_digit p | None => false end in
      let prev_under := match prev with Some p => is_char p "_" | None => false end in
      if is_char c "_" then
        if prev_digit then remove_underscores (Some c) s' else None
      else if prev_under && negb (is_digit c) then None
      else option_map (cons c) (remove_underscores (Some c) s')
  end.

(** The longest prefix of digits, and what follows it. *)
Fixpoint span_digits (s : chars) : chars * chars :=
  match s with
  | c :: s' =>
      if is_digit c then let (d, r) := span_digits s' in (c :: d, r)
      else ([], s)
  | [] => ([], [])
  end.

(** The number a string of digits denotes. *)
Definition digits_value (d : chars) : Z :=
  fold_left (fun acc c => 10 * acc + digit_value c) d 0.

(** An optional sign: [true] for [-]. *)
Definition read_sign (s : chars) : bool * chars :=
  match s with
  | c :: s' =>
      if is_char c "-" then (true, s')
      else if is_char c "+" then (false, s')
      else (false, s)
  | [] => (false, [])
  end.

(** *** [int(s)], base 10 *)

Definition py_int (s : string) : option Z :=
  match remove_underscores None (strip (list_ascii_of_string s)) with
  | None => None
  | Some t =>
      let (neg, body) := read_sign t in
      match span_digits body with
      | (c :: d, []) =>
          let n := digits_value (c :: d) in
          Some (if neg then - n else n)
      | _ => None
      end
  end.

(** *** [float(s)] *)

(** The float nearest to [m * 10 ^ e], [m > 0], ties to even. *)
Definition decimal_to_float (neg : bool) (m : positive) (e : Z) : float :=
  if 0 <=? e
  then binary_normalize Binary64.prec Binary64.emax
         ((if neg then Z.neg m else Z.pos m) * 10 ^ e) 0 false
  else Binary64.div (S754_finite neg m 0)
                    (S754_finite false (Z.to_pos (10 ^ (- e))) 0).

(** The exponent part: nothing, or [e] or [E], an optional sign and at
    least one digit, up to the end of the string. *)
Definition read_exponent (s : chars) : option Z :=
  match s with
  | [] => Some 0
  | c :: s' =>
      if is_char (lower c) "e" then
        let (neg, body) := read_sign s' in
        match span_digits body with
        | (d :: ds, []) =>
            let n := digits_value (d :: ds) in
            Some (if neg then - n else n)
        | _ => None
        end
      else None
  end.

Definition read_number (neg : bool) (s : chars) : option float :=
  let (ip, r1) := span_digits s in
  let (fp, r2) :=
    match r1 with
    | c :: r => if is_char c "." then span_digits r else ([], r1)
    | [] => ([], [])
    end in
  match (ip ++ fp)%list with
  | [] => None
  | _ :: _ =>
      match read_exponent r2 with
      | None => None
      | Some ex =>
          match digits_value (ip ++ fp)%list with
          | Z.pos m =>
              Some (decimal_to_float neg m (ex - Z.of_nat (List.length fp)))
          | _ => Some (S754_zero neg)
          end
      end
  end.

Definition py_float (s : string) : option float :=
  match remove_underscores None (strip (list_ascii_of_string s)) with
  | None => None
  | Some t =>
      let (neg, body) := read_sign t in
      let word := string_of_list_ascii (map lower body) in
      if (word =? "inf")%string || (word =? "infinity")%string
      then Some (S754_infinity neg)
      else if (word =? "nan")%string then Some S754_nan
      else read_number neg body
  end.

(** *** Fixed-point formatting: [format(x, ".<p>f")] *)

(** The decimal digits of [n >= 0], most significant first; [fuel] bounds
    their number. *)
Fixpoint decimal_digits (fuel : nat) (n : Z) (acc : string) : string :=
  match fuel with
  | O => acc
  | S fuel' =>
      let acc' := String (digit_char (n mod 10)) acc in
      if n / 10 =? 0 then acc' else decimal_digits fuel' (n / 10) acc'
  end.

Definition string_of_Z (n : Z) : string :=
  decimal_digits (S (Z.to_nat (Z.log2 n))) n "".

(** The [p] low decimal digits of [n], zero padded. *)
Fixpoint fraction_digits (p : nat) (n : Z) (acc : string) : string :=
  match p with
  | O => acc
  | S p' => fraction_digits p' (n / 10) (String (digit_char (n mod 10)) acc)
  end.

(** [num / den] rounded to the nearest integer, ties to even ([den > 0]). *)
Definition round_half_even (num den : Z) : Z :=
  let q := num / den in
  let r := num mod den in
  match 2 * r ?= den with
  | Lt => q
  | Gt => q + 1
  | Eq => if Z.even q then q else q + 1
  end.

(** [|x| * 10 ^ p], rounded to an integer, for a finite [x]. *)
Definition scaled_magnitude (x : float) (p : Z) : Z :=
  match x with
  | S754_finite _ m e =>
      if 0 <=? e then Z.pos m * 2 ^ e * 10 ^ p
      else round_half_even (Z.pos m * 10 ^ p) (2 ^ (- e))
  | _ => 0
  end.

Definition sign_bit (x : float) : bool :=
  match x with
  | S754_zero s | S754_infinity s | S754_finite s _ _ => s
  | S754_nan => false
  end.

Definition format_fixed (x : float) (p : Z) : string :=
  let sign := if sign_bit x then "-" else "" in
  match x with
  | S754_nan => "nan"
  | S754_infinity _ => sign ++ "inf"
  | _ =>
      let n := scaled_magnitude x p in
      let int_part := string_of_Z (n / 10 ^ p) in
      if p =? 0 then sign ++ int_part
      else sign ++ int_part ++ "."
             ++ fraction_digits (Z.to_nat p) (n mod 10 ^ p) ""
  end.

(** The largest precision a format specifier may carry ([INT_MAX]). *)
Definition max_precision : Z := 2147483647.

(** The largest number a format specifier may spell ([PY_SSIZE_T_MAX]). *)
Definition max_spec_number : Z := 9223372036854775807.

(** [f"{x:.{precision}f}"]: a negative precision gives a specifier such as
    [".-1f"], which is malformed; a precision above [INT_MAX] is refused. *)
Definition format_float (x : float) (precision : Z) : result string :=
  if precision <? 0
  then Raise (ValueError "Format specifier missing precision")
  else if max_spec_number <? precision
  then Raise (ValueError "Too many decimal digits in format string")
  else if max_precision <? precision
  then Raise (ValueError "precision too big")
  else Ok (format_fixed x precision).

(** ** The argument parser

    [parse_arguments] builds an [ArgumentParser] with the default help
    option, a required mutually exclusive group of [-c/--celsius] and
    [-f/--fahrenheit] (both [type=float]) and [-p/--precision]
    ([type=int], [default=2], [choices=range(0, 6)]), and calls
    [parse_args] on the command line. *)

Record Namespace : Type := {
  celsius : option float;
  fahrenheit : option float;
  precision : Z
}.

Module Argparse.

Inductive action : Type :=
| Help
| Celsius
| Fahrenheit
| Precision.

Definition action_eqb (a b : action) : bool :=
  match a, b with
  | Help, Help | Celsius, Celsius
  | Fahrenheit, Fahrenheit | Precision, Precision => true
  | _, _ => false
  end.

(** [_option_string_actions], in the order of registration. *)
Definition option_string_actions : list (string * action) :=
  [ ("-h", Help); ("--help", Help);
    ("-c", Celsius); ("--celsius", Celsius);
    ("-f", Fahrenheit); ("--fahrenheit", Fahrenheit);
    ("-p", Precision); ("--precision", Precision) ].

Definition lookup (s : string) : option action :=
  option_map snd
    (find (fun entry => String.eqb (fst entry) s) option_string_actions).

(** The number of argument strings an option takes: none for help
    ([nargs=0]), one for the others ([nargs=None]). *)
Definition nargs (a : action) : nat :=
  match a with
  | Help => 0
  | _ => 1
  end.

(** The other members of the mutually exclusive group of [a]. *)
Definition conflicts (a : action) : list action :=
  match a with
  | Celsius => [Fahrenheit]
  | Fahrenheit => [Celsius]
  | _ => []
  end.

Inductive usage_error : Type :=
| AmbiguousOption (arg : string)
| ExpectedOneArgument (a : action)
| IgnoredExplicitArgument (a : action) (explicit_arg : string)
| InvalidValue (a : action) (value : string)
| InvalidChoice (a : action) (value : Z)
| NotAllowedWith (a other : action)
| OneIsRequired
| UnrecognizedArguments (args : list string).

(** How a parse ends: a namespace, the help text and exit status 0, or a
    usage message and exit status 2. *)
Inductive outcome (A : Type) : Type :=
| Parsed (a : A)
| HelpExit
| UsageError (e : usage_error).

Arguments Parsed {A} a.
Arguments HelpExit {A}.
Arguments UsageError {A} e.

Definition and_then {A B : Type} (o : outcome A) (k : A -> outcome B)
  : outcome B :=
  match o with
  | Parsed a => k a
  | HelpExit => HelpExit
  | UsageError e => UsageError e
  end.

(** *** Classification of the argument strings *)

Definition first_is_dash (s : string) : bool :=
  match s with
  | String c _ => is_char c "-"
  | EmptyString => false
  end.

Definition second_is_dash (s : string) : bool :=
  match s with
  | String _ (String c _) => is_char c "-"
  | _ => false
  end.

Fixpoint contains (c : ascii) (s : string) : bool :=
  match s with
  | String d s' => is_char d c || contains c s'
  | EmptyString => false
  end.

(** [s.split('=', 1)] when [s] contains [=]. *)
Fixpoint split_equals (s : string) : option (string * string) :=
  match s with
  | EmptyString => None
  | String c s' =>
      if is_char c "=" then Some ("", s')
      else match split_equals s' with
           | Some (l, r) => Some (String c l, r)
           | None => None
           end
  end.

Definition all_digits (s : chars) : bool := forallb is_digit s.

(** [$] matches at the end of the string and before a final newline. *)
Definition drop_final_newline (s : chars) : chars :=
  match rev s with
  | c :: r => if code c =? 10 then rev r else s
  | [] => s
  end.

(** [_negative_number_matcher]: ['^-\d+$|^-\d*\.\d+$']. *)
Definition negative_number (arg : string) : bool :=
  match list_ascii_of_string arg with
  | c :: body =>
      is_char c "-" &&
      (let t := drop_final_newline body in
       let (ip, r) := span_digits t in
       match r with
       | [] => negb (Nat.eqb (List.length ip) 0)
       | d :: fp =>
           is_char d "." && all_digits fp
           && negb (Nat.eqb (List.length fp) 0)
       end)
  | [] => false
  end.

Definition option_tuple : Type := action * string * option string.

(** [_get_option_tuples], for an [arg] of two characters at least that
    starts with [-]. *)
Definition get_option_tuples (arg : string) : list option_tuple :=
  if second_is_dash arg then
    let (option_prefix, explicit_arg) :=
      match split_equals arg with
      | Some (l, r) => (l, Some r)
      | None => (arg, None)
      end in
    flat_map
      (fun entry : string * action =>
         let (option_string, a) := entry in
         if prefix option_prefix option_string
         then [(a, option_string, explicit_arg)] else [])
      option_string_actions
  else
    let short_option_prefix := substring 0 2 arg in
    let short_explicit_arg := substring 2 (String.length arg - 2) arg in
    flat_map
      (fun entry : string * action =>
         let (option_string, a) := entry in
         if String.eqb option_string short_option_prefix
         then [(a, option_string, Some short_explicit_arg)]
         else if prefix arg option_string
         then [(a, option_string, None)] else [])
      option_string_actions.

(** What [_parse_optional] answers for one argument string. *)
Inductive optional : Type :=
| Positional
| Option (a : option action) (option_string : string)
         (explicit_arg : option string)
| Ambiguous.

Definition parse_optional (arg : string) : optional :=
  if negb (first_is_dash arg) then Positional
  else
    match lookup arg with
    | Some a => Option (Some a) arg None
    | None =>
        if Nat.eqb (String.length arg) 1 then Positional
        else
          let with_equals :=
            match split_equals arg with
            | Some (option_string, explicit_arg) =>
                match lookup option_string with
                | Some a => Some (Option (Some a) option_string
                                         (Some explicit_arg))
                | None => None
                end
            | None => None
            end in
          match with_equals with
          | Some r => r
          | None =>
              match get_option_tuples arg with
              | _ :: _ :: _ => Ambiguous
              | [(a, option_string, explicit_arg)] =>
                  Option (Some a) option_string explicit_arg
              | [] =>
                  if negative_number arg then Positional
                  else if contains " " arg then Positional
                  else Option None arg None
              end
          end
    end.

(** An argument string with its letter in [arg_strings_pattern]:
    [O], [A] or [-]. *)
Inductive item : Type :=
| Opt (arg : string) (a : option action) (option_string : string)
      (explicit_arg : option string)
| Arg (arg : string)
| Dashes.

(** The classification pass; it stops with an error at an ambiguous
    option. *)
Fixpoint classify (arg_strings : list string) : outcome (list item) :=
  match arg_strings with
  | [] => Parsed []
  | arg :: rest =>
      if String.eqb arg "--" then Parsed (Dashes :: map Arg rest)
      else
        match parse_optional arg with
        | Ambiguous => UsageError (AmbiguousOption arg)
        | Positional =>
            and_then (classify rest) (fun items => Parsed (Arg arg :: items))
        | Option a option_string explicit_arg =>
            and_then (classify rest) (fun items =>
              Parsed (Opt arg a option_string explicit_arg :: items))
        end
  end.

(** *** Taking the actions *)

Record state : Type := {
  namespace : Namespace;
  seen_non_default_actions : list action;
  extras : list string
}.

Definition seen (a : action) (st : state) : bool :=
  existsb (action_eqb a) (seen_non_default_actions st).

Definition initial : state :=
  {| namespace := {| celsius := None; fahrenheit := None; precision := 2 |};
     seen_non_default_actions := [];
     extras := [] |}.

Definition add_extra (arg : string) (st : state) : state :=
  {| namespace := namespace st;
     seen_non_default_actions := seen_non_default_actions st;
     extras := (extras st ++ [arg])%list |}.

Definition store (a : action) (ns : Namespace) (st : state) : state :=
  {| namespace := ns;
     seen_non_default_actions := a :: seen_non_default_actions st;
     extras := extras st |}.

(** [value not in range(0, 6)] *)
Definition in_choices (n : Z) : bool := (0 <=? n) && (n <? 6).

(** [take_action]: convert the argument string with the option's [type],
    check the [choices], refuse an option whose group partner was seen,
    and store the value. Help prints the help text and exits.

    An option counts as seen when its value [is not] the default; for
    [-p 2] CPython gives the very object of the default back. *)
Definition take_action (a : action) (args : list string) (st : state)
  : outcome state :=
  let ns := namespace st in
  match a, args with
  | Help, _ => HelpExit
  | Precision, [s] =>
      match py_int s with
      | None => UsageError (InvalidValue a s)
      | Some n =>
          if in_choices n then
            let ns' := {| celsius := celsius ns; fahrenheit := fahrenheit ns;
                          precision := n |} in
            Parsed (if n =? 2
                    then {| namespace := ns';
                            seen_non_default_actions :=
                              seen_non_default_actions st;
                            extras := extras st |}
                    else store a ns' st)
          else UsageError (InvalidChoice a n)
      end
  | Celsius, [s] =>
      match py_float s with
      | None => UsageError (InvalidValue a s)
      | Some v =>
          match filter (fun c => seen c st) (conflicts a) with
          | c :: _ => UsageError (NotAllowedWith a c)
          | [] =>
              Parsed (store a {| celsius := Some v;
                                 fahrenheit := fahrenheit ns;
                                 precision := precision ns |} st)
          end
      end
  | Fahrenheit, [s] =>
      match py_float s with
      | None => UsageError (InvalidValue a s)
      | Some v =>
          match filter (fun c => seen c st) (conflicts a) with
          | c :: _ => UsageError (NotAllowedWith a c)
          | [] =>
              Parsed (store a {| celsius := celsius ns;
                                 fahrenheit := Some v;
                                 precision := precision ns |} st)
          end
      end
  | _, _ => UsageError (ExpectedOneArgument a)
  end.

Fixpoint take_actions (tuples : list (action * list string)) (st : state)
  : outcome state :=
  match tuples with
  | [] => Parsed st
  | (a, args) :: rest => and_then (take_action a args st) (take_actions rest)
  end.

(** *** Consuming one option *)

(** What [consume_optional] decides before it takes the actions: the
    actions with their argument strings, and whether the argument string
    after the option was used. *)
Record consumed : Type := {
  action_tuples : list (action * list string);
  used_next : bool
}.

(** The option has no explicit argument: its arguments are matched with
    the strings that follow ([next] is the first of them when it is an
    argument). *)
Definition match_following (a : action) (next : option string)
  (done : list (action * list string)) : outcome consumed :=
  match nargs a, next with
  | O, _ =>
      Parsed {| action_tuples := (done ++ [(a, [])])%list;
                used_next := false |}
  | _, Some s =>
      Parsed {| action_tuples := (done ++ [(a, [s])])%list;
                used_next := true |}
  | _, None => UsageError (ExpectedOneArgument a)
  end.

Definition is_short (option_string : string) : bool :=
  negb (second_is_dash option_string).

(** The option has the explicit argument [explicit_arg]. An option that
    takes one argument takes it; a single-dash option that takes none
    reads a further single-dash option out of it ([-hc25] is [-h -c25]). *)
Fixpoint match_explicit (a : action) (option_string explicit_arg : string)
  (next : option string) (done : list (action * list string))
  {struct explicit_arg} : outcome consumed :=
  match nargs a with
  | S _ =>
      Parsed {| action_tuples := (done ++ [(a, [explicit_arg])])%list;
                used_next := false |}
  | O =>
      match explicit_arg with
      | String c tail =>
          if is_short option_string then
            let option_string' := String "-" (String c "") in
            match lookup option_string' with
            | Some a' =>
                match tail with
                | EmptyString =>
                    match_following a' next (done ++ [(a, [])])%list
                | String _ _ =>
                    match_explicit a' option_string' tail next
                                   (done ++ [(a, [])])%list
                end
            | None => UsageError (IgnoredExplicitArgument a explicit_arg)
            end
          else UsageError (IgnoredExplicitArgument a explicit_arg)
      | EmptyString => UsageError (IgnoredExplicitArgument a explicit_arg)
      end
  end.

Definition consume_optional (a : action) (option_string : string)
  (explicit_arg : option string) (next : option string) : outcome consumed :=
  match explicit_arg with
  | Some e => match_explicit a option_string e next []
  | None => match_following a next []
  end.

(** *** The parsing loop *)

(** The checks after the last argument: one option of the required group
    must have been seen, and no argument may be left over. *)
Definition finish (st : state) : outcome Namespace :=
  if seen Celsius st || seen Fahrenheit st then
    match extras st with
    | [] => Parsed (namespace st)
    | _ :: _ => UsageError (UnrecognizedArguments (extras st))
    end
  else UsageError OneIsRequired.

Definition next_argument (items : list item) : option string :=
  match items with
  | Arg s :: _ => Some s
  | _ => None
  end.

(** Options are consumed from left to right; the parser has no positional
    argument, so every other string is left over. *)
Fixpoint consume (items : list item) (st : state) : outcome Namespace :=
  match items with
  | [] => finish st
  | Arg arg :: rest => consume rest (add_extra arg st)
  | Dashes :: rest => consume rest (add_extra "--" st)
  | Opt arg None _ _ :: rest => consume rest (add_extra arg st)
  | Opt arg (Some a) option_string explicit_arg :: rest =>
      match consume_optional a option_string explicit_arg
                             (next_argument rest) with
      | Parsed c =>
          match take_actions (action_tuples c) st with
          | Parsed st' =>
              if used_next c then
                match rest with
                | _ :: rest' => consume rest' st'
                | [] => finish st'
                end
              else consume rest st'
          | HelpExit => HelpExit
          | UsageError e => UsageError e
          end
      | HelpExit => HelpExit
      | UsageError e => UsageError e
      end
  end.

Definition parse_args (arg_strings : list string) : outcome Namespace :=
  and_then (classify arg_strings) (fun items => consume items initial).

End Argparse.

(** ** The program *)

(** What the process writes: a line of text ([print]), the help text, a
    usage message with its error, or the traceback of an exception that
    nothing caught. *)
Inductive output : Type :=
| Line (text : string)
| HelpText
| UsageText (e : Argparse.usage_error)
| Traceback (e : exn).

(** A computation of the program: what it wrote so far and its value or
    the exception it raised. *)
Record run (A : Type) : Type := {
  out : list output;
  err : list output;
  value : result A
}.

Arguments out {A} r.
Arguments err {A} r.
Arguments value {A} r.

Definition ret {A : Type} (a : A) : run A :=
  {| out := []; err := []; value := Ok a |}.

Definition raise {A : Type} (e : exn) : run A :=
  {| out := []; err := []; value := Raise e |}.

Definition lift {A : Type} (r : result A) : run A :=
  {| out := []; err := []; value := r |}.

Definition seq {A B : Type} (r : run A) (k : A -> run B) : run B :=
  match value r with
  | Ok a =>
      let r' := k a in
      {| out := (out r ++ out r')%list;
         err := (err r ++ err r')%list;
         value := value r' |}
  | Raise e => {| out := out r; err := err r; value := Raise e |}
  end.

Notation "x <~ r ;; k" := (seq r (fun x => k))
  (at level 61, r at next level, right associativity).

Definition print (text : string) : run unit :=
  {| out := [Line text]; err := []; value := Ok tt |}.

(** [parser.parse_args()]: help goes to standard output and ends the
    process with status 0, a usage error goes to standard error and ends
    it with status 2. *)
Definition parse_arguments (argv : list string) : run Namespace :=
  match Argparse.parse_args argv with
  | Argparse.Parsed ns => ret ns
  | Argparse.HelpExit =>
      {| out := [HelpText]; err := []; value := Raise (SystemExit 0) |}
  | Argparse.UsageError e =>
      {| out := []; err := [UsageText e]; value := Raise (SystemExit 2) |}
  end.

(** The degree sign, U+00B0, as UTF-8. *)
Definition degree : string :=
  String (ascii_of_nat 194) (String (ascii_of_nat 176) "").

(** [f"{original:.{precision}f}°{unit_from} = {converted:.{precision}f}°{unit_to}"] *)
Definition format_output (original converted : float)
  (unit_from unit_to : string) (precision : Z) : result string :=
  o <- format_float original precision ;;
  c <- format_float converted precision ;;
  Ok (o ++ degree ++ unit_from ++ " = " ++ c ++ degree ++ unit_to).

(** An interrupt is a [KeyboardInterrupt] raised before one of the
    statements of the [try] block: [interrupt = Some k] delivers it when
    statement [k] is about to run (0: [parse_arguments], 1: the
    conversion, 2: [format_output], 3: [print]). *)
Definition checkpoint (interrupt : option nat) (k : nat) : run unit :=
  match interrupt with
  | Some n => if Nat.eqb n k then raise KeyboardInterrupt else ret tt
  | None => ret tt
  end.

(** The body of the [try] statement of [main]. In the [else] branch
    [args.fahrenheit] is passed on as it is: were it [None], the
    subtraction would raise [TypeError]. *)
Definition main_body (argv : list string) (interrupt : option nat)
  : run unit :=
  _ <~ checkpoint interrupt 0 ;;
  args <~ parse_arguments argv ;;
  _ <~ checkpoint interrupt 1 ;;
  output <~
    match celsius args with
    | Some c =>
        converted_temp <~ lift (celsius_to_fahrenheit c) ;;
        _ <~ checkpoint interrupt 2 ;;
        lift (format_output c converted_temp "C" "F" (precision args))
    | None =>
        match fahrenheit args with
        | Some f =>
            converted_temp <~ lift (fahrenheit_to_celsius f) ;;
            _ <~ checkpoint interrupt 2 ;;
            lift (format_output f converted_temp "F" "C" (precision args))
        | None => raise TypeError
        end
    end ;;
  _ <~ checkpoint interrupt 3 ;;
  print output.

(** What can be observed of a run of the program. *)
Record process : Type := {
  stdout : list output;
  stderr : list output;
  exit_status : Z
}.

Definition newline : string := String (ascii_of_nat 10) "".

(** [main]: the [try] block and its two handlers. [SystemExit] passes
    through them and sets the exit status; any other exception ends the
    process with a traceback and status 1. *)
Definition main (argv : list string) (interrupt : option nat) : process :=
  let r := main_body argv interrupt in
  match value r with
  | Ok _ =>
      {| stdout := out r; stderr := err r; exit_status := 0 |}
  | Raise (ValueError msg) =>
      {| stdout := (out r ++ [Line ("Error: " ++ msg)])%list;
         stderr := err r;
         exit_status := 1 |}
  | Raise KeyboardInterrupt =>
      {| stdout :=
           (out r ++ [Line (newline ++ "Operation cancelled by user")])%list;
         stderr := err r;
         exit_status := 0 |}
  | Raise (SystemExit code) =>
      {| stdout := out r; stderr := err r; exit_status := code |}
  | Raise e =>
      {| stdout := out r;
         stderr := (err r ++ [Traceback e])%list;
         exit_status := 1 |}
  end.

(** ** Notions used in the statements *)

(** The floats 9.0, 5.0 and 32.0. *)
Definition nine : float := S754_finite false 5066549580791808 (-49).
Definition five : float := S754_finite false 5629499534213120 (-50).
Definition thirty_two : float := S754_finite false 4503599627370496 (-47).

(** [c * 9 / 5 + 32] and [(f - 32) * 5 / 9] in binary64 arithmetic. *)
Definition fahrenheit_of (c : float) : float :=
  Binary64.add (Binary64.div (Binary64.mul c nine) five) thirty_two.

Definition celsius_of (f : float) : float :=
  Binary64.div (Binary64.mul (Binary64.sub f thirty_two) five) nine.

(** The line [<original>°<unit_from> = <converted>°<unit_to>]. *)
Definition conversion_line (original converted : float)
  (unit_from unit_to : string) (p : Z) : string :=
  format_fixed original p ++ degree ++ unit_from ++ " = "
  ++ format_fixed converted p ++ degree ++ unit_to.

(** The line that a parsed request is answered with. *)
Definition answer (ns : Namespace) : string :=
  match celsius ns, fahrenheit ns with
  | Some c, _ => conversion_line c (fahrenheit_of c) "C" "F" (precision ns)
  | None, Some f => conversion_line f (celsius_of f) "F" "C" (precision ns)
  | None, None => ""
  end.

(** A process that printed one line and ended with status 0. *)
Definition printed (text : string) : process :=
  {| stdout := [Line text]; stderr := []; exit_status := 0 |}.

(** A process that was refused with a usage message. *)
Definition refused (e : Argparse.usage_error) : process :=
  {| stdout := []; stderr := [UsageText e]; exit_status := 2 |}.

(** A process that printed the help text. *)
Definition helped : process :=
  {| stdout := [HelpText]; stderr := []; exit_status := 0 |}.

(** A process that was interrupted: the notice, and status 0. *)
Definition cancelled : process :=
  {| stdout := [Line (newline ++ "Operation cancelled by user")];
     stderr := [];
     exit_status := 0 |}.

Definition is_some {A : Type} (o : option A) : bool :=
  match o with
  | Some _ => true
  | None => false
  end.



(** Option [a] is on the command line: one of the classified argument
    strings is an option string of [a]. *)
Definition supplied_in (a : Argparse.action) (items : list Argparse.item)
  : bool :=
  existsb
    (fun it =>
       match it with
       | Argparse.Opt _ (Some b) _ _ => Argparse.action_eqb a b
       | _ => false
       end)
    items.

Definition supplied (a : Argparse.action) (argv : list string) : bool :=
  match Argparse.classify argv with
  | Argparse.Parsed items => supplied_in a items
  | _ => false
  end.

(** The argument strings that the command line gives to [-p/--precision]:
    attached to the option, or the argument that follows it. *)
Fixpoint precisions_in (items : list Argparse.item) : list string :=
  match items with
  | [] => []
  | Argparse.Opt _ (Some Argparse.Precision) _ (Some e) :: rest =>
      e :: precisions_in rest
  | Argparse.Opt _ (Some Argparse.Precision) _ None :: rest =>
      match rest with
      | Argparse.Arg s :: rest' => s :: precisions_in rest'
      | _ => precisions_in rest
      end
  | _ :: rest => precisions_in rest
  end.

Definition supplied_precisions (argv : list string) : list string :=
  match Argparse.classify argv with
  | Argparse.Parsed items => precisions_in items
  | _ => []
  end.

(** [s] parses as an integer of the closed range from 0 to 5. *)
Definition valid_precision (s : string) : bool :=
  match py_int s with
  | Some n => (0 <=? n) && (n <=? 5)
  | None => false
  end.

(** The precision a list of supplied precisions ends with: the last one,
    [default] when there is none. *)
Definition final_precision (default : Z) (l : list string) : Z :=
  fold_left (fun _ s => match py_int s with Some n => n | None => 2 end)
            l default.

Definition requested_precision (l : list string) : Z := final_precision 2 l.

(** The parser's state is coherent: the precision is one of the choices,
    an option of the group was seen exactly when its value is set, and
    the two options of the group were not both seen. *)
Definition coherent (st : Argparse.state) : Prop :=
  let ns := Argparse.namespace st in
  Argparse.in_choices (precision ns) = true
  /\ Argparse.seen Argparse.Celsius st = is_some (celsius ns)
  /\ Argparse.seen Argparse.Fahrenheit st = is_some (fahrenheit ns)
  /\ Argparse.seen Argparse.Celsius st
      && Argparse.seen Argparse.Fahrenheit st = false.

(** *** Rounding

    [2 ^ e] as a rational number, for any integer [e]. *)
Definition pow2 (e : Z) : Q := (2 ^ e)%Q.

(** The exponent of the binary64 floats whose magnitude has [e] binary
    digits before the point: [max (e - 53) (-1074)]. *)
Definition fexp64 : Z -> Z := fexp Binary64.prec Binary64.emax.

(** The sign as a factor. *)
Definition sg (s : bool) : Q := if s then (- (1))%Q else 1%Q.

(** [x] lies between [m] and [m + 1], at the place that [l] tells: on
    [m], below, on or above the middle. *)
Definition located (m : Z) (l : location) (x : Q) : Prop :=
  match l with
  | loc_Exact => (x == inject_Z m)%Q
  | loc_Inexact Lt => (inject_Z m < x /\ x < inject_Z m + (1#2))%Q
  | loc_Inexact Eq => (x == inject_Z m + (1#2))%Q
  | loc_Inexact Gt => (inject_Z m + (1#2) < x /\ x < inject_Z m + 1)%Q
  end.

(** The unit roundoff [2 ^ -53], and half the smallest positive float,
    [2 ^ -1075]. *)
Definition u64 : Q := pow2 (-53).
Definition eta64 : Q := pow2 (-1075).

(** [r] is finite and as near to the number [p] as rounding to nearest
    makes it: within [u64 * |p|], or within [eta64] where the floats are
    evenly spaced. *)
Definition close (r : float) (p : Q) : Prop :=
  Binary64.is_finite r = true
  /\ (Qabs (Binary64.to_Q r - p) <= u64 * Qabs p + eta64)%Q.

(** *** Notions of the further properties *)

(** [arg] is an option that takes the argument after it: one of the
    value options, with no value attached. *)
Definition expects_value (arg : string) : bool :=
  match Argparse.parse_optional arg with
  | Argparse.Option (Some a) _ None =>
      negb (Argparse.action_eqb a Argparse.Help)
  | _ => false
  end.

(** A process that printed no conversion: the help text, or a usage
    message. *)
Definition no_conversion (p : process) : Prop :=
  p = helped \/ exists e, p = refused e.


(** [o] abbreviates the long option [full]: it is [--] and at least one
    more character, and [full] starts with it. *)
Definition abbreviates (o full : string) : bool :=
  prefix o full && Nat.ltb 2 (String.length o).

(** The long options of the parser. *)
Definition long_options : list (string * Argparse.action) :=
  filter (fun entry => Argparse.second_is_dash (fst entry))
         Argparse.option_string_actions.

(** The numeral of [n / 10 ^ p] with [p] decimals, for a natural number
    [n]: the digits of [n] with a point in front of the last [p] of them,
    and a minus sign when [neg]. *)
Definition decimal (neg : bool) (n : Z) (p : Z) : string :=
  (if neg then "-" else "")
  ++ string_of_Z (n / 10 ^ p)
  ++ (if p =? 0 then ""
      else "." ++ fraction_digits (Z.to_nat p) (n mod 10 ^ p) "").

(** The number that the numeral [decimal neg n q] denotes. *)
Definition decimal_value (neg : bool) (n q : Z) : Q :=
  (sg neg * (inject_Z n / inject_Z (10 ^ q)))%Q.

(** The value options: the short form, the long form and the action. *)
Definition value_options : list (string * string * Argparse.action) :=
  [ ("-c", "--celsius", Argparse.Celsius);
    ("-f", "--fahrenheit", Argparse.Fahrenheit);
    ("-p", "--precision", Argparse.Precision) ].

(** One step of [digits_value]. *)
Definition digit_step (acc : Z) (c : ascii) : Z := 10 * acc + digit_value c.

(** The characters of a numeral: digits, a point and a minus sign. *)
Definition numeral_char (c : ascii) : bool :=
  is_digit c || is_char c "." || is_char c "-".

(** * Properties *)

(** ** Rounding to nearest *)

(** The number of binary digits of a mantissa. *)
Lemma digits2_pos_bounds (p : positive) :
  2 ^ (Z.pos (digits2_pos p) - 1) <= Z.pos p < 2 ^ Z.pos (digits2_pos p).
Proof.
  induction p as [p IH|p IH|]; cbn [digits2_pos].
  - rewrite Pos2Z.inj_succ.
    replace (Z.succ (Z.pos (digits2_pos p)) - 1) with (Z.succ (Z.pos (digits2_pos p) - 1)) by lia.
    rewrite !Z.pow_succ_r by lia. lia.
  - rewrite Pos2Z.inj_succ.
    replace (Z.succ (Z.pos (digits2_pos p)) - 1) with (Z.succ (Z.pos (digits2_pos p) - 1)) by lia.
    rewrite !Z.pow_succ_r by lia. lia.
  - cbn. lia.
Qed.

Lemma Zdigits2_nonneg (m : Z) : 0 <= Zdigits2 m.
Proof. destruct m; cbn; lia. Qed.

Lemma Zdigits2_bounds (m : Z) :
  0 < m -> 2 ^ (Zdigits2 m - 1) <= m < 2 ^ Zdigits2 m.
Proof. destruct m as [|p|p]; try lia. intros _. apply digits2_pos_bounds. Qed.

Lemma Zdigits2_le (m d : Z) : 0 <= m -> 0 <= d -> m < 2 ^ d -> Zdigits2 m <= d.
Proof.
  intros Hm Hd H. destruct (Z.eq_dec m 0) as [->|Hne]; [cbn; lia|].
  destruct (Zdigits2_bounds m ltac:(lia)) as [Hlo _].
  destruct (Z.le_gt_cases (Zdigits2 m) d) as [|Hgt]; [assumption|].
  assert (2 ^ d <= 2 ^ (Zdigits2 m - 1)) by (apply Z.pow_le_mono_r; lia).
  lia.
Qed.

Lemma Zdigits2_pow2 (d : Z) : 0 <= d -> Zdigits2 (2 ^ d) = d + 1.
Proof.
  intros Hd. assert (Hpos : 0 < 2 ^ d) by (apply Z.pow_pos_nonneg; lia).
  destruct (Zdigits2_bounds _ Hpos) as [Hlo Hhi].
  pose proof (Zdigits2_nonneg (2 ^ d)).
  assert (d < Zdigits2 (2 ^ d)).
  { apply (Z.pow_lt_mono_r_iff 2); lia. }
  assert (Zdigits2 (2 ^ d) - 1 <= d).
  { apply (Z.pow_le_mono_r_iff 2); lia. }
  lia.
Qed.

(** Shifting a mantissa to the right, one bit at a time. *)
Lemma shr_1_m (mrs : shr_record) :
  0 <= shr_m mrs -> shr_m (shr_1 mrs) = shr_m mrs / 2.
Proof.
  destruct mrs as [m r s]. cbn [shr_m]. intros Hm.
  destruct m as [|p|p]; [reflexivity| |lia].
  destruct p as [p|p|]; cbn [shr_1 shr_m].
  - apply (Z.div_unique _ 2 (Z.pos p) 1); lia.
  - apply (Z.div_unique _ 2 (Z.pos p) 0); lia.
  - reflexivity.
Qed.

Lemma located_proper (m : Z) (l : location) (x y : Q) :
  (x == y)%Q -> located m l x -> located m l y.
Proof.
  intros E. destruct l as [|[| |]]; cbn; rewrite E; auto.
Qed.

Lemma shr_1_located (mrs : shr_record) (x : Q) :
  0 <= shr_m mrs ->
  located (shr_m mrs) (loc_of_shr_record mrs) x ->
  located (shr_m (shr_1 mrs)) (loc_of_shr_record (shr_1 mrs)) (x * (1 # 2))%Q.
Proof.
  destruct mrs as [m r s]. cbn [shr_m]. intros Hm H.
  assert (Hcase : (exists k, m = 2 * k /\ shr_1 (Build_shr_record m r s) = Build_shr_record k false (r || s))
               \/ (exists k, m = 2 * k + 1 /\ shr_1 (Build_shr_record m r s) = Build_shr_record k true (r || s))).
  { destruct m as [|[p|p|]|p]; try lia.
    - left. exists 0. split; reflexivity.
    - right. exists (Z.pos p). split; [lia | reflexivity].
    - left. exists (Z.pos p). split; [lia | reflexivity].
    - right. exists 0. split; reflexivity. }
  destruct Hcase as [(k & Ek & ->)|(k & Ek & ->)]; cbn [shr_m];
    apply (f_equal inject_Z) in Ek;
    rewrite ?inject_Z_plus, ?inject_Z_mult in Ek;
    change (inject_Z 2) with 2%Q in Ek; change (inject_Z 1) with 1%Q in Ek;
    clear Hm; destruct r, s; cbn [located loc_of_shr_record orb] in *;
    revert H Ek; generalize (inject_Z m) (inject_Z k);
    intros qm qk H Ek; rewrite Ek in H; lra.
Qed.

Lemma pow2_pos (e : Z) : (0 < pow2 e)%Q.
Proof. apply Qpower_0_lt. reflexivity. Qed.

Lemma pow2_add (a b : Z) : (pow2 (a + b) == pow2 a * pow2 b)%Q.
Proof. apply Qpower_plus. discriminate. Qed.

Lemma pow2_le (a b : Z) : a <= b -> (pow2 a <= pow2 b)%Q.
Proof. intros H. apply Qpower_le_compat_l; [exact H | discriminate]. Qed.

Lemma pow2_inject (n : Z) : 0 <= n -> (inject_Z (2 ^ n) == pow2 n)%Q.
Proof. intros H. unfold pow2. now rewrite Zpower_Qpower. Qed.

Lemma pow2_succ (a : Z) : (pow2 (a + 1) == 2 * pow2 a)%Q.
Proof. rewrite pow2_add. change (pow2 1) with 2%Q. ring. Qed.

Lemma pow2_pred (a : Z) : (pow2 (a - 1) == (1 # 2) * pow2 a)%Q.
Proof.
  replace a with ((a - 1) + 1) at 2 by lia. rewrite pow2_succ. field.
Qed.

Lemma iter_shr_1 (p : positive) : forall (mrs : shr_record) (x : Q),
  0 <= shr_m mrs ->
  located (shr_m mrs) (loc_of_shr_record mrs) x ->
  0 <= shr_m (iter_pos shr_1 p mrs)
  /\ shr_m (iter_pos shr_1 p mrs) = shr_m mrs / 2 ^ Z.pos p
  /\ located (shr_m (iter_pos shr_1 p mrs))
             (loc_of_shr_record (iter_pos shr_1 p mrs))
             (x * pow2 (- Z.pos p))%Q.
Proof.
  assert (Hone : forall mrs x,
            0 <= shr_m mrs ->
            located (shr_m mrs) (loc_of_shr_record mrs) x ->
            0 <= shr_m (shr_1 mrs)
            /\ shr_m (shr_1 mrs) = shr_m mrs / 2 ^ 1
            /\ located (shr_m (shr_1 mrs)) (loc_of_shr_record (shr_1 mrs))
                       (x * pow2 (- 1))%Q).
  { intros mrs x Hm Hx. rewrite (shr_1_m mrs Hm). repeat split.
    - apply Z.div_pos; lia.
    - rewrite <- (shr_1_m mrs Hm). now apply shr_1_located. }
  induction p as [p IH|p IH|]; intros mrs x Hm Hx; cbn [iter_pos].
  - destruct (Hone mrs x Hm Hx) as (H0 & E0 & L0).
    destruct (IH _ _ H0 L0) as (H1 & E1 & L1).
    destruct (IH _ _ H1 L1) as (H2 & E2 & L2).
    split; [exact H2|]. split.
    + rewrite E2, E1, E0, !Z.div_div by (try apply Z.pow_pos_nonneg; lia).
      f_equal. rewrite <- !Z.pow_add_r by lia. f_equal. lia.
    + eapply located_proper; [|exact L2].
      rewrite <- !Qmult_assoc, <- !pow2_add.
      replace (- Z.pos p~1) with (-1 + (- Z.pos p + - Z.pos p)) by lia.
      reflexivity.
  - destruct (IH _ _ Hm Hx) as (H1 & E1 & L1).
    destruct (IH _ _ H1 L1) as (H2 & E2 & L2).
    split; [exact H2|]. split.
    + rewrite E2, E1, !Z.div_div by (try apply Z.pow_pos_nonneg; lia).
      f_equal. rewrite <- !Z.pow_add_r by lia. f_equal. lia.
    + eapply located_proper; [|exact L2].
      rewrite <- !Qmult_assoc, <- !pow2_add.
      replace (- Z.pos p~0) with (- Z.pos p + - Z.pos p) by lia.
      reflexivity.
  - apply Hone; assumption.
Qed.

Lemma rne_located (m : Z) (l : location) (x : Q) :
  located m l x ->
  m <= round_nearest_even m l <= m + 1
  /\ (- (1 # 2) <= inject_Z (round_nearest_even m l) - x <= 1 # 2)%Q.
Proof.
  unfold round_nearest_even.
  destruct l as [|[| |]]; cbn [located]; intros H;
    try (destruct (Z.even m)); (split; [lia|]);
    rewrite ?inject_Z_plus; change (inject_Z 1) with 1%Q; lra.
Qed.

Lemma fexp64_eq (e : Z) : fexp64 e = Z.max (e - 53) (-1074).
Proof. reflexivity. Qed.

Lemma record_of_loc (m : Z) (l : location) :
  shr_m (shr_record_of_loc m l) = m
  /\ loc_of_shr_record (shr_record_of_loc m l) = l.
Proof. destruct l as [|[| |]]; split; reflexivity. Qed.

Lemma shr_spec (m : Z) (l : location) (e n : Z) (x : Q) :
  0 <= m -> located m l x -> 0 <= n ->
  exists mrs',
    shr (shr_record_of_loc m l) e n = (mrs', e + n)
    /\ 0 <= shr_m mrs' /\ shr_m mrs' = m / 2 ^ n
    /\ located (shr_m mrs') (loc_of_shr_record mrs') (x * pow2 (- n))%Q.
Proof.
  intros Hm Hx Hn. destruct (record_of_loc m l) as [Em El].
  destruct n as [|p|p]; [| |lia].
  - exists (shr_record_of_loc m l). cbn [shr]. rewrite Z.add_0_r, Em, El.
    repeat split; auto.
    + now rewrite Z.pow_0_r, Z.div_1_r.
    + eapply located_proper; [|exact Hx]. change (pow2 (-0)) with 1%Q. ring.
  - exists (iter_pos shr_1 p (shr_record_of_loc m l)). cbn [shr].
    split; [reflexivity|].
    destruct (iter_shr_1 p (shr_record_of_loc m l) x) as (H0 & E0 & L0);
      [lia | now rewrite Em, El |].
    rewrite Em in E0. auto.
Qed.

Lemma round_aux_spec (s : bool) (mx ex : Z) (lx : location) (x : Q) :
  0 <= mx -> located mx lx x ->
  ex <= fexp64 (Zdigits2 mx + ex) -> Zdigits2 mx + ex <= 1023 ->
  exists m1 : Z,
    0 <= m1
    /\ (- (1 # 2) <= inject_Z m1 - x * pow2 (ex - fexp64 (Zdigits2 mx + ex))
        <= 1 # 2)%Q
    /\ (m1 = 0
        /\ binary_round_aux Binary64.prec Binary64.emax s mx ex lx
           = S754_zero s
        \/ exists m e,
             binary_round_aux Binary64.prec Binary64.emax s mx ex lx
             = S754_finite s m e
             /\ (inject_Z (Z.pos m) * pow2 e
                 == inject_Z m1 * pow2 (fexp64 (Zdigits2 mx + ex)))%Q).
Proof.
  intros Hmx Hx Hpre Hmax.
  set (dx := Zdigits2 mx) in *. set (e1 := fexp64 (dx + ex)) in *.
  set (n := e1 - ex).
  assert (Hn : 0 <= n) by (unfold n; lia).
  assert (He1 : e1 = Z.max (dx + ex - 53) (-1074)) by apply fexp64_eq.
  destruct (shr_spec mx lx ex n x Hmx Hx Hn) as (mrs' & E1 & Hm' & Em' & L').
  replace (ex + n) with e1 in E1 by (unfold n; lia).
  destruct (rne_located _ _ _ L') as (Hm1 & Hq).
  set (m1 := round_nearest_even (shr_m mrs') (loc_of_shr_record mrs')) in *.
  exists m1. split; [lia|]. split.
  { replace (ex - e1) with (- n) by (unfold n; lia). exact Hq. }
  unfold binary_round_aux, shr_fexp.
  change (fexp Binary64.prec Binary64.emax) with fexp64.
  fold dx. fold e1. fold n. rewrite E1.
  fold m1. set (n3 := fexp64 (Zdigits2 m1 + e1) - e1).
  assert (Hn3e : n3 = Z.max (Zdigits2 m1 + e1 - 53) (-1074) - e1)
    by (unfold n3; now rewrite fexp64_eq).
  assert (Hdx : 0 <= dx) by apply Zdigits2_nonneg.
  assert (Hcases : n3 <= 0 \/ n3 = 1 /\ exists D, 1 <= D /\ m1 = 2 ^ D).
  { destruct (Z.le_gt_cases (dx - n) 0) as [HD|HD].
    - (* the mantissa is shifted out *)
      assert (Hm0 : shr_m mrs' = 0).
      { rewrite Em'. destruct (Z.eq_dec mx 0) as [->|Hne];
          [apply Z.div_0_l; apply Z.pow_nonzero; lia|].
        apply Z.div_small. split; [lia|].
        destruct (Zdigits2_bounds mx ltac:(lia)) as [_ Hhi]. fold dx in Hhi.
        assert (2 ^ dx <= 2 ^ n) by (apply Z.pow_le_mono_r; lia). lia. }
      assert (Zdigits2 m1 <= 1) by (apply Zdigits2_le; lia).
      pose proof (Zdigits2_nonneg m1). left. lia.
    - set (D := dx - n) in *.
      assert (Hlt : shr_m mrs' < 2 ^ D).
      { rewrite Em'. apply Z.div_lt_upper_bound;
          [apply Z.pow_pos_nonneg; lia|].
        rewrite <- Z.pow_add_r by lia. replace (n + D) with dx by (unfold D; lia).
        destruct (Z.eq_dec mx 0) as [->|Hne];
          [apply Z.pow_pos_nonneg; lia|].
        apply (Zdigits2_bounds mx); lia. }
      destruct (Z.eq_dec m1 (2 ^ D)) as [E|Hne].
      + rewrite E, Zdigits2_pow2 in Hn3e by lia.
        destruct (Z.le_gt_cases n3 0) as [|Hgt]; [now left|].
        right. split; [unfold D, n in *; lia|]. exists D. split; [lia|exact E].
      + assert (Zdigits2 m1 <= D) by (apply Zdigits2_le; lia).
        left. unfold D, n in *. lia. }
  assert (Hemax : e1 <= 970) by lia.
  destruct Hcases as [Hle|(E3 & D & HD & Em1)].
  - (* no second shift *)
    assert (Es : shr (shr_record_of_loc m1 loc_Exact) e1 n3
                 = (shr_record_of_loc m1 loc_Exact, e1)).
    { unfold shr. destruct n3; try reflexivity. lia. }
    rewrite Es. cbn [shr_record_of_loc shr_m].
    destruct m1 as [|m|m]; [left; auto | | lia].
    right. exists m, e1. split; [|reflexivity].
    replace (e1 <=? Binary64.emax - Binary64.prec) with true; [reflexivity|].
    symmetry. apply Z.leb_le. cbn. lia.
  - (* the rounded mantissa is a power of two, shifted once *)
    rewrite E3. cbn [shr iter_pos shr_record_of_loc].
    assert (Eh : shr_m (shr_1 (Build_shr_record m1 false false)) = 2 ^ (D - 1)).
    { rewrite shr_1_m by (cbn; lia). cbn [shr_m]. rewrite Em1.
      replace D with (D - 1 + 1) at 1 by lia.
      rewrite Z.pow_add_r by lia. rewrite Z.pow_1_r.
      now rewrite Z.div_mul by lia. }
    rewrite Eh.
    assert (Hp : 0 < 2 ^ (D - 1)) by (apply Z.pow_pos_nonneg; lia).
    destruct (2 ^ (D - 1)) as [|m|m] eqn:Ep; try lia.
    right. exists m, (e1 + 1). split.
    + replace (e1 + 1 <=? Binary64.emax - Binary64.prec) with true;
        [reflexivity|].
      symmetry. apply Z.leb_le. cbn. lia.
    + rewrite <- Ep, Em1, !pow2_inject by lia.
      rewrite <- !pow2_add. now replace (D - 1 + (e1 + 1)) with (D + e1) by lia.
Qed.

Lemma to_Q_finite (s : bool) (m : positive) (e : Z) :
  (Binary64.to_Q (S754_finite s m e) == sg s * (inject_Z (Z.pos m) * pow2 e))%Q.
Proof.
  unfold Binary64.to_Q.
  assert (Hv : ((if 0 <=? e then inject_Z (Z.pos m * 2 ^ e)
                else Z.pos m # Z.to_pos (2 ^ (- e)))
               == inject_Z (Z.pos m) * pow2 e)%Q).
  { destruct (Z.leb_spec 0 e) as [He|He].
    - rewrite inject_Z_mult, pow2_inject by lia. reflexivity.
    - assert (Hp : 0 < 2 ^ (- e)) by (apply Z.pow_pos_nonneg; lia).
      assert (Hinv : (pow2 e == / pow2 (- e))%Q).
      { unfold pow2. rewrite Qpower_opp. now rewrite Qinv_involutive. }
      rewrite Qmake_Qdiv. rewrite Z2Pos.id by exact Hp.
      rewrite pow2_inject by lia. rewrite Hinv. reflexivity. }
  destruct s; cbn [sg]; rewrite Hv; ring.
Qed.

Lemma to_Q_zero (s : bool) : Binary64.to_Q (S754_zero s) = 0%Q.
Proof. reflexivity. Qed.

Lemma located_lower (m : Z) (l : location) (x : Q) :
  located m l x -> (inject_Z m <= x)%Q.
Proof. destruct l as [|[| |]]; cbn; lra. Qed.

Lemma inject_Z_le (a b : Z) : a <= b -> (inject_Z a <= inject_Z b)%Q.
Proof. intros H. now rewrite <- Zle_Qle. Qed.

(** The size of a number bounds the digits of its mantissa. *)
Lemma digits_of_bound (mx ex : Z) (x : Q) (b : Z) :
  0 < mx -> (inject_Z mx <= x)%Q -> (x * pow2 ex < pow2 b)%Q ->
  Zdigits2 mx + ex <= b.
Proof.
  intros Hm Hx Hb. destruct (Zdigits2_bounds mx Hm) as [Hlo _].
  pose proof (Zdigits2_nonneg mx) as Hd.
  assert (Hd1 : 1 <= Zdigits2 mx).
  { destruct mx; try lia. cbn. lia. }
  assert (H1 : (pow2 (Zdigits2 mx - 1) <= x)%Q).
  { rewrite <- pow2_inject by lia. eapply Qle_trans; [|exact Hx].
    now apply inject_Z_le. }
  assert (H2 : (pow2 (Zdigits2 mx - 1 + ex) < pow2 b)%Q).
  { rewrite pow2_add. eapply Qle_lt_trans; [|exact Hb].
    apply Qmult_le_compat_r; [exact H1|]. apply Qlt_le_weak, pow2_pos. }
  apply Qpower_lt_compat_l_inv in H2; [lia | reflexivity].
Qed.

Lemma half_ulp_bound (mx ex : Z) (x : Q) :
  0 <= mx -> (inject_Z mx <= x)%Q ->
  ex <= fexp64 (Zdigits2 mx + ex) ->
  ((1 # 2) * pow2 (fexp64 (Zdigits2 mx + ex))
   <= u64 * (x * pow2 ex) + eta64)%Q.
Proof.
  intros Hm Hx Hpre. rewrite fexp64_eq in *.
  assert (Hx0 : (0 <= x)%Q).
  { eapply Qle_trans; [|exact Hx]. change 0%Q with (inject_Z 0).
    now apply inject_Z_le. }
  assert (Hv0 : (0 <= u64 * (x * pow2 ex))%Q).
  { apply Qmult_le_0_compat; [apply Qlt_le_weak, pow2_pos|].
    apply Qmult_le_0_compat; [exact Hx0 | apply Qlt_le_weak, pow2_pos]. }
  destruct (Z.max_spec (Zdigits2 mx + ex - 53) (-1074)) as [[Hlt ->]|[Hge ->]].
  - rewrite <- pow2_pred. change (pow2 (-1074 - 1)) with eta64. lra.
  - assert (Hpos : 0 < mx).
    { destruct (Z.eq_dec mx 0) as [->|]; [cbn in *; lia | lia]. }
    destruct (Zdigits2_bounds mx Hpos) as [Hlo _].
    assert (Hd1 : 1 <= Zdigits2 mx) by (destruct mx; try lia; cbn; lia).
    assert (H1 : (pow2 (Zdigits2 mx - 1) <= x)%Q).
    { rewrite <- pow2_inject by lia. eapply Qle_trans; [|exact Hx].
      now apply inject_Z_le. }
    assert (E : ((1 # 2) * pow2 (Zdigits2 mx + ex - 53)
                 == u64 * (pow2 (Zdigits2 mx - 1) * pow2 ex))%Q).
    { rewrite <- pow2_pred. unfold u64. rewrite <- !pow2_add.
      now replace (-53 + (Zdigits2 mx - 1 + ex)) with (Zdigits2 mx + ex - 53 - 1) by lia. }
    rewrite E.
    assert (Hm1 : (u64 * (pow2 (Zdigits2 mx - 1) * pow2 ex)
                   <= u64 * (x * pow2 ex))%Q).
    { apply Qmult_le_l; [apply pow2_pos|].
      apply Qmult_le_compat_r; [exact H1 | apply Qlt_le_weak, pow2_pos]. }
    assert (0 < eta64)%Q by apply pow2_pos. lra.
Qed.

(** The float that [binary_round_aux] returns for the number
    [x * 2 ^ ex] of sign [s]. *)
Lemma round_aux_error (s : bool) (mx ex : Z) (lx : location) (x : Q) :
  0 <= mx -> located mx lx x ->
  ex <= fexp64 (Zdigits2 mx + ex) ->
  (x * pow2 ex < pow2 1023)%Q ->
  Binary64.is_finite (binary_round_aux Binary64.prec Binary64.emax s mx ex lx)
  = true
  /\ (Qabs (Binary64.to_Q
              (binary_round_aux Binary64.prec Binary64.emax s mx ex lx)
            - sg s * (x * pow2 ex))
      <= u64 * (x * pow2 ex) + eta64)%Q.
Proof.
  intros Hm Hx Hpre Hb.
  pose proof (located_lower _ _ _ Hx) as Hlo.
  assert (Hmax : Zdigits2 mx + ex <= 1023).
  { destruct (Z.eq_dec mx 0) as [->|Hne].
    - cbn in *. rewrite fexp64_eq in Hpre. lia.
    - apply (digits_of_bound mx ex x); [lia | exact Hlo | exact Hb]. }
  pose proof (half_ulp_bound mx ex x Hm Hlo Hpre) as Hulp.
  destruct (round_aux_spec s mx ex lx x Hm Hx Hpre Hmax) as (m1 & Hm1 & Hq & Hr).
  set (e1 := fexp64 (Zdigits2 mx + ex)) in *.
  assert (Hscale : (x * pow2 ex == x * pow2 (ex - e1) * pow2 e1)%Q).
  { rewrite <- Qmult_assoc, <- pow2_add.
    now replace (ex - e1 + e1) with ex by lia. }
  assert (He1 : (0 < pow2 e1)%Q) by apply pow2_pos.
  assert (Hdiff : (Qabs (inject_Z m1 * pow2 e1 - x * pow2 ex)
                   <= (1 # 2) * pow2 e1)%Q).
  { rewrite Hscale.
    setoid_replace (inject_Z m1 * pow2 e1 - x * pow2 (ex - e1) * pow2 e1)%Q
      with ((inject_Z m1 - x * pow2 (ex - e1)) * pow2 e1)%Q by ring.
    rewrite Qabs_Qmult, (Qabs_pos (pow2 e1)) by lra.
    apply Qmult_le_compat_r; [|lra]. apply Qabs_Qle_condition. lra. }
  assert (Hsg : forall a b : Q, (Qabs (sg s * a - sg s * b) == Qabs (a - b))%Q).
  { intros a b. setoid_replace (sg s * a - sg s * b)%Q with (sg s * (a - b))%Q by ring.
    rewrite Qabs_Qmult. destruct s; cbn [sg].
    - change (Qabs (- (1))) with 1%Q. ring.
    - change (Qabs 1) with 1%Q. ring. }
  destruct Hr as [(E0 & ->)|(m & e & -> & Ev)].
  - split; [reflexivity|]. rewrite to_Q_zero.
    rewrite E0 in Hdiff.
    setoid_replace (0 - sg s * (x * pow2 ex))%Q
      with (sg s * (inject_Z 0 * pow2 e1) - sg s * (x * pow2 ex))%Q
      by (change (inject_Z 0) with 0%Q; ring).
    rewrite Hsg. lra.
  - split; [reflexivity|]. rewrite to_Q_finite, Ev, Hsg. lra.
Qed.

Lemma Zdigits2_ge (m t : Z) : 0 <= t -> 2 ^ t <= m -> t + 1 <= Zdigits2 m.
Proof.
  intros Ht H. assert (Hpos : 0 < m).
  { assert (0 < 2 ^ t) by (apply Z.pow_pos_nonneg; lia). lia. }
  destruct (Zdigits2_bounds m Hpos) as [_ Hhi].
  pose proof (Zdigits2_nonneg m).
  destruct (Z.le_gt_cases (t + 1) (Zdigits2 m)) as [|Hgt]; [assumption|].
  assert (2 ^ Zdigits2 m <= 2 ^ t) by (apply Z.pow_le_mono_r; lia). lia.
Qed.

Lemma Zdigits2_unique (m d : Z) :
  1 <= d -> 2 ^ (d - 1) <= m < 2 ^ d -> Zdigits2 m = d.
Proof.
  intros Hd [Hlo Hhi].
  assert (0 <= m) by (assert (0 < 2 ^ (d - 1)) by (apply Z.pow_pos_nonneg; lia); lia).
  pose proof (Zdigits2_le m d ltac:(lia) ltac:(lia) Hhi).
  pose proof (Zdigits2_ge m (d - 1) ltac:(lia) Hlo). lia.
Qed.

Lemma Zdigits2_pos_ge_1 (m : positive) : 1 <= Zdigits2 (Z.pos m).
Proof. cbn. lia. Qed.

Lemma sg_mul (a b : bool) : (sg a * sg b == sg (xorb a b))%Q.
Proof. destruct a, b; reflexivity. Qed.

Lemma Qabs_sg (s : bool) (v : Q) : (0 <= v)%Q -> (Qabs (sg s * v) == v)%Q.
Proof.
  intros Hv. rewrite Qabs_Qmult, (Qabs_pos v) by exact Hv.
  destruct s; cbn [sg]; [change (Qabs (- (1))) with 1%Q | change (Qabs 1) with 1%Q]; ring.
Qed.

Lemma eta64_pos : (0 < eta64)%Q.
Proof. apply pow2_pos. Qed.

Lemma u64_pos : (0 < u64)%Q.
Proof. apply pow2_pos. Qed.

Lemma close_exact (r : float) (p : Q) :
  Binary64.is_finite r = true -> (Binary64.to_Q r == p)%Q -> close r p.
Proof.
  intros Hf E. split; [exact Hf|]. rewrite E.
  setoid_replace (p - p)%Q with 0%Q by ring. change (Qabs 0) with 0%Q.
  pose proof (Qabs_nonneg p). pose proof u64_pos. pose proof eta64_pos.
  assert (0 <= u64 * Qabs p)%Q by (apply Qmult_le_0_compat; lra). lra.
Qed.

Lemma close_proper (r : float) (p q : Q) : (p == q)%Q -> close r p -> close r q.
Proof. intros E [Hf H]. split; [exact Hf|]. now rewrite <- E. Qed.

Lemma round_aux_close (s : bool) (mx ex : Z) (lx : location) (x : Q) :
  0 <= mx -> located mx lx x ->
  ex <= fexp64 (Zdigits2 mx + ex) ->
  (x * pow2 ex < pow2 1023)%Q ->
  close (binary_round_aux Binary64.prec Binary64.emax s mx ex lx)
        (sg s * (x * pow2 ex)).
Proof.
  intros Hm Hx Hpre Hb.
  destruct (round_aux_error s mx ex lx x Hm Hx Hpre Hb) as [Hf H].
  split; [exact Hf|]. rewrite Qabs_sg; [exact H|].
  apply Qmult_le_0_compat; [|apply Qlt_le_weak, pow2_pos].
  eapply Qle_trans; [|apply (located_lower _ _ _ Hx)].
  change 0%Q with (inject_Z 0). now apply inject_Z_le.
Qed.

Lemma mul_close (x : float) (s : bool) (mk : positive) (ek : Z) :
  Binary64.is_finite x = true -> Z.pos (digits2_pos mk) = 53 ->
  (Qabs (Binary64.to_Q x * Binary64.to_Q (S754_finite s mk ek)) < pow2 1023)%Q ->
  close (Binary64.mul x (S754_finite s mk ek))
        (Binary64.to_Q x * Binary64.to_Q (S754_finite s mk ek)).
Proof.
  intros Hx Hk Hb. unfold float in x.
  destruct x as [sx|sx| |sx mx ex]; try discriminate Hx.
  - apply close_exact; [reflexivity|].
    change (Binary64.mul (S754_zero sx) (S754_finite s mk ek))
      with (S754_zero (xorb sx s) : float).
    rewrite !to_Q_zero. ring.
  - assert (E : (Binary64.to_Q (S754_finite sx mx ex)
                 * Binary64.to_Q (S754_finite s mk ek)
                 == sg (xorb sx s)
                    * (inject_Z (Z.pos (mx * mk)) * pow2 (ex + ek)))%Q).
    { rewrite !to_Q_finite, <- sg_mul, Pos2Z.inj_mul, inject_Z_mult, pow2_add.
      ring. }
    assert (Hv : (0 <= inject_Z (Z.pos (mx * mk)) * pow2 (ex + ek))%Q).
    { apply Qmult_le_0_compat; [|apply Qlt_le_weak, pow2_pos].
      change 0%Q with (inject_Z 0). apply inject_Z_le. lia. }
    rewrite E in Hb. rewrite Qabs_sg in Hb by exact Hv.
    apply (close_proper _ _ _ (Qeq_sym _ _ E)).
    change (Binary64.mul (S754_finite sx mx ex) (S754_finite s mk ek))
      with (binary_round_aux Binary64.prec Binary64.emax (xorb sx s)
              (Z.pos (mx * mk)) (ex + ek) loc_Exact).
    apply round_aux_close; [lia | reflexivity | | exact Hb].
    rewrite fexp64_eq.
    assert (Hd : Zdigits2 (Z.pos mx) - 1 + 52 + 1 <= Zdigits2 (Z.pos (mx * mk))).
    { pose proof (Zdigits2_pos_ge_1 mx).
      apply Zdigits2_ge; [lia|].
      destruct (Zdigits2_bounds (Z.pos mx) ltac:(lia)) as [Hlo _].
      destruct (digits2_pos_bounds mk) as [Hlk _]. rewrite Hk in Hlk.
      rewrite Z.pow_add_r by lia. rewrite Pos2Z.inj_mul.
      apply Z.mul_le_mono_nonneg; try lia. }
    pose proof (Zdigits2_pos_ge_1 mx). lia.
Qed.

Lemma iter_xO (m d : positive) :
  Z.pos (Pos.iter xO m d) = Z.pos m * 2 ^ Z.pos d.
Proof.
  induction d as [|d IH] using Pos.peano_ind.
  - cbn. lia.
  - rewrite Pos.iter_succ, Pos2Z.inj_xO, IH, Pos2Z.inj_succ, Z.pow_succ_r by lia.
    lia.
Qed.

Lemma shl_align_spec (m : positive) (e e' : Z) :
  (e' < e
   /\ shl_align m e e' = (Z.to_pos (Z.pos m * 2 ^ (e - e')), e')
   /\ 0 < Z.pos m * 2 ^ (e - e'))
  \/ (e <= e' /\ shl_align m e e' = (m, e)).
Proof.
  unfold shl_align. destruct (e' - e) as [|d|d] eqn:E.
  - right. split; [lia | reflexivity].
  - right. split; [lia | reflexivity].
  - left. split; [lia|].
    assert (Hd : e - e' = Z.pos d) by lia. rewrite Hd.
    rewrite <- iter_xO. split; [reflexivity | lia].
Qed.

Lemma shl_align_value (m : positive) (e e' : Z) :
  (inject_Z (Z.pos (fst (shl_align m e e'))) * pow2 (snd (shl_align m e e'))
   == inject_Z (Z.pos m) * pow2 e)%Q.
Proof.
  destruct (shl_align_spec m e e') as [(Hlt & -> & Hp)|(Hle & ->)];
    cbn [fst snd]; [|reflexivity].
  rewrite Z2Pos.id by exact Hp.
  rewrite inject_Z_mult, pow2_inject by lia.
  rewrite <- Qmult_assoc, <- pow2_add.
  now replace (e - e' + e') with e by lia.
Qed.

Lemma binary_round_close (s : bool) (m : positive) (e : Z) :
  (inject_Z (Z.pos m) * pow2 e < pow2 1023)%Q ->
  close (binary_round Binary64.prec Binary64.emax s m e)
        (sg s * (inject_Z (Z.pos m) * pow2 e)).
Proof.
  intros Hb. unfold binary_round.
  change (fexp Binary64.prec Binary64.emax) with fexp64.
  change (Z.pos (digits2_pos m)) with (Zdigits2 (Z.pos m)).
  set (f := fexp64 (Zdigits2 (Z.pos m) + e)).
  pose proof (shl_align_value m e f) as Hv.
  destruct (shl_align_spec m e f) as [(Hlt & E & Hp)|(Hle & E)];
    rewrite E in *; cbn [fst snd] in Hv.
  - eapply close_proper; [rewrite <- Hv; reflexivity|].
    apply round_aux_close; [lia | reflexivity | | now rewrite Hv].
    rewrite Z2Pos.id by exact Hp.
    assert (Hd : Zdigits2 (Z.pos m * 2 ^ (e - f)) = Zdigits2 (Z.pos m) + (e - f)).
    { pose proof (Zdigits2_pos_ge_1 m).
      destruct (Zdigits2_bounds (Z.pos m) ltac:(lia)) as [Hlo Hhi].
      apply Zdigits2_unique; [lia|].
      replace (Zdigits2 (Z.pos m) + (e - f) - 1)
        with (Zdigits2 (Z.pos m) - 1 + (e - f)) by lia.
      rewrite !Z.pow_add_r by lia.
      assert (0 < 2 ^ (e - f)) by (apply Z.pow_pos_nonneg; lia).
      split; [apply Z.mul_le_mono_nonneg_r | apply Z.mul_lt_mono_pos_r]; lia. }
    rewrite Hd. replace (Zdigits2 (Z.pos m) + (e - f) + f)
      with (Zdigits2 (Z.pos m) + e) by lia. fold f. lia.
  - apply round_aux_close; [lia | reflexivity | exact Hle | exact Hb].
Qed.

Lemma normalize_close (z e : Z) :
  (Qabs (inject_Z z * pow2 e) < pow2 1023)%Q ->
  close (binary_normalize Binary64.prec Binary64.emax z e false)
        (inject_Z z * pow2 e).
Proof.
  intros Hb. destruct z as [|m|m]; cbn [binary_normalize].
  - apply close_exact; [reflexivity|]. rewrite to_Q_zero.
    change (inject_Z 0) with 0%Q. ring.
  - assert (Hv : (0 <= inject_Z (Z.pos m) * pow2 e)%Q).
    { apply Qmult_le_0_compat; [|apply Qlt_le_weak, pow2_pos].
      change 0%Q with (inject_Z 0). apply inject_Z_le. lia. }
    rewrite Qabs_pos in Hb by exact Hv.
    eapply close_proper; [|apply (binary_round_close false m e Hb)].
    cbn [sg]. ring.
  - assert (Hv : (0 <= inject_Z (Z.pos m) * pow2 e)%Q).
    { apply Qmult_le_0_compat; [|apply Qlt_le_weak, pow2_pos].
      change 0%Q with (inject_Z 0). apply inject_Z_le. lia. }
    assert (En : (inject_Z (Z.neg m) * pow2 e
                  == sg true * (inject_Z (Z.pos m) * pow2 e))%Q).
    { change (Z.neg m) with (- Z.pos m). rewrite inject_Z_opp. cbn [sg]. ring. }
    rewrite En, Qabs_sg in Hb by exact Hv.
    eapply close_proper; [|apply (binary_round_close true m e Hb)].
    now rewrite En.
Qed.

Lemma cond_Zopp_inject (s : bool) (z : Z) :
  (inject_Z (cond_Zopp s z) == sg s * inject_Z z)%Q.
Proof. destruct s; cbn [cond_Zopp sg]; [rewrite inject_Z_opp|]; ring. Qed.

Lemma aligned_value (s : bool) (m : positive) (e ez : Z) :
  ez <= e ->
  (inject_Z (cond_Zopp s (Z.pos (fst (shl_align m e ez)))) * pow2 ez
   == Binary64.to_Q (S754_finite s m e))%Q.
Proof.
  intros Hle. rewrite cond_Zopp_inject, to_Q_finite.
  pose proof (shl_align_value m e ez) as Hv.
  assert (Es : snd (shl_align m e ez) = ez).
  { destruct (shl_align_spec m e ez) as [(_ & -> & _)|(H & ->)]; cbn; lia. }
  rewrite Es in Hv. rewrite <- Hv. ring.
Qed.

Lemma add_close (x y : float) :
  Binary64.is_finite x = true -> Binary64.is_finite y = true ->
  (Qabs (Binary64.to_Q x + Binary64.to_Q y) < pow2 1023)%Q ->
  close (Binary64.add x y) (Binary64.to_Q x + Binary64.to_Q y).
Proof.
  intros Hx Hy Hb. unfold float in x, y.
  destruct x as [sx|sx| |sx mx ex]; try discriminate Hx;
    destruct y as [sy|sy| |sy my ey]; try discriminate Hy.
  - apply close_exact; [now destruct sx, sy|].
    destruct sx, sy; cbn; reflexivity.
  - apply close_exact; [reflexivity|].
    change (Binary64.add (S754_zero sx) (S754_finite sy my ey))
      with (S754_finite sy my ey : float).
    rewrite to_Q_zero. ring.
  - apply close_exact; [reflexivity|].
    change (Binary64.add (S754_finite sx mx ex) (S754_zero sy))
      with (S754_finite sx mx ex : float).
    rewrite to_Q_zero. ring.
  - unfold Binary64.add. cbn [SFadd].
    set (ez := Z.min ex ey).
    set (z := cond_Zopp sx (Z.pos (fst (shl_align mx ex ez)))
              + cond_Zopp sy (Z.pos (fst (shl_align my ey ez)))).
    assert (E : (inject_Z z * pow2 ez
                 == Binary64.to_Q (S754_finite sx mx ex)
                    + Binary64.to_Q (S754_finite sy my ey))%Q).
    { unfold z. rewrite inject_Z_plus, Qmult_plus_distr_l.
      rewrite !aligned_value by (unfold ez; lia). reflexivity. }
    eapply close_proper; [exact E|].
    apply normalize_close. now rewrite E.
Qed.

Lemma sub_close (x y : float) :
  Binary64.is_finite x = true -> Binary64.is_finite y = true ->
  (Qabs (Binary64.to_Q x - Binary64.to_Q y) < pow2 1023)%Q ->
  close (Binary64.sub x y) (Binary64.to_Q x - Binary64.to_Q y).
Proof.
  intros Hx Hy Hb. unfold float in x, y.
  destruct x as [sx|sx| |sx mx ex]; try discriminate Hx;
    destruct y as [sy|sy| |sy my ey]; try discriminate Hy.
  - apply close_exact; [now destruct sx, sy|].
    destruct sx, sy; cbn; reflexivity.
  - apply close_exact; [reflexivity|].
    change (Binary64.sub (S754_zero sx) (S754_finite sy my ey))
      with (S754_finite (negb sy) my ey : float).
    rewrite to_Q_zero, !to_Q_finite. destruct sy; cbn [negb sg]; ring.
  - apply close_exact; [reflexivity|].
    change (Binary64.sub (S754_finite sx mx ex) (S754_zero sy))
      with (S754_finite sx mx ex : float).
    rewrite to_Q_zero. ring.
  - unfold Binary64.sub. cbn [SFsub].
    set (ez := Z.min ex ey).
    set (z := cond_Zopp sx (Z.pos (fst (shl_align mx ex ez)))
              - cond_Zopp sy (Z.pos (fst (shl_align my ey ez)))).
    assert (E : (inject_Z z * pow2 ez
                 == Binary64.to_Q (S754_finite sx mx ex)
                    - Binary64.to_Q (S754_finite sy my ey))%Q).
    { unfold z. unfold Z.sub. rewrite inject_Z_plus, inject_Z_opp.
      setoid_replace
        ((inject_Z (cond_Zopp sx (Z.pos (fst (shl_align mx ex ez))))
          + - inject_Z (cond_Zopp sy (Z.pos (fst (shl_align my ey ez)))))
         * pow2 ez)%Q
        with (inject_Z (cond_Zopp sx (Z.pos (fst (shl_align mx ex ez)))) * pow2 ez
              - inject_Z (cond_Zopp sy (Z.pos (fst (shl_align my ey ez)))) * pow2 ez)%Q
        by ring.
      rewrite !aligned_value by (unfold ez; lia). reflexivity. }
    eapply close_proper; [exact E|].
    apply normalize_close. now rewrite E.
Qed.

(** [new_location d r] places the quotient [q + r / d]. *)
Lemma new_location_located (d r q : Z) :
  0 < d -> 0 <= r < d ->
  located q (new_location d r) (inject_Z (q * d + r) * / inject_Z d)%Q.
Proof.
  intros Hd Hr.
  assert (Hdq : (0 < inject_Z d)%Q).
  { change 0%Q with (inject_Z 0). now rewrite <- Zlt_Qlt. }
  assert (Ex : (inject_Z (q * d + r) * / inject_Z d
                == inject_Z q + inject_Z r * / inject_Z d)%Q).
  { rewrite inject_Z_plus, inject_Z_mult. field. lra. }
  set (rho := (inject_Z r * / inject_Z d)%Q) in *.
  assert (Hrho : forall a b : Z,
            (a * r < b * d -> (inject_Z a * rho < inject_Z b)%Q)
            /\ (a * r = b * d -> (inject_Z a * rho == inject_Z b)%Q)
            /\ (b * d < a * r -> (inject_Z b < inject_Z a * rho)%Q)).
  { intros a b.
    assert (Erho : (inject_Z a * rho == inject_Z (a * r) / inject_Z d)%Q).
    { unfold rho. rewrite inject_Z_mult. field. lra. }
    repeat split; intros H; rewrite Erho.
    - apply Qlt_shift_div_r; [exact Hdq|].
      rewrite <- inject_Z_mult, <- Zlt_Qlt. exact H.
    - rewrite H, inject_Z_mult. field. lra.
    - apply Qlt_shift_div_l; [exact Hdq|].
      rewrite <- inject_Z_mult, <- Zlt_Qlt. exact H. }
  assert (Hloc : forall l, 
            match l with
            | loc_Exact => r = 0
            | loc_Inexact Lt => 0 < r /\ 2 * r < d
            | loc_Inexact Eq => 2 * r = d
            | loc_Inexact Gt => d < 2 * r
            end -> located q l (inject_Z q + rho)%Q).
  { intros l Hl. destruct l as [|[| |]]; cbn [located].
    - destruct (Hrho 1 0) as (_ & E & _). change (inject_Z 1) with 1%Q in E.
      change (inject_Z 0) with 0%Q in E. rewrite Qmult_1_l in E.
      rewrite E by lia. ring.
    - destruct (Hrho 2 1) as (_ & E & _). change (inject_Z 2) with 2%Q in E.
      change (inject_Z 1) with 1%Q in E. specialize (E ltac:(lia)). lra.
    - destruct (Hrho 1 0) as (_ & _ & H0). destruct (Hrho 2 1) as (H1 & _ & _).
      change (inject_Z 2) with 2%Q in *. change (inject_Z 1) with 1%Q in *.
      change (inject_Z 0) with 0%Q in *.
      specialize (H0 ltac:(lia)). specialize (H1 ltac:(lia)). lra.
    - destruct (Hrho 2 1) as (_ & _ & H0). destruct (Hrho 1 1) as (H1 & _ & _).
      change (inject_Z 2) with 2%Q in *. change (inject_Z 1) with 1%Q in *.
      specialize (H0 ltac:(lia)). specialize (H1 ltac:(lia)). lra. }
  eapply located_proper; [symmetry; exact Ex|]. apply Hloc.
  unfold new_location, new_location_even, new_location_odd.
  destruct (Z.even d) eqn:Hev.
  - destruct (Z.eqb_spec r 0) as [->|Hne]; [reflexivity|].
    destruct (Z.compare_spec (2 * r) d); lia.
  - destruct (Z.eqb_spec r 0) as [->|Hne]; [reflexivity|].
    assert (Hodd : Z.odd d = true) by (rewrite <- Z.negb_even, Hev; reflexivity).
    apply Z.odd_spec in Hodd as (k & Hk).
    destruct (Z.compare_spec (2 * r + 1) d); lia.
Qed.

Lemma sg_inv (s : bool) : (/ sg s == sg s)%Q.
Proof. destruct s; reflexivity. Qed.

Lemma pow2_sub (a b : Z) : (pow2 (a - b) == pow2 a * / pow2 b)%Q.
Proof.
  unfold pow2. rewrite Qpower_minus by discriminate. reflexivity.
Qed.

Lemma div_close (x : float) (sy : bool) (my : positive) (ey : Z) :
  Binary64.is_finite x = true ->
  (Qabs (Binary64.to_Q x * / Binary64.to_Q (S754_finite sy my ey))
   < pow2 1023)%Q ->
  close (Binary64.div x (S754_finite sy my ey))
        (Binary64.to_Q x * / Binary64.to_Q (S754_finite sy my ey)).
Proof.
  intros Hx Hb. unfold float in x.
  destruct x as [sx|sx| |sx mx ex]; try discriminate Hx.
  - apply close_exact; [reflexivity|].
    change (Binary64.div (S754_zero sx) (S754_finite sy my ey))
      with (S754_zero (xorb sx sy) : float).
    rewrite !to_Q_zero. ring.
  - unfold Binary64.div. cbn [SFdiv]. unfold SFdiv_core_binary.
    change (fexp Binary64.prec Binary64.emax) with fexp64.
    set (d1 := Zdigits2 (Z.pos mx)). set (d2 := Zdigits2 (Z.pos my)).
    set (e' := Z.min (fexp64 (d1 + ex - (d2 + ey))) (ex - ey)).
    set (s := ex - ey - e').
    assert (Hs : 0 <= s) by (unfold s, e'; lia).
    set (m' := match s with
               | 0 => Z.pos mx
               | Z.pos _ => Z.shiftl (Z.pos mx) s
               | Z.neg _ => 0
               end).
    assert (Em' : m' = Z.pos mx * 2 ^ s).
    { unfold m'. destruct s as [|p|p] eqn:Es; [lia | | lia].
      now rewrite Z.shiftl_mul_pow2 by lia. }
    assert (Hp2 : 0 < 2 ^ s) by (apply Z.pow_pos_nonneg; lia).
    pose proof (Z_div_mod m' (Z.pos my) ltac:(lia)) as Hdm.
    destruct (Z.div_eucl m' (Z.pos my)) as [q r]. destruct Hdm as [Eq Hr].
    assert (Hq : 0 <= q) by nia.
    set (xq := (inject_Z m' * / inject_Z (Z.pos my))%Q).
    assert (Hloc : located q (new_location (Z.pos my) r) xq).
    { unfold xq. rewrite Eq. replace (Z.pos my * q + r) with (q * Z.pos my + r) by lia.
      apply new_location_located; lia. }
    assert (Hmy : (0 < inject_Z (Z.pos my))%Q).
    { change 0%Q with (inject_Z 0). rewrite <- Zlt_Qlt. lia. }
    pose proof (pow2_pos ex) as Hpex. pose proof (pow2_pos ey) as Hpey.
    assert (Ev : (xq * pow2 e'
                  == inject_Z (Z.pos mx) * pow2 ex
                     * / (inject_Z (Z.pos my) * pow2 ey))%Q).
    { unfold xq. rewrite Em', inject_Z_mult, pow2_inject by lia.
      setoid_replace (inject_Z (Z.pos mx) * pow2 s * / inject_Z (Z.pos my) * pow2 e')%Q
        with (inject_Z (Z.pos mx) * / inject_Z (Z.pos my) * (pow2 s * pow2 e'))%Q
        by ring.
      rewrite <- pow2_add. replace (s + e') with (ex - ey) by (unfold s; lia).
      rewrite pow2_sub. field. lra. }
    assert (E : (Binary64.to_Q (S754_finite sx mx ex)
                 * / Binary64.to_Q (S754_finite sy my ey)
                 == sg (xorb sx sy) * (xq * pow2 e'))%Q).
    { rewrite Ev, !to_Q_finite, <- sg_mul.
      setoid_replace (/ (sg sy * (inject_Z (Z.pos my) * pow2 ey)))%Q
        with (sg sy * / (inject_Z (Z.pos my) * pow2 ey))%Q.
      - ring.
      - rewrite Qinv_mult_distr, sg_inv. reflexivity. }
    assert (Hv : (0 <= xq * pow2 e')%Q).
    { apply Qmult_le_0_compat; [|apply Qlt_le_weak, pow2_pos].
      eapply Qle_trans; [|apply (located_lower _ _ _ Hloc)].
      change 0%Q with (inject_Z 0). now apply inject_Z_le. }
    rewrite E, Qabs_sg in Hb by exact Hv.
    eapply close_proper; [symmetry; exact E|].
    apply round_aux_close; [exact Hq | exact Hloc | | exact Hb].
    (* the quotient has digits enough *)
    pose proof (Zdigits2_nonneg q) as Hdq.
    pose proof (Zdigits2_pos_ge_1 mx) as Hd1. fold d1 in Hd1.
    pose proof (Zdigits2_pos_ge_1 my) as Hd2. fold d2 in Hd2.
    destruct (Z.le_gt_cases 0 (d1 - 1 + s - d2)) as [Ht|Ht].
    + assert (Hqt : d1 - 1 + s - d2 + 1 <= Zdigits2 q).
      { apply Zdigits2_ge; [exact Ht|].
        destruct (Zdigits2_bounds (Z.pos mx) ltac:(lia)) as [Hlo _]. fold d1 in Hlo.
        destruct (Zdigits2_bounds (Z.pos my) ltac:(lia)) as [_ Hhi]. fold d2 in Hhi.
        assert (Hq' : q = m' / Z.pos my).
        { apply (Z.div_unique _ _ q r); [lia | exact Eq]. }
        rewrite Hq'. apply Z.div_le_lower_bound; [lia|].
        assert (Hpt : 0 < 2 ^ (d1 - 1 + s - d2)) by (apply Z.pow_pos_nonneg; lia).
        assert (E2 : 2 ^ d2 * 2 ^ (d1 - 1 + s - d2) = 2 ^ (d1 - 1) * 2 ^ s).
        { rewrite <- !Z.pow_add_r by lia. f_equal. lia. }
        rewrite Em'. nia. }
      subst s. subst e'. rewrite !fexp64_eq in *. lia.
    + subst s. subst e'. rewrite !fexp64_eq in *. lia.
Qed.

Lemma u64_value : (u64 == 1 # 9007199254740992)%Q.
Proof. reflexivity. Qed.

Lemma eta64_small : (eta64 <= 1 # 1152921504606846976)%Q.
Proof.
  change (1 # 1152921504606846976)%Q with (pow2 (-60)).
  apply pow2_le. lia.
Qed.

Lemma pow2_1023 : (pow2 1023 == 16 * pow2 1019)%Q.
Proof. change 16%Q with (pow2 4). rewrite <- pow2_add. reflexivity. Qed.

Lemma close_bound (r : float) (p P : Q) :
  close r p -> (Qabs p <= P)%Q ->
  (- ((1 # 9007199254740992) * P + eta64) <= Binary64.to_Q r - p
   <= (1 # 9007199254740992) * P + eta64)%Q.
Proof.
  intros [_ H] HP. rewrite u64_value in H.
  apply Qabs_Qle_condition.
  eapply Qle_trans; [exact H|].
  assert ((1 # 9007199254740992) * Qabs p <= (1 # 9007199254740992) * P)%Q
    by (apply Qmult_le_l; [reflexivity | exact HP]).
  lra.
Qed.

Lemma to_Q_nine : (Binary64.to_Q nine == 9)%Q.
Proof. reflexivity. Qed.
Lemma to_Q_five : (Binary64.to_Q five == 5)%Q.
Proof. reflexivity. Qed.
Lemma to_Q_thirty_two : (Binary64.to_Q thirty_two == 32)%Q.
Proof. reflexivity. Qed.

Lemma Qabs_le_intro (x y : Q) : (- y <= x <= y)%Q -> (Qabs x <= y)%Q.
Proof. apply Qabs_Qle_condition. Qed.

Lemma Qabs_lt_intro (x y : Q) : (- y < x < y)%Q -> (Qabs x < y)%Q.
Proof. apply Qabs_Qlt_condition. Qed.

(** ** The formulas *)

Lemma literals_exact :
  (of_int 9 = nine /\ Binary64.to_Q nine == 9)%Q /\
  (of_int 5 = five /\ Binary64.to_Q five == 5)%Q /\
  (of_int 32 = thirty_two /\ Binary64.to_Q thirty_two == 32)%Q.
Proof. repeat split; reflexivity. Qed.

Lemma truediv_float (x y : float) :
  Binary64.is_zero y = false -> py_truediv x y = Ok (Binary64.div x y).
Proof. intros Hy. cbn. now rewrite Hy. Qed.

Lemma celsius_to_fahrenheit_float (c : float) :
  celsius_to_fahrenheit c = Ok (fahrenheit_of c).
Proof.
  unfold celsius_to_fahrenheit.
  rewrite truediv_float by reflexivity. reflexivity.
Qed.

Lemma fahrenheit_to_celsius_float (f : float) :
  fahrenheit_to_celsius f = Ok (celsius_of f).
Proof.
  unfold fahrenheit_to_celsius.
  rewrite truediv_float by reflexivity. reflexivity.
Qed.

(** In exact arithmetic the two formulas are inverse to each other. *)
Lemma celsius_to_fahrenheit_exact (c : Q) :
  celsius_to_fahrenheit c = Ok (c * 9 / 5 + 32)%Q.
Proof. reflexivity. Qed.

Lemma fahrenheit_to_celsius_exact (f : Q) :
  fahrenheit_to_celsius f = Ok ((f - 32) * 5 / 9)%Q.
Proof. reflexivity. Qed.

Lemma exact_round_trip (c : Q) :
  exists f r : Q,
    celsius_to_fahrenheit c = Ok f /\ fahrenheit_to_celsius f = Ok r
    /\ (r == c)%Q.
Proof.
  exists (c * 9 / 5 + 32)%Q, ((c * 9 / 5 + 32 - 32) * 5 / 9)%Q.
  repeat split. field.
Qed.

(** The conversion to Fahrenheit is accurate. *)
Lemma fahrenheit_of_accuracy (c : float) :
  Binary64.is_finite c = true ->
  (Qabs (Binary64.to_Q c) <= pow2 1019)%Q ->
  Binary64.is_finite (fahrenheit_of c) = true
  /\ (Qabs (Binary64.to_Q (fahrenheit_of c)
            - (Binary64.to_Q c * 9 / 5 + 32))
      <= pow2 (-50) * Qabs (Binary64.to_Q c) + pow2 (-47))%Q.
Proof.
  intros Hc HX.
  change (pow2 (-50)) with (1 # 1125899906842624)%Q.
  change (pow2 (-47)) with (1 # 140737488355328)%Q.
  unfold fahrenheit_of.
  set (a := Binary64.mul c nine).
  set (b := Binary64.div a five).
  set (f := Binary64.add b thirty_two).
  pose proof eta64_pos as Heta0. pose proof eta64_small as Heta.
  pose proof pow2_1023 as H1023.
  assert (HP1 : (1024 <= pow2 1019)%Q).
  { change 1024%Q with (pow2 10). apply pow2_le. lia. }
  pose proof (Qabs_nonneg (Binary64.to_Q c)) as HX0.
  assert (HC : (- Qabs (Binary64.to_Q c) <= Binary64.to_Q c
                <= Qabs (Binary64.to_Q c))%Q).
  { apply Qabs_Qle_condition. apply Qle_refl. }
  set (X := Qabs (Binary64.to_Q c)) in *.
  set (C := Binary64.to_Q c) in *.
  assert (Ca : close a (C * 9)).
  { apply (close_proper _ (C * Binary64.to_Q nine)); [now rewrite to_Q_nine|].
    apply mul_close; [exact Hc | reflexivity |].
    rewrite to_Q_nine. apply Qabs_lt_intro. fold C. lra. }
  pose proof (close_bound a _ (9 * X) Ca ltac:(apply Qabs_le_intro; lra)) as Ha.
  set (A := Binary64.to_Q a) in *.
  assert (Cb : close b (A * (1 # 5))).
  { apply (close_proper _ (A * / Binary64.to_Q five)); [now rewrite to_Q_five|].
    apply div_close; [apply Ca|].
    rewrite to_Q_five. change (/ 5)%Q with (1 # 5)%Q. apply Qabs_lt_intro.
    fold A. lra. }
  pose proof (close_bound b _ (2 * X + 1) Cb ltac:(apply Qabs_le_intro; lra)) as Hb.
  set (B := Binary64.to_Q b) in *.
  assert (Cf : close f (B + 32)).
  { apply (close_proper _ (B + Binary64.to_Q thirty_two));
      [now rewrite to_Q_thirty_two|].
    apply add_close; [apply Cb | reflexivity |].
    rewrite to_Q_thirty_two. apply Qabs_lt_intro. fold B. lra. }
  pose proof (close_bound f _ (2 * X + 34) Cf ltac:(apply Qabs_le_intro; lra)) as Hf.
  split; [apply Cf|].
  unfold Qdiv. change (/ 5)%Q with (1 # 5)%Q.
  apply Qabs_le_intro. lra.
Qed.

(** The conversion to Celsius is accurate. *)
Lemma celsius_of_accuracy (f : float) :
  Binary64.is_finite f = true ->
  (Qabs (Binary64.to_Q f) <= pow2 1019)%Q ->
  Binary64.is_finite (celsius_of f) = true
  /\ (Qabs (Binary64.to_Q (celsius_of f)
            - ((Binary64.to_Q f - 32) * 5 / 9))
      <= pow2 (-51) * Qabs (Binary64.to_Q f) + pow2 (-47))%Q.
Proof.
  intros Hf HX.
  change (pow2 (-51)) with (1 # 2251799813685248)%Q.
  change (pow2 (-47)) with (1 # 140737488355328)%Q.
  unfold celsius_of.
  set (g := Binary64.sub f thirty_two).
  set (h := Binary64.mul g five).
  set (r := Binary64.div h nine).
  pose proof eta64_pos as Heta0. pose proof eta64_small as Heta.
  pose proof pow2_1023 as H1023.
  assert (HP1 : (1024 <= pow2 1019)%Q).
  { change 1024%Q with (pow2 10). apply pow2_le. lia. }
  pose proof (Qabs_nonneg (Binary64.to_Q f)) as HX0.
  assert (HC : (- Qabs (Binary64.to_Q f) <= Binary64.to_Q f
                <= Qabs (Binary64.to_Q f))%Q).
  { apply Qabs_Qle_condition. apply Qle_refl. }
  set (X := Qabs (Binary64.to_Q f)) in *.
  set (F := Binary64.to_Q f) in *.
  assert (Cg : close g (F - 32)).
  { apply (close_proper _ (F - Binary64.to_Q thirty_two));
      [now rewrite to_Q_thirty_two|].
    apply sub_close; [exact Hf | reflexivity |].
    rewrite to_Q_thirty_two. apply Qabs_lt_intro. fold F. lra. }
  pose proof (close_bound g _ (X + 32) Cg ltac:(apply Qabs_le_intro; lra)) as Hg.
  set (G := Binary64.to_Q g) in *.
  assert (Ch : close h (G * 5)).
  { apply (close_proper _ (G * Binary64.to_Q five)); [now rewrite to_Q_five|].
    apply mul_close; [apply Cg | reflexivity |].
    rewrite to_Q_five. apply Qabs_lt_intro. fold G. lra. }
  pose proof (close_bound h _ (6 * X + 161) Ch ltac:(apply Qabs_le_intro; lra)) as Hh.
  set (H := Binary64.to_Q h) in *.
  assert (Cr : close r (H * (1 # 9))).
  { apply (close_proper _ (H * / Binary64.to_Q nine)); [now rewrite to_Q_nine|].
    apply div_close; [apply Ch|].
    rewrite to_Q_nine. change (/ 9)%Q with (1 # 9)%Q. apply Qabs_lt_intro.
    fold H. lra. }
  pose proof (close_bound r _ (X + 18) Cr ltac:(apply Qabs_le_intro; lra)) as Hr.
  split; [apply Cr|].
  unfold Qdiv. change (/ 9)%Q with (1 # 9)%Q.
  apply Qabs_le_intro. lra.
Qed.

(** The round trip is accurate. *)
Lemma round_trip_close (c : float) :
  Binary64.is_finite c = true ->
  (Qabs (Binary64.to_Q c) <= pow2 1019)%Q ->
  Binary64.is_finite (celsius_of (fahrenheit_of c)) = true
  /\ (Qabs (Binary64.to_Q (celsius_of (fahrenheit_of c)) - Binary64.to_Q c)
      <= pow2 (-50) * Qabs (Binary64.to_Q c) + pow2 (-48))%Q.
Proof.
  intros Hc HX.
  change (pow2 (-50)) with (1 # 1125899906842624)%Q.
  change (pow2 (-48)) with (1 # 281474976710656)%Q.
  unfold celsius_of, fahrenheit_of.
  set (a := Binary64.mul c nine).
  set (b := Binary64.div a five).
  set (f := Binary64.add b thirty_two).
  set (g := Binary64.sub f thirty_two).
  set (h := Binary64.mul g five).
  set (r := Binary64.div h nine).
  pose proof eta64_pos as Heta0. pose proof eta64_small as Heta.
  pose proof pow2_1023 as H1023.
  assert (HP1 : (1024 <= pow2 1019)%Q).
  { change 1024%Q with (pow2 10). apply pow2_le. lia. }
  pose proof (Qabs_nonneg (Binary64.to_Q c)) as HX0.
  assert (HC : (- Qabs (Binary64.to_Q c) <= Binary64.to_Q c
                <= Qabs (Binary64.to_Q c))%Q).
  { apply Qabs_Qle_condition. apply Qle_refl. }
  set (X := Qabs (Binary64.to_Q c)) in *.
  set (C := Binary64.to_Q c) in *.
  (* a = c * 9 *)
  assert (Ca : close a (C * 9)).
  { apply (close_proper _ (C * Binary64.to_Q nine)); [now rewrite to_Q_nine|].
    apply mul_close; [exact Hc | reflexivity |].
    rewrite to_Q_nine. apply Qabs_lt_intro. fold C. lra. }
  pose proof (close_bound a _ (9 * X) Ca ltac:(apply Qabs_le_intro; lra)) as Ha.
  set (A := Binary64.to_Q a) in *.
  (* b = a / 5 *)
  assert (Cb : close b (A * (1 # 5))).
  { apply (close_proper _ (A * / Binary64.to_Q five)); [now rewrite to_Q_five|].
    apply div_close; [apply Ca|].
    rewrite to_Q_five. change (/ 5)%Q with (1 # 5)%Q. apply Qabs_lt_intro.
    fold A. lra. }
  pose proof (close_bound b _ (2 * X + 1) Cb ltac:(apply Qabs_le_intro; lra)) as Hb.
  set (B := Binary64.to_Q b) in *.
  (* f = b + 32 *)
  assert (Cf : close f (B + 32)).
  { apply (close_proper _ (B + Binary64.to_Q thirty_two));
      [now rewrite to_Q_thirty_two|].
    apply add_close; [apply Cb | reflexivity |].
    rewrite to_Q_thirty_two. apply Qabs_lt_intro. fold B. lra. }
  pose proof (close_bound f _ (2 * X + 34) Cf ltac:(apply Qabs_le_intro; lra)) as Hf.
  set (F := Binary64.to_Q f) in *.
  (* g = f - 32 *)
  assert (Cg : close g (F - 32)).
  { apply (close_proper _ (F - Binary64.to_Q thirty_two));
      [now rewrite to_Q_thirty_two|].
    apply sub_close; [apply Cf | reflexivity |].
    rewrite to_Q_thirty_two. apply Qabs_lt_intro. fold F. lra. }
  pose proof (close_bound g _ (2 * X + 2) Cg ltac:(apply Qabs_le_intro; lra)) as Hg.
  set (G := Binary64.to_Q g) in *.
  (* h = g * 5 *)
  assert (Ch : close h (G * 5)).
  { apply (close_proper _ (G * Binary64.to_Q five)); [now rewrite to_Q_five|].
    apply mul_close; [apply Cg | reflexivity |].
    rewrite to_Q_five. apply Qabs_lt_intro. fold G. lra. }
  pose proof (close_bound h _ (10 * X + 10) Ch ltac:(apply Qabs_le_intro; lra)) as Hh.
  set (H := Binary64.to_Q h) in *.
  (* r = h / 9 *)
  assert (Cr : close r (H * (1 # 9))).
  { apply (close_proper _ (H * / Binary64.to_Q nine)); [now rewrite to_Q_nine|].
    apply div_close; [apply Ch|].
    rewrite to_Q_nine. change (/ 9)%Q with (1 # 9)%Q. apply Qabs_lt_intro.
    fold H. lra. }
  pose proof (close_bound r _ (2 * X + 2) Cr ltac:(apply Qabs_le_intro; lra)) as Hr.
  split; [apply Cr|].
  apply Qabs_le_intro. lra.
Qed.

(** C1: for every float [c], finite or not, [celsius_to_fahrenheit c]
    raises nothing and returns [c * 9 / 5 + 32] as binary64 arithmetic
    evaluates it from left to right, the literals being the floats of
    value 9, 5 and 32; the value is returned as computed, without any
    rounding to decimals. For a finite [c] of magnitude [2 ^ 1019] at
    most, it is finite and is the real number [c * 9 / 5 + 32] up to the
    rounding of the three operations. *)
Theorem celsius_to_fahrenheit_formula :
  (forall c : float,
     celsius_to_fahrenheit c =
     Ok (Binary64.add (Binary64.div (Binary64.mul c nine) five) thirty_two))
  /\ (Binary64.to_Q nine == 9 /\ Binary64.to_Q five == 5
      /\ Binary64.to_Q thirty_two == 32)%Q
  /\ (forall c : float,
        Binary64.is_finite c = true ->
        (Qabs (Binary64.to_Q c) <= pow2 1019)%Q ->
        exists f : float,
          celsius_to_fahrenheit c = Ok f /\ Binary64.is_finite f = true
          /\ (Qabs (Binary64.to_Q f - (Binary64.to_Q c * 9 / 5 + 32))
              <= pow2 (-50) * Qabs (Binary64.to_Q c) + pow2 (-47))%Q).
Proof.
  split; [|split].
  - intros c. apply celsius_to_fahrenheit_float.
  - repeat split; reflexivity.
  - intros c Hc Hb. exists (fahrenheit_of c).
    split; [apply celsius_to_fahrenheit_float|].
    now apply fahrenheit_of_accuracy.
Qed.

Lemma celsius_to_fahrenheit_formula_witness :
  exists f : float,
    celsius_to_fahrenheit (S754_finite false 7036874417766400 (-48)) = Ok f
    /\ Binary64.is_finite f = true
    /\ (Qabs (Binary64.to_Q f
              - (Binary64.to_Q (S754_finite false 7036874417766400 (-48))
                 * 9 / 5 + 32))
        <= pow2 (-50)
           * Qabs (Binary64.to_Q (S754_finite false 7036874417766400 (-48)))
           + pow2 (-47))%Q.
Proof.
  apply (proj2 (proj2 celsius_to_fahrenheit_formula)
           (S754_finite false 7036874417766400 (-48))).
  - reflexivity.
  - apply Qle_bool_iff. vm_compute. reflexivity.
Defined.

(** C2: for every float [f], finite or not, [fahrenheit_to_celsius f]
    raises nothing and returns [(f - 32) * 5 / 9] as binary64 arithmetic
    evaluates it, without any rounding to decimals. For a finite [f] of
    magnitude [2 ^ 1019] at most, it is finite and is the real number
    [(f - 32) * 5 / 9] up to the rounding of the three operations. *)
Theorem fahrenheit_to_celsius_formula :
  (forall f : float,
     fahrenheit_to_celsius f =
     Ok (Binary64.div (Binary64.mul (Binary64.sub f thirty_two) five) nine))
  /\ (Binary64.to_Q nine == 9 /\ Binary64.to_Q five == 5
      /\ Binary64.to_Q thirty_two == 32)%Q
  /\ (forall f : float,
        Binary64.is_finite f = true ->
        (Qabs (Binary64.to_Q f) <= pow2 1019)%Q ->
        exists c : float,
          fahrenheit_to_celsius f = Ok c /\ Binary64.is_finite c = true
          /\ (Qabs (Binary64.to_Q c - (Binary64.to_Q f - 32) * 5 / 9)
              <= pow2 (-51) * Qabs (Binary64.to_Q f) + pow2 (-47))%Q).
Proof.
  split; [|split].
  - intros f. apply fahrenheit_to_celsius_float.
  - repeat split; reflexivity.
  - intros f Hf Hb. exists (celsius_of f).
    split; [apply fahrenheit_to_celsius_float|].
    now apply celsius_of_accuracy.
Qed.

Lemma fahrenheit_to_celsius_formula_witness :
  exists c : float,
    fahrenheit_to_celsius (S754_finite false 6938358175917670 (-46)) = Ok c
    /\ Binary64.is_finite c = true
    /\ (Qabs (Binary64.to_Q c
              - (Binary64.to_Q (S754_finite false 6938358175917670 (-46)) - 32)
                * 5 / 9)
        <= pow2 (-51)
           * Qabs (Binary64.to_Q (S754_finite false 6938358175917670 (-46)))
           + pow2 (-47))%Q.
Proof.
  apply (proj2 (proj2 fahrenheit_to_celsius_formula)
           (S754_finite false 6938358175917670 (-46))).
  - reflexivity.
  - apply Qle_bool_iff. vm_compute. reflexivity.
Defined.

(** ** Formatting *)

Lemma list_ascii_app (a b : string) :
  list_ascii_of_string (a ++ b)
  = (list_ascii_of_string a ++ list_ascii_of_string b)%list.
Proof. induction a as [|c a IH]; simpl; [reflexivity | now rewrite IH]. Qed.


Lemma string_app_nil_r (a : string) : a ++ "" = a.
Proof. induction a as [|x a IH]; simpl; [reflexivity | now rewrite IH]. Qed.

Lemma digit_char_is_digit (n : Z) : is_digit (digit_char (n mod 10)) = true.
Proof.
  assert (H : 0 <= n mod 10 < 10) by (apply Z.mod_pos_bound; lia).
  unfold is_digit, digit_char, code.
  rewrite nat_ascii_embedding by lia.
  rewrite Z2Nat.id by lia.
  apply andb_true_iff; split; apply Z.leb_le; lia.
Qed.

Lemma digit_is_not_minus (c : ascii) :
  is_digit c = true -> is_char c "-" = false.
Proof.
  intros H. unfold is_char. destruct (Ascii.eqb_spec c "-"%char) as [->|]; [|reflexivity].
  discriminate H.
Qed.




Lemma span_digits_app (d r : chars) :
  forallb is_digit d = true ->
  match r with c :: _ => is_digit c = false | [] => True end ->
  span_digits (d ++ r)%list = (d, r).
Proof.
  intros Hd Hr. induction d as [|c d IH]; cbn.
  - destruct r as [|c r]; [reflexivity|]. cbn. now rewrite Hr.
  - cbn in Hd. apply andb_true_iff in Hd as [Hc Hd].
    rewrite Hc, (IH Hd). reflexivity.
Qed.



Lemma format_float_ok (x : float) (p : Z) :
  0 <= p <= 5 -> format_float x p = Ok (format_fixed x p).
Proof.
  intros Hp. unfold format_float, max_spec_number, max_precision.
  destruct (Z.ltb_spec p 0); [lia|].
  destruct (Z.ltb_spec 9223372036854775807 p); [lia|].
  destruct (Z.ltb_spec 2147483647 p); [lia|]. reflexivity.
Qed.

Lemma format_output_ok (x y : float) (uf ut : string) (p : Z) :
  0 <= p <= 5 ->
  format_output x y uf ut p = Ok (conversion_line x y uf ut p).
Proof.
  intros Hp. unfold format_output. rewrite !format_float_ok by assumption.
  reflexivity.
Qed.

(** ** The parser *)

Import Argparse.

(** Induction on the classified arguments, as [consume] recurses: on the
    rest, and on the rest without the argument that an option took. *)
Lemma items_ind2 (P : list item -> Prop) :
  P [] ->
  (forall it rest,
     P rest -> (forall s rest', rest = Arg s :: rest' -> P rest') ->
     P (it :: rest)) ->
  forall items, P items.
Proof.
  intros Hnil Hcons items.
  enough (H : P items /\ forall s rest', items = Arg s :: rest' -> P rest')
    by apply H.
  induction items as [|it rest [IH1 IH2]].
  - split; [exact Hnil | discriminate].
  - split.
    + apply Hcons; assumption.
    + intros s rest' [= _ <-]. exact IH1.
Qed.

Lemma seen_store (b a : action) (ns : Namespace) (st : state) :
  seen b (store a ns st) = action_eqb b a || seen b st.
Proof. reflexivity. Qed.

(** What a successful [take_action] did. *)
Lemma take_action_parsed (a : action) (args : list string) (st st' : state) :
  take_action a args st = Parsed st' ->
  exists s, args = [s] /\
    extras st' = extras st /\
    match a with
    | Help => False
    | Celsius =>
        exists v, py_float s = Some v
          /\ seen Fahrenheit st = false
          /\ seen Celsius st' = true
          /\ seen Fahrenheit st' = seen Fahrenheit st
          /\ namespace st'
             = {| celsius := Some v;
                  fahrenheit := fahrenheit (namespace st);
                  precision := precision (namespace st) |}
    | Fahrenheit =>
        exists v, py_float s = Some v
          /\ seen Celsius st = false
          /\ seen Fahrenheit st' = true
          /\ seen Celsius st' = seen Celsius st
          /\ namespace st'
             = {| celsius := celsius (namespace st);
                  fahrenheit := Some v;
                  precision := precision (namespace st) |}
    | Precision =>
        exists n, py_int s = Some n
          /\ in_choices n = true
          /\ seen Celsius st' = seen Celsius st
          /\ seen Fahrenheit st' = seen Fahrenheit st
          /\ namespace st'
             = {| celsius := celsius (namespace st);
                  fahrenheit := fahrenheit (namespace st);
                  precision := n |}
    end.
Proof.
  unfold take_action. intros H.
  destruct a; [discriminate H | | | ];
    destruct args as [|s [|s' args]]; try discriminate H; exists s;
    (split; [reflexivity|]).
  - destruct (py_float s) as [v|]; [|discriminate H].
    cbn [conflicts filter] in H.
    destruct (seen Fahrenheit st) eqn:Hf; [discriminate H|].
    injection H as <-. split; [reflexivity|].
    exists v. repeat split; rewrite ?seen_store; cbn; auto.
  - destruct (py_float s) as [v|]; [|discriminate H].
    cbn [conflicts filter] in H.
    destruct (seen Celsius st) eqn:Hc; [discriminate H|].
    injection H as <-. split; [reflexivity|].
    exists v. repeat split; rewrite ?seen_store; cbn; auto.
  - destruct (py_int s) as [n|]; [|discriminate H].
    destruct (in_choices n) eqn:Hn; [|discriminate H].
    injection H as <-. split; [now destruct (n =? 2)|].
    exists n. repeat split; try assumption; destruct (n =? 2); reflexivity.
Qed.

Lemma take_action_coherent (a : action) (args : list string) (st st' : state) :
  coherent st -> take_action a args st = Parsed st' -> coherent st'.
Proof.
  intros (Hp & Hc & Hf & Hx) H.
  apply take_action_parsed in H as (s & _ & _ & H).
  unfold coherent.
  destruct a; [contradiction | | | ].
  - destruct H as (v & _ & Hnf & Hc' & Hf' & ->). cbn.
    rewrite Hc', Hf', Hnf, <- Hf, Hnf. auto.
  - destruct H as (v & _ & Hnc & Hf' & Hc' & ->). cbn.
    rewrite Hc', Hf', Hnc, <- Hc, Hnc. auto.
  - destruct H as (n & _ & Hn & Hc' & Hf' & ->). cbn.
    rewrite Hc', Hf'. auto.
Qed.

(** The tuples of a cluster start with the option it started with. *)
Lemma match_following_head (a : action) (next : option string)
  (done : list (action * list string)) (c : consumed) :
  match_following a next done = Parsed c ->
  exists args, action_tuples c = (done ++ [(a, args)])%list.
Proof.
  unfold match_following. destruct (nargs a); [|destruct next].
  - intros [= <-]. now exists [].
  - intros [= <-]. now exists [s].
  - discriminate.
Qed.

Lemma match_explicit_head (e : string) : forall a os next done c,
  match_explicit a os e next done = Parsed c ->
  exists args t, action_tuples c = (done ++ (a, args) :: t)%list.
Proof.
  induction e as [|x e IH]; intros a os next done c.
  - cbn. destruct (nargs a); [discriminate|].
    intros [= <-]. now exists [""], [].
  - cbn [match_explicit]. destruct (nargs a).
    + destruct (is_short os); [|discriminate].
      destruct (lookup (String "-" (String x ""))) as [a'|]; [|discriminate].
      destruct e as [|y e].
      * intros H. apply match_following_head in H as (args & ->).
        exists [], [(a', args)]. now rewrite <- app_assoc.
      * intros H. apply IH in H as (args & t & ->).
        exists [], ((a', args) :: t). now rewrite <- app_assoc.
    + intros [= <-]. now exists [String x e], [].
Qed.

(** An option that takes a value: [consume] takes the action with the
    attached value or with the next argument, and goes on. *)
Lemma consume_value_option (arg : string) (a : action) (os : string)
  (ex : option string) (rest : list item) (st : state) :
  a <> Help ->
  consume (Opt arg (Some a) os ex :: rest) st =
  match ex with
  | Some e => and_then (take_action a [e] st) (consume rest)
  | None =>
      match rest with
      | Arg s :: rest' => and_then (take_action a [s] st) (consume rest')
      | _ => UsageError (ExpectedOneArgument a)
      end
  end.
Proof.
  intros Ha. destruct a; [contradiction | | | ];
    (destruct ex as [e|];
     [ destruct e | destruct rest as [|[| |] rest] ];
     cbn -[take_action]; try reflexivity;
     match goal with
     | |- context [take_action ?b ?l st] => destruct (take_action b l st)
     end; reflexivity).
Qed.

(** The help option ends the parse: with the help text, or with an error
    when what is attached to it cannot be read. *)
Lemma consume_help_option (arg os : string) (ex : option string)
  (rest : list item) (st : state) :
  consume (Opt arg (Some Help) os ex :: rest) st = HelpExit
  \/ exists e, consume (Opt arg (Some Help) os ex :: rest) st = UsageError e.
Proof.
  cbn [consume].
  destruct (consume_optional Help os ex (next_argument rest)) as [c| |e] eqn:Hc.
  - assert (Ht : exists args t, action_tuples c = (Help, args) :: t).
    { unfold consume_optional in Hc. destruct ex as [e|].
      - apply match_explicit_head in Hc as (args & t & ->). now exists args, t.
      - apply match_following_head in Hc as (args & ->). now exists args, []. }
    destruct Ht as (args & t & ->). left. reflexivity.
  - left. reflexivity.
  - right. now exists e.
Qed.

Lemma in_choices_range (n : Z) : in_choices n = true <-> 0 <= n <= 5.
Proof. unfold in_choices. rewrite andb_true_iff, Z.leb_le, Z.ltb_lt. lia. Qed.

Lemma and_then_parsed {A B : Type} (o : outcome A) (k : A -> outcome B) (b : B) :
  and_then o k = Parsed b -> exists a, o = Parsed a /\ k a = Parsed b.
Proof. destruct o; cbn; [eauto | discriminate | discriminate]. Qed.

Lemma finish_parsed (st : state) (ns : Namespace) :
  finish st = Parsed ns ->
  ns = namespace st /\ extras st = []
  /\ seen Celsius st || seen Fahrenheit st = true.
Proof.
  unfold finish. destruct (seen Celsius st || seen Fahrenheit st); [|discriminate].
  destruct (extras st); [|discriminate]. intros [= <-]. auto.
Qed.

(** What the namespace of a successful parse tells about the command
    line, from any coherent state on. *)
Lemma consume_parsed : forall items st ns,
  coherent st -> consume items st = Parsed ns ->
  in_choices (precision ns) = true
  /\ is_some (celsius ns) = seen Celsius st || supplied_in Celsius items
  /\ is_some (fahrenheit ns) = seen Fahrenheit st || supplied_in Fahrenheit items
  /\ xorb (is_some (celsius ns)) (is_some (fahrenheit ns)) = true
  /\ forallb valid_precision (precisions_in items) = true
  /\ precision ns
     = final_precision (precision (namespace st)) (precisions_in items).
Proof.
  intros items. induction items as [|it rest IH1 IH2] using items_ind2;
    intros st ns Hst H.
  - apply finish_parsed in H as (-> & _ & Hsome).
    destruct Hst as (Hp & Hc & Hf & Hx). cbn.
    rewrite !orb_false_r, <- Hc, <- Hf.
    repeat split; auto.
    destruct (seen Celsius st), (seen Fahrenheit st); cbn in *; congruence.
  - assert (Hskip : forall arg,
              consume rest (add_extra arg st) = Parsed ns ->
              supplied_in Celsius (it :: rest) = supplied_in Celsius rest ->
              supplied_in Fahrenheit (it :: rest) = supplied_in Fahrenheit rest ->
              precisions_in (it :: rest) = precisions_in rest ->
              in_choices (precision ns) = true
              /\ is_some (celsius ns)
                 = seen Celsius st || supplied_in Celsius (it :: rest)
              /\ is_some (fahrenheit ns)
                 = seen Fahrenheit st || supplied_in Fahrenheit (it :: rest)
              /\ xorb (is_some (celsius ns)) (is_some (fahrenheit ns)) = true
              /\ forallb valid_precision (precisions_in (it :: rest)) = true
              /\ precision ns
                 = final_precision (precision (namespace st))
                                   (precisions_in (it :: rest))).
    { intros arg H' -> -> ->. now apply (IH1 (add_extra arg st)). }
    destruct it as [arg [a|] os ex | arg | ].
    + destruct (action_eqb a Help) eqn:Ha.
      { destruct a; try discriminate Ha.
        destruct (consume_help_option arg os ex rest st) as [E|[e E]];
          rewrite E in H; discriminate H. }
      rewrite consume_value_option in H by (intros ->; discriminate Ha).
      assert (Hstep : forall s rest' st',
                take_action a [s] st = Parsed st' ->
                consume rest' st' = Parsed ns ->
                supplied_in Celsius (Opt arg (Some a) os ex :: rest)
                = action_eqb Celsius a || supplied_in Celsius rest' ->
                supplied_in Fahrenheit (Opt arg (Some a) os ex :: rest)
                = action_eqb Fahrenheit a || supplied_in Fahrenheit rest' ->
                precisions_in (Opt arg (Some a) os ex :: rest)
                = ((if action_eqb a Precision then [s] else [])
                   ++ precisions_in rest')%list ->
                (forall st'' ns',
                   coherent st'' -> consume rest' st'' = Parsed ns' ->
                   in_choices (precision ns') = true
                   /\ is_some (celsius ns')
                      = seen Celsius st'' || supplied_in Celsius rest'
                   /\ is_some (fahrenheit ns')
                      = seen Fahrenheit st'' || supplied_in Fahrenheit rest'
                   /\ xorb (is_some (celsius ns')) (is_some (fahrenheit ns')) = true
                   /\ forallb valid_precision (precisions_in rest') = true
                   /\ precision ns'
                      = final_precision (precision (namespace st''))
                                        (precisions_in rest')) ->
                in_choices (precision ns) = true
                /\ is_some (celsius ns)
                   = seen Celsius st
                     || supplied_in Celsius (Opt arg (Some a) os ex :: rest)
                /\ is_some (fahrenheit ns)
                   = seen Fahrenheit st
                     || supplied_in Fahrenheit (Opt arg (Some a) os ex :: rest)
                /\ xorb (is_some (celsius ns)) (is_some (fahrenheit ns)) = true
                /\ forallb valid_precision
                     (precisions_in (Opt arg (Some a) os ex :: rest)) = true
                /\ precision ns
                   = final_precision (precision (namespace st))
                       (precisions_in (Opt arg (Some a) os ex :: rest))).
      { intros s rest' st' Ht Hc -> -> -> IH.
        pose proof (take_action_coherent _ _ _ _ Hst Ht) as Hst'.
        destruct (IH st' ns Hst' Hc) as (Hp & Hce & Hfa & Hx & Hall & Hfin).
        apply take_action_parsed in Ht as (s0 & [= <-] & _ & Ht).
        rewrite Hce, Hfa in *. split; [exact Hp|].
        destruct a; try discriminate Ha; cbn [action_eqb app].
        - destruct Ht as (v & _ & Hnf & Hc' & Hf' & Hns).
          rewrite Hns in Hfin. cbn in Hfin.
          rewrite Hc', Hf' in *. rewrite orb_true_r. cbn. auto.
        - destruct Ht as (v & _ & Hnc & Hf' & Hc' & Hns).
          rewrite Hns in Hfin. cbn in Hfin.
          rewrite Hc', Hf' in *. rewrite orb_true_r. cbn. auto.
        - destruct Ht as (n & Hint & Hn & Hc' & Hf' & Hns).
          rewrite Hns in Hfin. cbn in Hfin.
          rewrite Hc', Hf' in *. cbn.
          unfold valid_precision at 1. unfold final_precision. cbn.
          rewrite Hint. apply in_choices_range in Hn.
          replace ((0 <=? n) && (n <=? 5)) with true
            by (symmetry; apply andb_true_iff; split; apply Z.leb_le; lia).
          auto. }
      destruct ex as [e|].
      * apply and_then_parsed in H as (st' & Ht & Hc).
        apply (Hstep e rest st' Ht Hc); try reflexivity; [|exact IH1].
        destruct a; try discriminate Ha; reflexivity.
      * destruct rest as [|[| s |] rest']; try discriminate H.
        apply and_then_parsed in H as (st' & Ht & Hc).
        apply (Hstep s rest' st' Ht Hc); try reflexivity.
        -- destruct a; try discriminate Ha; reflexivity.
        -- apply (IH2 s rest' eq_refl).
    + apply (Hskip arg H); reflexivity.
    + apply (Hskip arg H); reflexivity.
    + apply (Hskip "--" H); reflexivity.
Qed.

Lemma take_action_not_help (a : action) (args : list string) (st : state) :
  a <> Help -> take_action a args st <> HelpExit.
Proof.
  intros Ha. unfold take_action.
  destruct a; [contradiction | | | ];
    destruct args as [|s [|s' args]]; try discriminate.
  - destruct (py_float s); [|discriminate].
    destruct (filter _ _); discriminate.
  - destruct (py_float s); [|discriminate].
    destruct (filter _ _); discriminate.
  - destruct (py_int s); [|discriminate].
    destruct (in_choices _); discriminate.
Qed.

(** The help text is printed only when a help option is on the command
    line. *)
Lemma consume_help : forall items st,
  consume items st = HelpExit -> supplied_in Help items = true.
Proof.
  intros items. induction items as [|it rest IH1 IH2] using items_ind2;
    intros st H.
  - cbn in H. unfold finish in H.
    destruct (_ || _); [destruct (extras st)|]; discriminate H.
  - destruct it as [arg [a|] os ex | arg | ]; cbn [supplied_in existsb];
      try (cbn in H; exact (IH1 _ H)).
    destruct (action_eqb Help a) eqn:Ha; [reflexivity|]. cbn.
    assert (Hne : a <> Help) by (intros ->; discriminate Ha).
    rewrite consume_value_option in H by exact Hne.
    assert (Hstep : forall s rest',
              and_then (take_action a [s] st) (consume rest') = HelpExit ->
              exists st', consume rest' st' = HelpExit).
    { intros s rest' E.
      destruct (take_action a [s] st) as [st'| |e] eqn:Ht.
      - now exists st'.
      - now apply take_action_not_help in Ht.
      - discriminate E. }
    destruct ex as [e|].
    + destruct (Hstep _ _ H) as (st' & E). exact (IH1 _ E).
    + destruct rest as [|[| s |] rest']; try discriminate H.
      destruct (Hstep _ _ H) as (st' & E). exact (IH2 s rest' eq_refl _ E).
Qed.

Lemma initial_coherent : coherent initial.
Proof. repeat split. Qed.

(** The namespace of a successful parse. *)
Lemma parse_args_parsed (argv : list string) (ns : Namespace) :
  parse_args argv = Parsed ns ->
  0 <= precision ns <= 5
  /\ is_some (celsius ns) = supplied Celsius argv
  /\ is_some (fahrenheit ns) = supplied Fahrenheit argv
  /\ xorb (is_some (celsius ns)) (is_some (fahrenheit ns)) = true
  /\ forallb valid_precision (supplied_precisions argv) = true
  /\ precision ns = requested_precision (supplied_precisions argv).
Proof.
  unfold parse_args, supplied, supplied_precisions, requested_precision.
  intros H. apply and_then_parsed in H as (items & -> & H).
  apply (consume_parsed _ _ _ initial_coherent) in H
    as (Hp & Hc & Hf & Hx & Hall & Hfin).
  apply in_choices_range in Hp. cbn in Hc, Hf. repeat split; auto; lia.
Qed.

Lemma classify_not_help (argv : list string) : classify argv <> HelpExit.
Proof.
  induction argv as [|arg rest IH]; cbn; [discriminate|].
  destruct (String.eqb arg "--"); [discriminate|].
  destruct (parse_optional arg); try discriminate;
    destruct (classify rest); cbn; congruence.
Qed.

Lemma parse_args_help (argv : list string) :
  parse_args argv = HelpExit -> supplied Help argv = true.
Proof.
  unfold parse_args, supplied.
  pose proof (classify_not_help argv) as Hc.
  destruct (classify argv) as [items| |e]; cbn.
  - apply consume_help.
  - contradiction.
  - discriminate.
Qed.

(** ** The program *)

Lemma parse_arguments_parsed (argv : list string) (ns : Namespace) :
  parse_args argv = Parsed ns -> parse_arguments argv = ret ns.
Proof. unfold parse_arguments. now intros ->. Qed.

(** A parsed request is answered with its line, on standard output. *)
Lemma main_parsed (argv : list string) (ns : Namespace) :
  parse_args argv = Parsed ns -> main argv None = printed (answer ns).
Proof.
  intros H. pose proof (parse_args_parsed _ _ H) as (Hp & _ & _ & Hx & _).
  unfold main, main_body, answer.
  rewrite (parse_arguments_parsed _ _ H).
  cbn -[celsius_to_fahrenheit fahrenheit_to_celsius format_output].
  destruct (celsius ns) as [c|].
  - rewrite celsius_to_fahrenheit_float.
    cbn -[format_output]. rewrite format_output_ok by exact Hp. reflexivity.
  - destruct (fahrenheit ns) as [f|]; [|discriminate Hx].
    rewrite fahrenheit_to_celsius_float.
    cbn -[format_output]. rewrite format_output_ok by exact Hp. reflexivity.
Qed.

Lemma main_help (argv : list string) :
  parse_args argv = HelpExit -> main argv None = helped.
Proof.
  intros H. unfold main, main_body, parse_arguments. rewrite H. reflexivity.
Qed.

Lemma main_usage_error (argv : list string) (e : usage_error) :
  parse_args argv = UsageError e -> main argv None = refused e.
Proof.
  intros H. unfold main, main_body, parse_arguments. rewrite H. reflexivity.
Qed.

(** An interrupt before the first statement, or before a later statement
    of a run whose arguments were accepted, ends in the handler. *)
Lemma main_interrupted_at_start (argv : list string) :
  main argv (Some 0%nat) = cancelled.
Proof. reflexivity. Qed.

Lemma main_interrupted_later (argv : list string) (ns : Namespace) (k : nat) :
  parse_args argv = Parsed ns -> (1 <= k <= 3)%nat ->
  main argv (Some k) = cancelled.
Proof.
  intros H Hk. pose proof (parse_args_parsed _ _ H) as (Hp & _ & _ & Hx & _).
  unfold main, main_body.
  rewrite (parse_arguments_parsed _ _ H).
  destruct k as [|[|[|[|k]]]]; try lia;
    cbn -[celsius_to_fahrenheit fahrenheit_to_celsius format_output];
    try reflexivity;
    (destruct (celsius ns) as [c|];
     [ rewrite celsius_to_fahrenheit_float
     | destruct (fahrenheit ns) as [f|]; [|discriminate Hx];
       rewrite fahrenheit_to_celsius_float ]);
    cbn -[format_output]; try reflexivity;
    rewrite format_output_ok by exact Hp; reflexivity.
Qed.

(** An interrupt that is due after the process has ended is not
    delivered. *)
Lemma main_not_interrupted (argv : list string) (k : nat) :
  (forall ns, parse_args argv <> Parsed ns) -> (1 <= k)%nat ->
  main argv (Some k) = main argv None.
Proof.
  intros H Hk. unfold main, main_body, parse_arguments.
  destruct k as [|k]; [lia|].
  destruct (parse_args argv) as [ns| |e]; [now destruct (H ns) | |];
    reflexivity.
Qed.



(** ** The claims *)

(** C3, as stated, fails: the finite float nearest to 5e307 is sent to
    infinity by [c * 9], and comes back as infinity. *)
Lemma round_trip_overflow :
  let c : float := S754_finite false 5010420900022432 970 in
  py_float "5e307" = Some c
  /\ Binary64.valid c = true /\ Binary64.is_finite c = true
  /\ celsius_to_fahrenheit c = Ok (S754_infinity false)
  /\ fahrenheit_to_celsius (S754_infinity false : float)
     = Ok (S754_infinity false)
  /\ Binary64.is_finite (S754_infinity false) = false.
Proof. vm_compute. repeat split. Qed.




(** C5, as stated, fails: [-h] supplies neither [-c] nor [-f], and the
    process prints the help text and ends with status 0; so does a command
    line with both options after [-h]. *)
Lemma help_is_not_a_usage_error :
  supplied Celsius ["-h"] = false /\ supplied Fahrenheit ["-h"] = false
  /\ main ["-h"] None = helped
  /\ supplied Celsius ["-h"; "-c"; "25"; "-f"; "10"] = true
  /\ supplied Fahrenheit ["-h"; "-c"; "25"; "-f"; "10"] = true
  /\ main ["-h"; "-c"; "25"; "-f"; "10"] None = helped
  /\ exit_status helped = 0.
Proof. vm_compute. repeat split. Qed.

(** C5, amended: for every argument list, the parser returns a namespace
    only if exactly one of [-c/--celsius] and [-f/--fahrenheit] is
    supplied. When both or neither are supplied nothing is converted:
    the process writes a usage error and ends with status 2, unless a
    help option is on the command line and is reached first, in which
    case it prints the help text and ends with status 0. *)
Theorem exactly_one_direction (argv : list string) :
  (forall ns, parse_args argv = Parsed ns ->
     xorb (supplied Celsius argv) (supplied Fahrenheit argv) = true)
  /\ (xorb (supplied Celsius argv) (supplied Fahrenheit argv) = false ->
      (exists e, parse_args argv = UsageError e
                 /\ main argv None = refused e)
      \/ (supplied Help argv = true /\ parse_args argv = HelpExit
          /\ main argv None = helped))
  /\ (forall e, stdout (refused e) = [] /\ exit_status (refused e) = 2)
  /\ stdout helped = [HelpText].
Proof.
  assert (H1 : forall ns, parse_args argv = Parsed ns ->
                 xorb (supplied Celsius argv) (supplied Fahrenheit argv) = true).
  { intros ns H.
    pose proof (parse_args_parsed _ _ H) as (_ & Hc & Hf & Hx & _).
    now rewrite <- Hc, <- Hf. }
  split; [exact H1|]. split; [|split; [intros e; split|]; reflexivity].
  intros Hx. destruct (parse_args argv) as [ns| |e] eqn:H.
  - rewrite (H1 ns eq_refl) in Hx. discriminate Hx.
  - right. repeat split.
    + now apply parse_args_help.
    + now apply main_help.
  - left. exists e. split; [reflexivity | now apply main_usage_error].
Qed.

Lemma exactly_one_direction_witness :
  (forall ns, parse_args ["-c"; "25"; "-f"; "10"] = Parsed ns ->
     xorb (supplied Celsius ["-c"; "25"; "-f"; "10"])
          (supplied Fahrenheit ["-c"; "25"; "-f"; "10"]) = true)
  /\ (xorb (supplied Celsius ["-c"; "25"; "-f"; "10"])
           (supplied Fahrenheit ["-c"; "25"; "-f"; "10"]) = false ->
      (exists e, parse_args ["-c"; "25"; "-f"; "10"] = UsageError e
                 /\ main ["-c"; "25"; "-f"; "10"] None = refused e)
      \/ (supplied Help ["-c"; "25"; "-f"; "10"] = true
          /\ parse_args ["-c"; "25"; "-f"; "10"] = HelpExit
          /\ main ["-c"; "25"; "-f"; "10"] None = helped))
  /\ (forall e, stdout (refused e) = [] /\ exit_status (refused e) = 2)
  /\ stdout helped = [HelpText].
Proof. exact (exactly_one_direction ["-c"; "25"; "-f"; "10"]). Defined.

(** ** The precision *)

Lemma classify_two (a b : string) (x y : action) (os1 os2 : string)
  (e1 e2 : option string) :
  String.eqb a "--" = false -> String.eqb b "--" = false ->
  parse_optional a = Option (Some x) os1 e1 ->
  parse_optional b = Option (Some y) os2 e2 ->
  classify [a; b] = Parsed [Opt a (Some x) os1 e1; Opt b (Some y) os2 e2].
Proof. intros Ha Hb Hx Hy. cbn. now rewrite Ha, Hb, Hx, Hy. Qed.

(** What the parser answers to [--celsius=v --precision=s]. *)
Lemma parse_celsius_precision (v s : string) (x : float) :
  py_float v = Some x ->
  parse_args ["--celsius=" ++ v; "--precision=" ++ s] =
  match py_int s with
  | Some n =>
      if in_choices n
      then Parsed {| celsius := Some x; fahrenheit := None; precision := n |}
      else UsageError (InvalidChoice Precision n)
  | None => UsageError (InvalidValue Precision s)
  end.
Proof.
  intros Hv. unfold parse_args.
  rewrite (classify_two _ _ Celsius Precision "--celsius" "--precision"
             (Some v) (Some s)) by reflexivity.
  cbn [and_then]. rewrite !consume_value_option by discriminate.
  unfold take_action at 1. rewrite Hv. cbn [conflicts filter seen initial
    seen_non_default_actions existsb and_then].
  rewrite consume_value_option by discriminate.
  unfold take_action. destruct (py_int s) as [n|]; [|reflexivity].
  destruct (in_choices n); [|reflexivity].
  destruct (n =? 2); reflexivity.
Qed.



(** ** Errors and interrupts *)



(** C8: an interrupt that arrives while the [try] block of [main] runs
    (before [parse_arguments], or before one of the later statements of a
    run whose arguments were accepted) makes the process print the notice
    "Operation cancelled by user", after a line feed, and end with status
    0; an interrupt that is due after the process has ended changes
    nothing. *)
Theorem interrupt_is_handled (argv : list string) (k : nat) :
  (k = 0%nat \/ (k <= 3)%nat /\ exists ns, parse_args argv = Parsed ns) ->
  main argv (Some k) = cancelled
  /\ stdout cancelled = [Line (newline ++ "Operation cancelled by user")]
  /\ exit_status cancelled = 0
  /\ (forall argv' k',
        main argv' (Some k') = cancelled
        \/ main argv' (Some k') = main argv' None).
Proof.
  intros Hk. split; [|split; [reflexivity|split; [reflexivity|]]].
  - destruct Hk as [->|[Hk (ns & H)]].
    + apply main_interrupted_at_start.
    + destruct k as [|k]; [apply main_interrupted_at_start|].
      apply (main_interrupted_later argv ns); [exact H | lia].
  - intros argv' k'. destruct k' as [|k'];
      [left; apply main_interrupted_at_start|].
    destruct (parse_args argv') as [ns| |e] eqn:H.
    + destruct (Nat.le_gt_cases (S k') 3) as [Hle|Hgt].
      * left. apply (main_interrupted_later argv' ns); [exact H | lia].
      * right. unfold main, main_body.
        do 3 (destruct k' as [|k']; [lia|]). reflexivity.
    + right. apply main_not_interrupted; [|lia]. intros ns. now rewrite H.
    + right. apply main_not_interrupted; [|lia]. intros ns. now rewrite H.
Qed.

Lemma interrupt_is_handled_witness :
  main ["-c"; "25"] (Some 3%nat) = cancelled
  /\ stdout cancelled = [Line (newline ++ "Operation cancelled by user")]
  /\ exit_status cancelled = 0
  /\ (forall argv' k',
        main argv' (Some k') = cancelled
        \/ main argv' (Some k') = main argv' None).
Proof.
  apply (interrupt_is_handled ["-c"; "25"] 3). right. split; [lia|].
  eexists. vm_compute. reflexivity.
Defined.

(** ** Dispatch and the accepted temperatures *)

(** C9: [main] converts from Celsius whenever [args.celsius] is set,
    whatever its value: for every accepted command line whose namespace
    holds a Celsius value [x], zero included, the line printed is the
    conversion of [x] to Fahrenheit. [-c 0] is parsed to the float 0.0
    and answered with [0.00°C = 32.00°F]. *)
Theorem zero_is_a_celsius_request (argv : list string) (ns : Namespace)
  (x : float) :
  parse_args argv = Parsed ns -> celsius ns = Some x ->
  main argv None
  = printed (conversion_line x (fahrenheit_of x) "C" "F" (precision ns))
  /\ parse_args ["-c"; "0"]
     = Parsed {| celsius := Some (S754_zero false); fahrenheit := None;
                 precision := 2 |}
  /\ main ["-c"; "0"] None = printed "0.00°C = 32.00°F"
  /\ main ["-c"; "0.0"] None = printed "0.00°C = 32.00°F"
  /\ main ["-c"; "-0.0"] None = printed "-0.00°C = 32.00°F".
Proof.
  intros H Hc. split; [|vm_compute; repeat split].
  rewrite (main_parsed _ _ H). unfold answer. now rewrite Hc.
Qed.

Lemma zero_is_a_celsius_request_witness :
  main ["-c"; "0"] None
  = printed (conversion_line (S754_zero false)
               (fahrenheit_of (S754_zero false)) "C" "F" 2)
  /\ parse_args ["-c"; "0"]
     = Parsed {| celsius := Some (S754_zero false); fahrenheit := None;
                 precision := 2 |}
  /\ main ["-c"; "0"] None = printed "0.00°C = 32.00°F"
  /\ main ["-c"; "0.0"] None = printed "0.00°C = 32.00°F"
  /\ main ["-c"; "-0.0"] None = printed "-0.00°C = 32.00°F".
Proof.
  apply (zero_is_a_celsius_request ["-c"; "0"]
           {| celsius := Some (S754_zero false); fahrenheit := None;
              precision := 2 |} (S754_zero false));
    vm_compute; reflexivity.
Defined.

Lemma not_dashes (s : string) :
  first_is_dash s = false -> String.eqb s "--" = false.
Proof.
  destruct s as [|c s]; [reflexivity|]. cbn. unfold is_char.
  destruct (Ascii.eqb_spec c "-"%char) as [->|Hc]; [discriminate|].
  intros _. destruct (Ascii.eqb_spec c "-"%char); [contradiction|reflexivity].
Qed.

Lemma parse_attached (a : action) (long : string) (s : string) (x : float) :
  a = Celsius /\ long = "--celsius=" \/ a = Fahrenheit /\ long = "--fahrenheit=" ->
  py_float s = Some x ->
  parse_args [long ++ s] =
  Parsed (match a with
          | Celsius =>
              {| celsius := Some x; fahrenheit := None; precision := 2 |}
          | _ => {| celsius := None; fahrenheit := Some x; precision := 2 |}
          end).
Proof.
  intros [[-> ->]|[-> ->]] Hs; unfold parse_args; cbn -[consume];
    rewrite consume_value_option by discriminate;
    unfold take_action; rewrite Hs; reflexivity.
Qed.

Lemma classify_option (o : string) (rest : list string) (a : option action)
  (os : string) (e : option string) :
  String.eqb o "--" = false -> parse_optional o = Option a os e ->
  classify (o :: rest)
  = and_then (classify rest) (fun items => Parsed (Opt o a os e :: items)).
Proof. intros Ho Hp. cbn [classify]. now rewrite Ho, Hp. Qed.

Lemma parse_separate (a : action) (short : string) (s : string) (x : float) :
  a = Celsius /\ short = "-c" \/ a = Fahrenheit /\ short = "-f" ->
  first_is_dash s = false -> py_float s = Some x ->
  parse_args [short; s] =
  Parsed (match a with
          | Celsius =>
              {| celsius := Some x; fahrenheit := None; precision := 2 |}
          | _ => {| celsius := None; fahrenheit := Some x; precision := 2 |}
          end).
Proof.
  intros Ha Hd Hs.
  assert (Hcl : classify [s] = Parsed [Arg s]).
  { cbn. rewrite (not_dashes _ Hd). unfold parse_optional. now rewrite Hd. }
  destruct Ha as [[-> ->]|[-> ->]]; unfold parse_args.
  - rewrite (classify_option "-c" [s] (Some Celsius) "-c" None)
      by reflexivity.
    rewrite Hcl. cbn [and_then].
    rewrite consume_value_option by discriminate.
    unfold take_action. rewrite Hs. reflexivity.
  - rewrite (classify_option "-f" [s] (Some Fahrenheit) "-f" None)
      by reflexivity.
    rewrite Hcl. cbn [and_then].
    rewrite consume_value_option by discriminate.
    unfold take_action. rewrite Hs. reflexivity.
Qed.

(** C10, as stated, fails: [float] accepts ["-inf"], but [-c -inf] is a
    usage error, because [argparse] reads an argument that starts with
    [-] and is not a plain negative number as an option; so is
    [-c -5e3]. *)
Lemma minus_inf_is_read_as_an_option :
  py_float "-inf" = Some (S754_infinity true)
  /\ main ["-c"; "-inf"] None = refused (ExpectedOneArgument Celsius)
  /\ is_some (py_float "-5e3") = true
  /\ main ["-c"; "-5e3"] None = refused (ExpectedOneArgument Celsius).
Proof. vm_compute. repeat split. Qed.

(** C10, amended: the parser does not restrict temperatures to finite
    values. Every string [s] that [float] accepts is accepted as the
    temperature, without a usage error, and its value is converted and
    printed, when it is attached to the option ([--celsius=s],
    [--fahrenheit=s]) and when it is the argument after [-c] or [-f] and
    does not start with [-]. So [inf] and [nan] are accepted after [-c],
    and [-inf] is accepted as [--celsius=-inf]. *)
Theorem float_strings_are_temperatures (s : string) (x : float) :
  py_float s = Some x ->
  main ["--celsius=" ++ s] None
  = printed (conversion_line x (fahrenheit_of x) "C" "F" 2)
  /\ main ["--fahrenheit=" ++ s] None
     = printed (conversion_line x (celsius_of x) "F" "C" 2)
  /\ (first_is_dash s = false ->
      main ["-c"; s] None
      = printed (conversion_line x (fahrenheit_of x) "C" "F" 2)
      /\ main ["-f"; s] None
         = printed (conversion_line x (celsius_of x) "F" "C" 2))
  /\ main ["-c"; "inf"] None = printed "inf°C = inf°F"
  /\ main ["-c"; "nan"] None = printed "nan°C = nan°F"
  /\ main ["--celsius=-inf"] None = printed "-inf°C = -inf°F".
Proof.
  intros Hs. split; [|split; [|split; [|vm_compute; repeat split]]].
  - now rewrite (main_parsed _ _ (parse_attached Celsius _ s x (or_introl (conj eq_refl eq_refl)) Hs)).
  - now rewrite (main_parsed _ _ (parse_attached Fahrenheit _ s x (or_intror (conj eq_refl eq_refl)) Hs)).
  - intros Hd. split.
    + now rewrite (main_parsed _ _ (parse_separate Celsius _ s x (or_introl (conj eq_refl eq_refl)) Hd Hs)).
    + now rewrite (main_parsed _ _ (parse_separate Fahrenheit _ s x (or_intror (conj eq_refl eq_refl)) Hd Hs)).
Qed.

Lemma float_strings_are_temperatures_witness :
  main ["--celsius=" ++ "inf"] None
  = printed (conversion_line (S754_infinity false)
               (fahrenheit_of (S754_infinity false)) "C" "F" 2)
  /\ main ["--fahrenheit=" ++ "inf"] None
     = printed (conversion_line (S754_infinity false)
                  (celsius_of (S754_infinity false)) "F" "C" 2)
  /\ (first_is_dash "inf" = false ->
      main ["-c"; "inf"] None
      = printed (conversion_line (S754_infinity false)
                   (fahrenheit_of (S754_infinity false)) "C" "F" 2)
      /\ main ["-f"; "inf"] None
         = printed (conversion_line (S754_infinity false)
                      (celsius_of (S754_infinity false)) "F" "C" 2))
  /\ main ["-c"; "inf"] None = printed "inf°C = inf°F"
  /\ main ["-c"; "nan"] None = printed "nan°C = nan°F"
  /\ main ["--celsius=-inf"] None = printed "-inf°C = -inf°F".
Proof.
  apply (float_strings_are_temperatures "inf" (S754_infinity false)).
  vm_compute. reflexivity.
Defined.

(** ** The round trip *)

(** C3, amended: for every finite float [c] of magnitude [2 ^ 1019] at
    most, [fahrenheit_to_celsius (celsius_to_fahrenheit c)] raises
    nothing, is finite and differs from [c] by [2 ^ -50 * |c| + 2 ^ -48]
    at most; and in exact arithmetic the round trip is the identity, for
    every rational [c]. *)
Theorem round_trip_law :
  (forall c : float,
     Binary64.is_finite c = true ->
     (Qabs (Binary64.to_Q c) <= pow2 1019)%Q ->
     exists f r : float,
       celsius_to_fahrenheit c = Ok f /\ fahrenheit_to_celsius f = Ok r
       /\ Binary64.is_finite r = true
       /\ (Qabs (Binary64.to_Q r - Binary64.to_Q c)
           <= pow2 (-50) * Qabs (Binary64.to_Q c) + pow2 (-48))%Q)
  /\ (forall c : Q,
        exists f r : Q,
          celsius_to_fahrenheit c = Ok f /\ fahrenheit_to_celsius f = Ok r
          /\ (r == c)%Q).
Proof.
  split.
  - intros c Hc Hb. exists (fahrenheit_of c), (celsius_of (fahrenheit_of c)).
    split; [apply celsius_to_fahrenheit_float|].
    split; [apply fahrenheit_to_celsius_float|].
    now apply round_trip_close.
  - apply exact_round_trip.
Qed.

Lemma round_trip_law_witness :
  exists f r : float,
    celsius_to_fahrenheit (S754_finite false 7036874417766400 (-48)) = Ok f
    /\ fahrenheit_to_celsius f = Ok r
    /\ Binary64.is_finite r = true
    /\ (Qabs (Binary64.to_Q r
              - Binary64.to_Q (S754_finite false 7036874417766400 (-48)))
        <= pow2 (-50)
           * Qabs (Binary64.to_Q (S754_finite false 7036874417766400 (-48)))
           + pow2 (-48))%Q.
Proof.
  apply (proj1 round_trip_law (S754_finite false 7036874417766400 (-48))).
  - reflexivity.
  - apply Qle_bool_iff. vm_compute. reflexivity.
Defined.

(** * Further properties

    Properties of the program beside the claims: of the parser that
    [parse_arguments] configures, of the two formulas, and of the line
    that [format_output] writes. *)

(** ** Left-over arguments *)

Lemma take_action_extras (a : action) (args : list string) (st st' : state) :
  take_action a args st = Parsed st' -> extras st' = extras st.
Proof.
  intros H. apply take_action_parsed in H as (s & _ & He & _). exact He.
Qed.

(** An argument that was left over stays left over: the parse fails. *)
Lemma consume_left_over : forall items st ns,
  extras st <> [] -> consume items st <> Parsed ns.
Proof.
  intros items. induction items as [|it rest IH1 IH2] using items_ind2;
    intros st ns Hex H.
  - apply finish_parsed in H as (_ & He & _). contradiction.
  - assert (Hadd : forall arg, extras (add_extra arg st) <> []).
    { intros arg. cbn. now destruct (extras st). }
    destruct it as [arg [a|] os ex | arg | ];
      try (cbn in H; exact (IH1 _ _ (Hadd _) H)).
    destruct (action_eqb a Help) eqn:Ha.
    { destruct a; try discriminate Ha.
      destruct (consume_help_option arg os ex rest st) as [E|[e E]];
        rewrite E in H; discriminate H. }
    rewrite consume_value_option in H by (intros ->; discriminate Ha).
    destruct ex as [e|].
    + apply and_then_parsed in H as (st' & Ht & Hc).
      apply (IH1 st' ns); [|exact Hc].
      now rewrite (take_action_extras _ _ _ _ Ht).
    + destruct rest as [|[| s |] rest']; try discriminate H.
      apply and_then_parsed in H as (st' & Ht & Hc).
      apply (IH2 s rest' eq_refl st' ns); [|exact Hc].
      now rewrite (take_action_extras _ _ _ _ Ht).
Qed.


(** Items that no run gets past stay so behind any other items. *)
Lemma consume_stuck (tail : list item) :
  (forall st ns, consume tail st <> Parsed ns) ->
  (forall s tail', tail = Arg s :: tail' ->
     forall st ns, consume tail' st <> Parsed ns) ->
  forall pre st ns, consume (pre ++ tail) st <> Parsed ns.
Proof.
  intros Htail Hnext pre.
  induction pre as [|it rest IH1 IH2] using items_ind2; intros st ns H.
  - exact (Htail _ _ H).
  - rewrite <- app_comm_cons in H.
    destruct it as [arg [a|] os ex | arg | ];
      try (cbn in H; exact (IH1 _ _ H)).
    destruct (action_eqb a Help) eqn:Ha.
    { destruct a; try discriminate Ha.
      destruct (consume_help_option arg os ex (rest ++ tail) st) as [E|[e E]];
        rewrite E in H; discriminate H. }
    rewrite consume_value_option in H by (intros ->; discriminate Ha).
    destruct ex as [e|].
    + apply and_then_parsed in H as (st' & _ & Hc). exact (IH1 _ _ Hc).
    + destruct rest as [|it' rest'].
      * cbn [app] in H. destruct tail as [|[| s |] tail']; try discriminate H.
        apply and_then_parsed in H as (st' & _ & Hc).
        exact (Hnext s tail' eq_refl _ _ Hc).
      * rewrite <- app_comm_cons in H.
        destruct it' as [| s |]; try discriminate H.
        apply and_then_parsed in H as (st' & _ & Hc).
        exact (IH2 s rest' eq_refl _ _ Hc).
Qed.

Lemma add_extra_left_over (arg : string) (st : state) :
  extras (add_extra arg st) <> [].
Proof. cbn. now destruct (extras st). Qed.

(** A word that no option takes, an option that the parser does not know
    and [--] are left over. *)
Lemma consume_word (s : string) (rest : list item) (st : state) (ns : Namespace) :
  consume (Arg s :: rest) st <> Parsed ns.
Proof. cbn. apply consume_left_over, add_extra_left_over. Qed.

Lemma consume_unknown (arg os : string) (ex : option string)
  (rest : list item) (st : state) (ns : Namespace) :
  consume (Opt arg None os ex :: rest) st <> Parsed ns.
Proof. cbn. apply consume_left_over, add_extra_left_over. Qed.

Lemma consume_dashes (rest : list item) (st : state) (ns : Namespace) :
  consume (Dashes :: rest) st <> Parsed ns.
Proof. cbn. apply consume_left_over, add_extra_left_over. Qed.

Lemma consume_has_dashes (items : list item) (st : state) (ns : Namespace) :
  In Dashes items -> consume items st <> Parsed ns.
Proof.
  intros Hin. apply in_split in Hin as (pre & post & ->).
  apply consume_stuck.
  - intros st' ns'. apply consume_dashes.
  - discriminate.
Qed.

(** *** Classification of a command line in two parts *)

Lemma classify_cons (arg : string) (rest : list string) :
  String.eqb arg "--" = false ->
  classify (arg :: rest) =
  match parse_optional arg with
  | Ambiguous => UsageError (AmbiguousOption arg)
  | Positional =>
      and_then (classify rest) (fun items => Parsed (Arg arg :: items))
  | Option a os ex =>
      and_then (classify rest) (fun items => Parsed (Opt arg a os ex :: items))
  end.
Proof. intros H. cbn [classify]. now rewrite H. Qed.

Lemma classify_word (s : string) (rest : list string) :
  first_is_dash s = false ->
  classify (s :: rest)
  = and_then (classify rest) (fun items => Parsed (Arg s :: items)).
Proof.
  intros Hd. rewrite classify_cons by now apply not_dashes.
  unfold parse_optional. now rewrite Hd.
Qed.

Lemma classify_dashes (a : list string) : forall items,
  classify a = Parsed items -> In "--" a -> In Dashes items.
Proof.
  induction a as [|arg rest IH]; intros items H Hin; [contradiction|].
  cbn [classify] in H. destruct (String.eqb_spec arg "--") as [->|Hne].
  - injection H as <-. now left.
  - destruct Hin as [->|Hin]; [contradiction|].
    destruct (parse_optional arg); try discriminate H;
      apply and_then_parsed in H as (items' & Hc & [= <-]);
      right; now apply IH.
Qed.

Lemma classify_app (a b : list string) :
  ~ In "--" a ->
  classify (a ++ b)
  = and_then (classify a) (fun ia =>
      and_then (classify b) (fun ib => Parsed (ia ++ ib)%list)).
Proof.
  induction a as [|arg rest IH]; intros Hin.
  - cbn. now destruct (classify b).
  - assert (Hne : String.eqb arg "--" = false).
    { destruct (String.eqb_spec arg "--") as [->|]; [|reflexivity].
      exfalso. apply Hin. now left. }
    rewrite <- app_comm_cons, !classify_cons by exact Hne.
    rewrite IH by (intros Hr; apply Hin; now right).
    destruct (parse_optional arg); try reflexivity;
      (destruct (classify rest) as [ia| |e]; cbn; [|reflexivity|reflexivity];
       destruct (classify b); reflexivity).
Qed.

(** An accepted command line has no [--]. *)
Lemma parsed_no_dashes (argv : list string) (ns : Namespace) :
  parse_args argv = Parsed ns -> ~ In "--" argv.
Proof.
  unfold parse_args. intros H Hin.
  apply and_then_parsed in H as (items & Hc & H).
  exact (consume_has_dashes _ _ _ (classify_dashes _ _ Hc Hin) H).
Qed.

(** A run that is coherent at its start is coherent at its end. *)
Lemma consume_app_coherent : forall items st ns,
  coherent st -> consume items st = Parsed ns ->
  exists st',
    coherent st' /\ namespace st' = ns /\ extras st' = []
    /\ seen Celsius st' || seen Fahrenheit st' = true
    /\ forall tail, consume (items ++ tail) st = consume tail st'.
Proof.
  intros items. induction items as [|it rest IH1 IH2] using items_ind2;
    intros st ns Hst H.
  - exists st. apply finish_parsed in H as (-> & He & Hs). auto.
  - destruct it as [arg [a|] os ex | arg | ];
      try (exfalso; revert H; first [apply consume_word | apply consume_unknown
                                    | apply consume_dashes]).
    destruct (action_eqb a Help) eqn:Ha.
    { destruct a; try discriminate Ha.
      destruct (consume_help_option arg os ex rest st) as [E|[e E]];
        rewrite E in H; discriminate H. }
    assert (Hne : a <> Help) by (intros ->; discriminate Ha).
    rewrite consume_value_option in H by exact Hne.
    destruct ex as [e|].
    + apply and_then_parsed in H as (st1 & Ht & Hc).
      destruct (IH1 _ _ (take_action_coherent _ _ _ _ Hst Ht) Hc)
        as (st' & Hco & Hn & He & Hs & Happ).
      exists st'. repeat split; try assumption; try apply Hco. intros tail.
      rewrite <- app_comm_cons, consume_value_option by exact Hne.
      rewrite Ht. cbn [and_then]. apply Happ.
    + destruct rest as [|[| s |] rest']; try discriminate H.
      apply and_then_parsed in H as (st1 & Ht & Hc).
      destruct (IH2 s rest' eq_refl _ _ (take_action_coherent _ _ _ _ Hst Ht) Hc)
        as (st' & Hco & Hn & He & Hs & Happ).
      exists st'. repeat split; try assumption; try apply Hco. intros tail.
      rewrite <- !app_comm_cons, consume_value_option by exact Hne.
      rewrite Ht. cbn [and_then]. apply Happ.
Qed.

(** The parse of an accepted command line with more arguments behind it:
    the state [st'] that the accepted part ends in, and then the rest. *)
Lemma parse_args_app (argv : list string) (ns : Namespace) :
  parse_args argv = Parsed ns ->
  exists st',
    coherent st' /\ namespace st' = ns /\ extras st' = []
    /\ seen Celsius st' || seen Fahrenheit st' = true
    /\ forall more,
         parse_args (argv ++ more)
         = and_then (classify more) (fun items => consume items st').
Proof.
  intros H. pose proof (parsed_no_dashes _ _ H) as Hnd.
  unfold parse_args in H. apply and_then_parsed in H as (items & Hc & H).
  destruct (consume_app_coherent _ _ _ initial_coherent H)
    as (st' & Hco & Hn & He & Hs & Happ).
  exists st'. repeat split; try assumption; try apply Hco. intros more.
  unfold parse_args. rewrite classify_app by exact Hnd. rewrite Hc.
  cbn [and_then]. destruct (classify more) as [im| |e]; cbn; [apply Happ| |];
    reflexivity.
Qed.

Lemma main_not_parsed (argv : list string) :
  (forall ns, parse_args argv <> Parsed ns) -> no_conversion (main argv None).
Proof.
  intros H. destruct (parse_args argv) as [ns| |e] eqn:E.
  - now destruct (H ns).
  - left. now apply main_help.
  - right. exists e. now apply main_usage_error.
Qed.

Lemma parse_args_stuck (pre rest : list string) :
  (forall irest, classify rest = Parsed irest ->
     (forall st ns, consume irest st <> Parsed ns)
     /\ (forall s tail', irest = Arg s :: tail' ->
           forall st ns, consume tail' st <> Parsed ns)) ->
  forall ns, parse_args (pre ++ rest) <> Parsed ns.
Proof.
  intros Hrest ns H.
  destruct (in_dec string_dec "--" pre) as [Hin|Hnin].
  - apply (parsed_no_dashes _ _ H). apply in_or_app. now left.
  - unfold parse_args in H. rewrite classify_app in H by exact Hnin.
    apply and_then_parsed in H as (items & Hc & H).
    apply and_then_parsed in Hc as (ipre & _ & Hc).
    apply and_then_parsed in Hc as (irest & Hr & [= <-]).
    destruct (Hrest _ Hr) as [H1 H2].
    exact (consume_stuck irest H1 H2 ipre _ _ H).
Qed.

Lemma consume_attached (arg os e : string) (a : action) (rest : list item)
  (st : state) (ns : Namespace) :
  (forall st' ns', consume rest st' <> Parsed ns') ->
  consume (Opt arg (Some a) os (Some e) :: rest) st <> Parsed ns.
Proof.
  intros Hrest H. destruct (action_eqb a Help) eqn:Ha.
  { destruct a; try discriminate Ha.
    destruct (consume_help_option arg os (Some e) rest st) as [E|[e' E]];
      rewrite E in H; discriminate H. }
  rewrite consume_value_option in H by (intros ->; discriminate Ha).
  apply and_then_parsed in H as (st' & _ & Hc). exact (Hrest _ _ Hc).
Qed.

(** X8: the program takes no positional argument. A command line whose
    first argument does not start with [-], or in which such an argument
    follows an argument that does not take it as its value, is not
    accepted: nothing is converted, the process prints a usage message,
    or the help text when a help option is reached first. *)
Theorem no_positional_arguments (pre post : list string) (prev s : string) :
  first_is_dash s = false -> expects_value prev = false ->
  (forall ns, parse_args (s :: post) <> Parsed ns)
  /\ no_conversion (main (s :: post) None)
  /\ (forall ns, parse_args (pre ++ prev :: s :: post) <> Parsed ns)
  /\ no_conversion (main (pre ++ prev :: s :: post) None).
Proof.
  intros Hs Hprev.
  assert (H1 : forall ns, parse_args (s :: post) <> Parsed ns).
  { intros ns H. unfold parse_args in H. rewrite classify_word in H by exact Hs.
    apply and_then_parsed in H as (items & Hc & H).
    apply and_then_parsed in Hc as (ipost & _ & [= <-]).
    exact (consume_word _ _ _ _ H). }
  split; [exact H1|]. split; [now apply main_not_parsed|].
  assert (H2 : forall ns, parse_args (pre ++ prev :: s :: post) <> Parsed ns).
  { apply parse_args_stuck. intros irest Hc.
    destruct (String.eqb_spec prev "--") as [->|Hne].
    - cbn in Hc. injection Hc as <-. split.
      + intros st ns. apply consume_dashes.
      + discriminate.
    - apply String.eqb_neq in Hne. rewrite classify_cons in Hc by exact Hne.
      rewrite classify_word in Hc by exact Hs.
      unfold expects_value in Hprev.
      destruct (parse_optional prev) as [|a os ex|]; try discriminate Hc;
        apply and_then_parsed in Hc as (items & Hc & [= <-]);
        apply and_then_parsed in Hc as (ipost & _ & [= <-]).
      + split.
        * intros st ns. apply consume_word.
        * intros s0 tail' [= _ <-] st ns. apply consume_word.
      + split; [|discriminate]. intros st ns.
        destruct a as [a|]; [|apply consume_unknown].
        destruct ex as [e|].
        * apply consume_attached. intros st' ns'. apply consume_word.
        * destruct a; try discriminate Hprev.
          intros H.
          destruct (consume_help_option prev os None (Arg s :: ipost) st)
            as [E|[e' E]]; rewrite E in H; discriminate H. }
  split; [exact H2 | now apply main_not_parsed].
Qed.

Lemma no_positional_arguments_witness :
  (forall ns, parse_args ["25"; "-c"; "3"] <> Parsed ns)
  /\ no_conversion (main ["25"; "-c"; "3"] None)
  /\ (forall ns, parse_args (["-p"; "1"] ++ ["--celsius=25"; "25"; "-c"; "3"])
                 <> Parsed ns)
  /\ no_conversion
       (main (["-p"; "1"] ++ ["--celsius=25"; "25"; "-c"; "3"]) None).
Proof.
  apply (no_positional_arguments ["-p"; "1"] ["-c"; "3"] "--celsius=25" "25");
    reflexivity.
Defined.

(** X9: an option that the parser does not know is refused wherever it
    stands: nothing is converted. *)
Theorem unknown_options_are_refused (pre post : list string) (o os : string)
  (ex : option string) :
  parse_optional o = Option None os ex ->
  (forall ns, parse_args (pre ++ o :: post) <> Parsed ns)
  /\ no_conversion (main (pre ++ o :: post) None).
Proof.
  intros Ho.
  assert (H : forall ns, parse_args (pre ++ o :: post) <> Parsed ns).
  { apply parse_args_stuck. intros irest Hc.
    destruct (String.eqb_spec o "--") as [->|Hne].
    - cbn in Hc. injection Hc as <-. split.
      + intros st ns. apply consume_dashes.
      + discriminate.
    - apply String.eqb_neq in Hne. rewrite classify_cons in Hc by exact Hne.
      rewrite Ho in Hc.
      apply and_then_parsed in Hc as (ipost & _ & [= <-]).
      split; [|discriminate]. intros st ns. apply consume_unknown. }
  split; [exact H | now apply main_not_parsed].
Qed.

Lemma unknown_options_are_refused_witness :
  (forall ns, parse_args (["-c"; "25"] ++ "--verbose" :: ["-p"; "1"])
              <> Parsed ns)
  /\ no_conversion (main (["-c"; "25"] ++ "--verbose" :: ["-p"; "1"]) None).
Proof.
  apply (unknown_options_are_refused ["-c"; "25"] ["-p"; "1"] "--verbose"
           "--verbose" None).
  reflexivity.
Defined.

(** *** Arguments behind an accepted command line *)

Lemma finish_seen (st : state) :
  extras st = [] -> seen Celsius st || seen Fahrenheit st = true ->
  finish st = Parsed (namespace st).
Proof. intros He Hs. unfold finish. now rewrite Hs, He. Qed.

(** X14: [-h] and [--help] in front of a command line, or behind an
    accepted one, give the help text and exit status 0, whatever follows
    them, unless an ambiguous option does. *)
Theorem help_wins (argv rest : list string) (h : string) (items : list item) :
  h = "-h" \/ h = "--help" ->
  argv = [] \/ (exists ns, parse_args argv = Parsed ns) ->
  classify rest = Parsed items ->
  parse_args (argv ++ h :: rest) = HelpExit
  /\ main (argv ++ h :: rest) None = helped.
Proof.
  intros Hh Hargv Hrest.
  assert (Hcl : classify (h :: rest)
                = Parsed (Opt h (Some Help) h None :: items)).
  { destruct Hh as [-> | ->]; cbn [classify]; cbn -[classify];
      rewrite Hrest; reflexivity. }
  assert (Hhelp : forall st,
            consume (Opt h (Some Help) h None :: items) st = HelpExit)
    by reflexivity.
  assert (H : parse_args (argv ++ h :: rest) = HelpExit).
  { destruct Hargv as [-> | [ns H]].
    - unfold parse_args. cbn [app]. rewrite Hcl. apply Hhelp.
    - destruct (parse_args_app _ _ H) as (st' & _ & _ & _ & _ & Happ).
      rewrite Happ, Hcl. apply Hhelp. }
  split; [exact H | now apply main_help].
Qed.

Lemma help_wins_witness :
  parse_args (["-c"; "25"] ++ "--help" :: ["-p"; "9"; "junk"]) = HelpExit
  /\ main (["-c"; "25"] ++ "--help" :: ["-p"; "9"; "junk"]) None = helped.
Proof.
  apply (help_wins ["-c"; "25"] ["-p"; "9"; "junk"] "--help"
           [Opt "-p" (Some Precision) "-p" None; Arg "9"; Arg "junk"]).
  - right. reflexivity.
  - right. eexists. vm_compute. reflexivity.
  - vm_compute. reflexivity.
Defined.

(** The value options, as they are written with the value attached. *)
Lemma classify_attached (a : action) (long : string) (v : string)
  (rest : list string) :
  a = Celsius /\ long = "--celsius" \/ a = Fahrenheit /\ long = "--fahrenheit"
  \/ a = Precision /\ long = "--precision" ->
  classify ((long ++ "=" ++ v) :: rest)
  = and_then (classify rest) (fun items =>
      Parsed (Opt (long ++ "=" ++ v) (Some a) long (Some v) :: items)).
Proof.
  intros [[-> ->]|[[-> ->]|[-> ->]]]; reflexivity.
Qed.




(** X16: a temperature behind an accepted command line: in the same
    direction it replaces the temperature (the last one wins), in the
    other direction it is the usage error "not allowed with". *)
Theorem direction_is_exclusive (argv : list string) (ns : Namespace)
  (v : string) (x : float) :
  parse_args argv = Parsed ns -> py_float v = Some x ->
  parse_args (argv ++ ["--celsius=" ++ v])
  = (if is_some (fahrenheit ns)
     then UsageError (NotAllowedWith Celsius Fahrenheit)
     else Parsed {| celsius := Some x; fahrenheit := None;
                    precision := precision ns |})
  /\ parse_args (argv ++ ["--fahrenheit=" ++ v])
     = (if is_some (celsius ns)
        then UsageError (NotAllowedWith Fahrenheit Celsius)
        else Parsed {| celsius := None; fahrenheit := Some x;
                       precision := precision ns |}).
Proof.
  intros H Hv.
  pose proof (parse_args_parsed _ _ H) as (_ & _ & _ & Hx & _).
  destruct (parse_args_app _ _ H) as (st' & Hco & Hn & He & Hs & Happ).
  destruct Hco as (_ & Hc & Hf & _). rewrite Hn in Hc, Hf.
  change ("--celsius=" ++ v) with ("--celsius" ++ "=" ++ v).
  change ("--fahrenheit=" ++ v) with ("--fahrenheit" ++ "=" ++ v).
  split; rewrite Happ.
  - rewrite (classify_attached Celsius "--celsius" v [])
      by (left; split; reflexivity).
    cbn [classify and_then]. rewrite consume_value_option by discriminate.
    unfold take_action. rewrite Hv. cbn [conflicts filter]. rewrite Hf.
    destruct (fahrenheit ns) as [f|] eqn:Ef; [reflexivity|].
    cbn [is_some and_then consume]. rewrite finish_seen; [|exact He|reflexivity].
    cbn. now rewrite Hn, Ef.
  - rewrite (classify_attached Fahrenheit "--fahrenheit" v [])
      by (right; left; split; reflexivity).
    cbn [classify and_then]. rewrite consume_value_option by discriminate.
    unfold take_action. rewrite Hv. cbn [conflicts filter]. rewrite Hc.
    destruct (celsius ns) as [c|] eqn:Ec; [reflexivity|].
    cbn [is_some and_then consume]. rewrite finish_seen; [|exact He|].
    + cbn. now rewrite Hn, Ec.
    + cbn. apply orb_true_r.
Qed.

Lemma direction_is_exclusive_witness :
  parse_args (["-c"; "25"] ++ ["--celsius=" ++ "0"])
  = (if is_some (@None float)
     then UsageError (NotAllowedWith Celsius Fahrenheit)
     else Parsed {| celsius := Some (S754_zero false); fahrenheit := None;
                    precision := 2 |})
  /\ parse_args (["-c"; "25"] ++ ["--fahrenheit=" ++ "0"])
     = (if is_some (Some (S754_finite false 7036874417766400 (-48) : float))
        then UsageError (NotAllowedWith Fahrenheit Celsius)
        else Parsed {| celsius := None; fahrenheit := Some (S754_zero false);
                       precision := 2 |}).
Proof.
  apply (direction_is_exclusive ["-c"; "25"]
           {| celsius := Some (S754_finite false 7036874417766400 (-48));
              fahrenheit := None; precision := 2 |} "0" (S754_zero false));
    vm_compute; reflexivity.
Defined.




(** ** Negative numbers *)

Lemma drop_final_newline_head (c : ascii) (l : chars) :
  drop_final_newline (c :: l) = []
  \/ exists l', drop_final_newline (c :: l) = c :: l'.
Proof.
  unfold drop_final_newline. cbn [rev].
  destruct (rev l) as [|x r] eqn:E; cbn [app].
  - destruct (code c =? 10); [left; reflexivity | right; now exists l].
  - destruct (code x =? 10); [|right; now exists l].
    right. exists (rev r). now rewrite rev_unit.
Qed.

(** A negative number starts with [-] and a digit or a point. *)
Lemma negative_number_shape (s : string) :
  negative_number s = true ->
  exists c rest, s = String "-" (String c rest)
                 /\ (is_digit c = true \/ c = "."%char).
Proof.
  unfold negative_number. destruct s as [|c0 s']; [discriminate|].
  cbn [list_ascii_of_string]. intros H. apply andb_true_iff in H as [H0 H].
  apply Ascii.eqb_eq in H0 as ->.
  destruct s' as [|c rest]; [discriminate H|].
  exists c, rest. split; [reflexivity|].
  cbn [list_ascii_of_string] in H.
  destruct (drop_final_newline_head c (list_ascii_of_string rest))
    as [E|[l' E]]; rewrite E in H; [discriminate H|].
  cbn [span_digits] in H. destruct (is_digit c); [now left|].
  right. apply andb_true_iff in H as [H _]. apply andb_true_iff in H as [H _].
  now apply Ascii.eqb_eq in H.
Qed.

Lemma is_digit_neq (c x : ascii) :
  is_digit c = true -> is_digit x = false ->
  Ascii.eqb c x = false /\ Ascii.eqb x c = false.
Proof.
  intros Hc Hx. split; [destruct (Ascii.eqb_spec c x) | destruct (Ascii.eqb_spec x c)];
    try reflexivity; subst; congruence.
Qed.

(** A string that starts with [-] and a digit or a point is no option
    string and no abbreviation of one. *)
Lemma parse_optional_number (c : ascii) (rest : string) :
  is_digit c = true \/ c = "."%char ->
  parse_optional (String "-" (String c rest))
  = if negative_number (String "-" (String c rest)) then Positional
    else if contains " " (String "-" (String c rest)) then Positional
    else Option None (String "-" (String c rest)) None.
Proof.
  intros Hc.
  assert (Hne : forall x, In x ["h"; "c"; "f"; "p"; "-"; "="]%char ->
                  Ascii.eqb c x = false /\ Ascii.eqb x c = false).
  { intros x Hx. destruct Hc as [Hc| ->].
    - apply is_digit_neq; [exact Hc|].
      cbn in Hx. repeat (destruct Hx as [<-|Hx]; [reflexivity|]). contradiction.
    - cbn in Hx. repeat (destruct Hx as [<-|Hx]; [split; reflexivity|]).
      contradiction. }
  destruct (Hne "h"%char) as [Hh Hh']; [cbn; tauto|].
  destruct (Hne "c"%char) as [Hcc Hcc']; [cbn; tauto|].
  destruct (Hne "f"%char) as [Hf Hf']; [cbn; tauto|].
  destruct (Hne "p"%char) as [Hp Hp']; [cbn; tauto|].
  destruct (Hne "-"%char) as [Hd Hd']; [cbn; tauto|].
  destruct (Hne "="%char) as [He He']; [cbn; tauto|].
  assert (Hlook : forall l, lookup (String "-" (String c l)) = None).
  { intros l. unfold lookup, option_string_actions.
    cbn [find fst String.eqb].
    change (Ascii.eqb "-" "-") with true. cbn [andb].
    rewrite Hh', Hcc', Hf', Hp', Hd'. reflexivity. }
  assert (Hsplit : match split_equals (String "-" (String c rest)) with
                   | Some (os, ex) =>
                       match lookup os with
                       | Some a => Some (Option (Some a) os (Some ex))
                       | None => None
                       end
                   | None => None
                   end = None).
  { cbn [split_equals]. unfold is_char. change (Ascii.eqb "-" "=") with false.
    rewrite He. cbn iota.
    destruct (split_equals rest) as [[l r]|]; [|reflexivity].
    now rewrite Hlook. }
  assert (Htuples : get_option_tuples (String "-" (String c rest)) = []).
  { unfold get_option_tuples. cbn [second_is_dash]. unfold is_char. rewrite Hd.
    unfold option_string_actions.
    cbn [flat_map substring String.eqb prefix app].
    rewrite Hh', Hcc', Hf', Hp', Hd'.
    repeat match goal with
           | |- context [ascii_dec c ?x] =>
               destruct (ascii_dec c x) as [E|_];
               [exfalso; rewrite E in *; discriminate|]
           end.
    destruct (ascii_dec "-" "-"); reflexivity. }
  unfold parse_optional. cbn [first_is_dash]. unfold is_char at 1.
  change (Ascii.eqb "-" "-") with true. cbn [negb].
  rewrite Hlook. cbn [String.length Nat.eqb].
  rewrite Hsplit, Htuples. reflexivity.
Qed.

Lemma classify_number (s : string) (rest : list string) :
  negative_number s = true ->
  classify (s :: rest)
  = and_then (classify rest) (fun items => Parsed (Arg s :: items)).
Proof.
  intros Hs. destruct (negative_number_shape s Hs) as (c & r & -> & Hc).
  assert (Hne : String.eqb (String "-" (String c r)) "--" = false).
  { apply String.eqb_neq. intros [= -> _].
    destruct Hc as [Hc|Hc]; discriminate Hc. }
  rewrite classify_cons by exact Hne.
  now rewrite (parse_optional_number c r Hc), Hs.
Qed.

(** X12: a plain negative number ([-40], [-17.5], [-.5]) after [-c] or
    [-f] is taken for the temperature, not for an option. *)
Theorem negative_temperatures_are_accepted (s : string) (x : float) :
  negative_number s = true -> py_float s = Some x ->
  parse_args ["-c"; s]
  = Parsed {| celsius := Some x; fahrenheit := None; precision := 2 |}
  /\ parse_args ["-f"; s]
     = Parsed {| celsius := None; fahrenheit := Some x; precision := 2 |}
  /\ main ["-c"; s] None
     = printed (conversion_line x (fahrenheit_of x) "C" "F" 2)
  /\ main ["-f"; s] None
     = printed (conversion_line x (celsius_of x) "F" "C" 2)
  /\ main ["-c"; "-40"] None = printed "-40.00°C = -40.00°F"
  /\ main ["-f"; "-40"] None = printed "-40.00°F = -40.00°C"
  /\ main ["-c"; "-.5"] None = printed "-0.50°C = 31.10°F".
Proof.
  intros Hn Hs.
  assert (Hc : parse_args ["-c"; s]
               = Parsed {| celsius := Some x; fahrenheit := None;
                           precision := 2 |}).
  { unfold parse_args.
    rewrite (classify_option "-c" [s] (Some Celsius) "-c" None) by reflexivity.
    rewrite classify_number by exact Hn. cbn [classify and_then].
    rewrite consume_value_option by discriminate.
    unfold take_action. rewrite Hs. reflexivity. }
  assert (Hf : parse_args ["-f"; s]
               = Parsed {| celsius := None; fahrenheit := Some x;
                           precision := 2 |}).
  { unfold parse_args.
    rewrite (classify_option "-f" [s] (Some Fahrenheit) "-f" None) by reflexivity.
    rewrite classify_number by exact Hn. cbn [classify and_then].
    rewrite consume_value_option by discriminate.
    unfold take_action. rewrite Hs. reflexivity. }
  split; [exact Hc|]. split; [exact Hf|].
  split; [now rewrite (main_parsed _ _ Hc)|].
  split; [now rewrite (main_parsed _ _ Hf)|].
  vm_compute. repeat split.
Qed.

Lemma negative_temperatures_are_accepted_witness :
  parse_args ["-c"; "-17.5"]
  = Parsed {| celsius := Some (S754_finite true 4925812092436480 (-48));
              fahrenheit := None; precision := 2 |}
  /\ parse_args ["-f"; "-17.5"]
     = Parsed {| celsius := None;
                 fahrenheit := Some (S754_finite true 4925812092436480 (-48));
                 precision := 2 |}
  /\ main ["-c"; "-17.5"] None
     = printed (conversion_line (S754_finite true 4925812092436480 (-48))
                  (fahrenheit_of (S754_finite true 4925812092436480 (-48)))
                  "C" "F" 2)
  /\ main ["-f"; "-17.5"] None
     = printed (conversion_line (S754_finite true 4925812092436480 (-48))
                  (celsius_of (S754_finite true 4925812092436480 (-48)))
                  "F" "C" 2)
  /\ main ["-c"; "-40"] None = printed "-40.00°C = -40.00°F"
  /\ main ["-f"; "-40"] None = printed "-40.00°F = -40.00°C"
  /\ main ["-c"; "-.5"] None = printed "-0.50°C = 31.10°F".
Proof.
  apply (negative_temperatures_are_accepted "-17.5"
           (S754_finite true 4925812092436480 (-48)));
    vm_compute; reflexivity.
Defined.

Lemma prefix_inv (o : string) (c : ascii) (s : string) :
  prefix o (String c s) = true ->
  o = "" \/ exists o', o = String c o' /\ prefix o' s = true.
Proof.
  destruct o as [|c' o']; [now left|]. cbn.
  destruct (ascii_dec c' c) as [->|]; [|discriminate].
  intros H. right. now exists o'.
Qed.

Lemma prefix_nil_inv (o : string) : prefix o "" = true -> o = "".
Proof. destruct o; [reflexivity | discriminate]. Qed.

Ltac prefixes H :=
  repeat first
    [ apply prefix_nil_inv in H; subst
    | apply prefix_inv in H as [->|(? & -> & H)] ].

Lemma main_parse_args (argv argv' : list string) (interrupt : option nat) :
  parse_args argv = parse_args argv' -> main argv interrupt = main argv' interrupt.
Proof.
  intros H. unfold main, main_body, parse_arguments. now rewrite H.
Qed.

Lemma parse_args_option (o os : string) (a : action) (ex : option string)
  (rest : list string) :
  String.eqb o "--" = false -> parse_optional o = Option (Some a) os ex ->
  parse_args (o :: rest)
  = and_then (classify rest) (fun items =>
      consume (Opt os (Some a) os ex :: items) initial).
Proof.
  intros Hne Ho. unfold parse_args. rewrite classify_cons by exact Hne.
  rewrite Ho. now destruct (classify rest).
Qed.

(** X13: a long option may be cut short: any beginning of it that is
    longer than [--] stands for it, with and without an attached value;
    the process behaves as with the option written in full. *)
Theorem long_options_can_be_abbreviated (o full : string) (a : action)
  (rest : list string) (interrupt : option nat) :
  In (full, a) long_options -> abbreviates o full = true ->
  parse_optional o = Option (Some a) full None
  /\ main (o :: rest) interrupt = main (full :: rest) interrupt
  /\ (forall v,
        main ((o ++ "=" ++ v) :: rest) interrupt
        = main ((full ++ "=" ++ v) :: rest) interrupt)
  /\ main ["--cel"; "25"; "--prec"; "1"] None = printed "25.0°C = 77.0°F".
Proof.
  intros Hin Ho.
  assert (H12 : parse_optional o = Option (Some a) full None
                /\ (forall v, parse_optional (o ++ "=" ++ v)
                              = Option (Some a) full (Some v))
                /\ parse_optional full = Option (Some a) full None
                /\ (forall v, parse_optional (full ++ "=" ++ v)
                              = Option (Some a) full (Some v))
                /\ (forall v, String.eqb (full ++ "=" ++ v) "--" = false)
                /\ String.eqb full "--" = false).
  { apply andb_true_iff in Ho as [Hp Hl].
    cbn in Hin. destruct Hin as [[= <- <-]|[[= <- <-]|[[= <- <-]|[[= <- <-]|[]]]]];
      prefixes Hp; try discriminate Hl; repeat split. }
  destruct H12 as (H1 & H2 & H3 & H4 & Hne3 & Hne4). split; [exact H1|].
  assert (Hne : forall t, String.eqb (o ++ t) "--" = false).
  { intros t. apply andb_true_iff in Ho as [_ Hl].
    destruct o as [|c1 [|c2 [|c3 o]]]; try discriminate Hl.
    apply String.eqb_neq. discriminate. }
  split; [|split; [|reflexivity]].
  - apply main_parse_args.
    rewrite (parse_args_option o full a None), (parse_args_option full full a None);
      auto.
    rewrite <- (string_app_nil_r o). apply Hne.
  - intros v. apply main_parse_args.
    rewrite (parse_args_option _ full a (Some v)),
            (parse_args_option (full ++ "=" ++ v) full a (Some v)); auto.
Qed.

Lemma long_options_can_be_abbreviated_witness :
  parse_optional "--prec" = Option (Some Precision) "--precision" None
  /\ main ("--prec" :: ["3"; "-f"; "98.6"]) None
     = main ("--precision" :: ["3"; "-f"; "98.6"]) None
  /\ (forall v,
        main (("--prec" ++ "=" ++ v) :: ["3"; "-f"; "98.6"]) None
        = main (("--precision" ++ "=" ++ v) :: ["3"; "-f"; "98.6"]) None)
  /\ main ["--cel"; "25"; "--prec"; "1"] None = printed "25.0°C = 77.0°F".
Proof.
  apply (long_options_can_be_abbreviated "--prec" "--precision" Precision).
  - cbn. tauto.
  - reflexivity.
Defined.

(** The round trip that starts in Fahrenheit is accurate. *)
Lemma reverse_round_trip_close (f : float) :
  Binary64.is_finite f = true ->
  (Qabs (Binary64.to_Q f) <= pow2 1019)%Q ->
  Binary64.is_finite (fahrenheit_of (celsius_of f)) = true
  /\ (Qabs (Binary64.to_Q (fahrenheit_of (celsius_of f)) - Binary64.to_Q f)
      <= pow2 (-49) * Qabs (Binary64.to_Q f) + pow2 (-44))%Q.
Proof.
  intros Hf HX.
  destruct (celsius_of_accuracy f Hf HX) as [Hc E1].
  revert E1.
  change (pow2 (-51)) with (1 # 2251799813685248)%Q.
  change (pow2 (-47)) with (1 # 140737488355328)%Q.
  unfold Qdiv. change (/ 9)%Q with (1 # 9)%Q. intros E1.
  apply Qabs_Qle_condition in E1.
  assert (HP1 : (1024 <= pow2 1019)%Q).
  { change 1024%Q with (pow2 10). apply pow2_le. lia. }
  pose proof (Qabs_nonneg (Binary64.to_Q f)) as HX0.
  assert (HF : (- Qabs (Binary64.to_Q f) <= Binary64.to_Q f
                <= Qabs (Binary64.to_Q f))%Q).
  { apply Qabs_Qle_condition. apply Qle_refl. }
  set (X := Qabs (Binary64.to_Q f)) in *.
  set (F := Binary64.to_Q f) in *.
  set (c := celsius_of f) in *.
  set (C := Binary64.to_Q c) in *.
  assert (HY : (Qabs C <= (2 # 3) * X + 18)%Q) by (apply Qabs_le_intro; lra).
  assert (HC : (Qabs C <= pow2 1019)%Q) by lra.
  destruct (fahrenheit_of_accuracy c Hc HC) as [Hr E2].
  split; [exact Hr|]. revert E2. fold C.
  change (pow2 (-50)) with (1 # 1125899906842624)%Q.
  change (pow2 (-47)) with (1 # 140737488355328)%Q.
  change (pow2 (-49)) with (1 # 562949953421312)%Q.
  change (pow2 (-44)) with (1 # 17592186044416)%Q.
  unfold Qdiv. change (/ 5)%Q with (1 # 5)%Q. intros E2.
  apply Qabs_Qle_condition in E2.
  pose proof (Qabs_nonneg C) as HY0.
  set (Y := Qabs C) in *.
  apply Qabs_le_intro. lra.
Qed.

(** X1: the round trip that starts in Fahrenheit. For every finite float
    [f] of magnitude [2 ^ 1019] at most,
    [celsius_to_fahrenheit (fahrenheit_to_celsius f)] raises nothing, is
    finite and differs from [f] by [2 ^ -49 * |f| + 2 ^ -44] at most; in
    exact arithmetic it is [f], for every rational [f]. *)
Theorem reverse_round_trip :
  (forall f : float,
     Binary64.is_finite f = true ->
     (Qabs (Binary64.to_Q f) <= pow2 1019)%Q ->
     exists c r : float,
       fahrenheit_to_celsius f = Ok c /\ celsius_to_fahrenheit c = Ok r
       /\ Binary64.is_finite r = true
       /\ (Qabs (Binary64.to_Q r - Binary64.to_Q f)
           <= pow2 (-49) * Qabs (Binary64.to_Q f) + pow2 (-44))%Q)
  /\ (forall f : Q,
        exists c r : Q,
          fahrenheit_to_celsius f = Ok c /\ celsius_to_fahrenheit c = Ok r
          /\ (r == f)%Q).
Proof.
  split.
  - intros f Hf Hb. exists (celsius_of f), (fahrenheit_of (celsius_of f)).
    split; [apply fahrenheit_to_celsius_float|].
    split; [apply celsius_to_fahrenheit_float|].
    now apply reverse_round_trip_close.
  - intros f.
    exists ((f - 32) * 5 / 9)%Q, ((f - 32) * 5 / 9 * 9 / 5 + 32)%Q.
    repeat split. field.
Qed.

Lemma reverse_round_trip_witness :
  exists c r : float,
    fahrenheit_to_celsius (S754_finite false 6938358175917670 (-46)) = Ok c
    /\ celsius_to_fahrenheit c = Ok r
    /\ Binary64.is_finite r = true
    /\ (Qabs (Binary64.to_Q r
              - Binary64.to_Q (S754_finite false 6938358175917670 (-46)))
        <= pow2 (-49)
           * Qabs (Binary64.to_Q (S754_finite false 6938358175917670 (-46)))
           + pow2 (-44))%Q.
Proof.
  apply (proj1 reverse_round_trip (S754_finite false 6938358175917670 (-46))).
  - reflexivity.
  - apply Qle_bool_iff. vm_compute. reflexivity.
Defined.

(** ** Decimal numerals *)

Lemma format_fixed_decimal (x : float) (p : Z) :
  Binary64.is_finite x = true ->
  format_fixed x p = decimal (sign_bit x) (scaled_magnitude x p) p.
Proof.
  intros Hx. unfold format_fixed, decimal.
  destruct x; try discriminate Hx; destruct (p =? 0);
    rewrite ?string_app_nil_r; reflexivity.
Qed.

Lemma digits_value_fold (d : chars) : digits_value d = fold_left digit_step d 0.
Proof. reflexivity. Qed.

Lemma digit_value_char (d : Z) :
  0 <= d < 10 -> digit_value (digit_char d) = d.
Proof.
  intros H. unfold digit_value, digit_char, code.
  rewrite nat_ascii_embedding by lia. lia.
Qed.

(** The digits that [decimal_digits] writes for [n] are those of [n]. *)
Lemma decimal_digits_value (fuel : nat) : forall n acc,
  0 <= n < 10 ^ Z.of_nat (S fuel) ->
  exists d : chars,
    list_ascii_of_string (decimal_digits (S fuel) n acc)
    = (d ++ list_ascii_of_string acc)%list
    /\ d <> [] /\ forallb is_digit d = true
    /\ fold_left digit_step d 0 = n.
Proof.
  induction fuel as [|fuel IH]; intros n acc Hn.
  - exists [digit_char (n mod 10)]. cbn [decimal_digits].
    assert (n / 10 = 0) by (apply Z.div_small; cbn in Hn; lia).
    assert (n mod 10 = n) by (apply Z.mod_small; cbn in Hn; lia).
    replace (n / 10 =? 0) with true by (symmetry; now apply Z.eqb_eq).
    repeat split; [discriminate | cbn; now rewrite digit_char_is_digit |].
    cbn. unfold digit_step. rewrite digit_value_char; lia.
  - cbn [decimal_digits].
    assert (Hmod : 0 <= n mod 10 < 10) by (apply Z.mod_pos_bound; lia).
    destruct (Z.eqb_spec (n / 10) 0) as [E|E].
    + exists [digit_char (n mod 10)].
      repeat split; [discriminate | cbn; now rewrite digit_char_is_digit |].
      cbn. unfold digit_step. rewrite digit_value_char by lia.
      pose proof (Z.div_mod n 10). lia.
    + destruct (IH (n / 10) (String (digit_char (n mod 10)) acc))
        as (d & Hd & Hne & Hall & Hval).
      { split; [apply Z.div_pos; lia|].
        apply Z.div_lt_upper_bound; [lia|].
        rewrite <- Z.pow_succ_r by lia. rewrite <- Nat2Z.inj_succ. apply Hn. }
      exists (d ++ [digit_char (n mod 10)])%list.
      cbn [decimal_digits] in Hd. rewrite Hd. repeat split.
      * cbn. now rewrite <- app_assoc.
      * now destruct d.
      * rewrite forallb_app, Hall. cbn. now rewrite digit_char_is_digit.
      * rewrite fold_left_app, Hval. cbn. unfold digit_step.
        rewrite digit_value_char by lia. pose proof (Z.div_mod n 10). lia.
Qed.

Lemma string_of_Z_value (n : Z) :
  0 <= n ->
  exists (c : ascii) (d : chars),
    list_ascii_of_string (string_of_Z n) = c :: d
    /\ forallb is_digit (c :: d) = true
    /\ digits_value (c :: d) = n.
Proof.
  intros Hn. unfold string_of_Z.
  destruct (decimal_digits_value (Z.to_nat (Z.log2 n)) n "") as (d & Hd & Hne & Hall & Hv).
  { split; [exact Hn|].
    rewrite Nat2Z.inj_succ, Z2Nat.id by apply Z.log2_nonneg.
    destruct (Z.eq_dec n 0) as [->|Hz]; [reflexivity|].
    apply Z.lt_le_trans with (2 ^ Z.succ (Z.log2 n)).
    - apply Z.log2_spec. lia.
    - apply Z.pow_le_mono_l. split; [lia|lia]. }
  rewrite Hd. cbn [list_ascii_of_string]. rewrite app_nil_r.
  destruct d as [|c d]; [contradiction|]. exists c, d. auto.
Qed.

Lemma fraction_digits_value (p : nat) : forall n acc,
  exists d : chars,
    list_ascii_of_string (fraction_digits p n acc)
    = (d ++ list_ascii_of_string acc)%list
    /\ List.length d = p /\ forallb is_digit d = true
    /\ forall z, fold_left digit_step d z
                 = z * 10 ^ Z.of_nat p + n mod 10 ^ Z.of_nat p.
Proof.
  induction p as [|p IH]; intros n acc.
  - exists []. repeat split. intros z. cbn. rewrite Z.mod_1_r. lia.
  - cbn [fraction_digits].
    destruct (IH (n / 10) (String (digit_char (n mod 10)) acc))
      as (d & Hd & Hlen & Hall & Hv).
    assert (Hmod : 0 <= n mod 10 < 10) by (apply Z.mod_pos_bound; lia).
    exists (d ++ [digit_char (n mod 10)])%list. rewrite Hd. repeat split.
    + cbn. now rewrite <- app_assoc.
    + rewrite length_app, Hlen. cbn. lia.
    + rewrite forallb_app, Hall. cbn. now rewrite digit_char_is_digit.
    + intros z. rewrite fold_left_app, Hv. cbn [fold_left]. unfold digit_step.
      rewrite digit_value_char by lia.
      rewrite Nat2Z.inj_succ, Z.pow_succ_r by lia.
      rewrite (Z.rem_mul_r n 10 (10 ^ Z.of_nat p)) by lia. lia.
Qed.

(** The characters of a decimal numeral. *)
Lemma decimal_chars (neg : bool) (n p : Z) :
  0 <= n -> 0 <= p ->
  exists (c : ascii) (d fr : chars),
    list_ascii_of_string (decimal neg n p)
    = ((if neg then ["-"%char] else [])
       ++ (c :: d) ++ (if p =? 0 then [] else "."%char :: fr))%list
    /\ forallb is_digit (c :: d) = true
    /\ forallb is_digit fr = true
    /\ List.length fr = Z.to_nat p
    /\ digits_value ((c :: d) ++ fr)%list = n.
Proof.
  intros Hn Hp. unfold decimal.
  assert (H10 : 0 < 10 ^ p) by (apply Z.pow_pos_nonneg; lia).
  destruct (string_of_Z_value (n / 10 ^ p)) as (c & d & Hcd & Hall & Hv);
    [apply Z.div_pos; lia|].
  destruct (fraction_digits_value (Z.to_nat p) (n mod 10 ^ p) "")
    as (fr & Hfr & Hlen & Hfall & Hfv).
  rewrite app_nil_r in Hfr. rewrite Z2Nat.id in Hfv by exact Hp.
  exists c, d, fr. rewrite !list_ascii_app, Hcd. repeat split; auto.
  - f_equal; [now destruct neg|]. f_equal.
    destruct (p =? 0); [reflexivity|]. cbn. now rewrite Hfr.
  - rewrite digits_value_fold, fold_left_app.
    rewrite <- digits_value_fold, Hv, Hfv.
    rewrite Z.mod_mod by lia. pose proof (Z.div_mod n (10 ^ p)). lia.
Qed.

Lemma lstrip_head (c : ascii) (l : chars) :
  is_space c = false -> lstrip (c :: l) = c :: l.
Proof. intros H. cbn. now rewrite H. Qed.

(** A string without spaces is not changed by [strip]. *)
Lemma strip_no_space (l : chars) :
  forallb (fun c => negb (is_space c)) l = true -> strip l = l.
Proof.
  intros H. unfold strip.
  assert (Hl : lstrip l = l).
  { destruct l as [|c l]; [reflexivity|]. cbn in H.
    apply andb_true_iff in H as [H _]. apply lstrip_head.
    now destruct (is_space c). }
  rewrite Hl.
  assert (Hr : lstrip (rev l) = rev l).
  { destruct (rev l) as [|c r] eqn:E; [reflexivity|]. apply lstrip_head.
    assert (Hin : In c l) by (apply in_rev; rewrite E; now left).
    rewrite forallb_forall in H. specialize (H c Hin).
    now destruct (is_space c). }
  rewrite Hr. apply rev_involutive.
Qed.

(** A string without underscores is not changed by [remove_underscores]. *)
Lemma remove_underscores_none (l : chars) : forall prev,
  match prev with Some p => is_char p "_" = false | None => True end ->
  forallb (fun c => negb (is_char c "_")) l = true ->
  remove_underscores prev l = Some l.
Proof.
  induction l as [|c l IH]; intros prev Hprev H.
  - cbn. destruct prev as [p|]; [now rewrite Hprev | reflexivity].
  - cbn in H. apply andb_true_iff in H as [Hc H].
    apply negb_true_iff in Hc. cbn [remove_underscores]. rewrite Hc.
    replace (match prev with Some p => is_char p "_" | None => false end)
      with false by (destruct prev; [now rewrite Hprev | reflexivity]).
    cbn [andb]. rewrite (IH (Some c)); [reflexivity | exact Hc | exact H].
Qed.

Lemma numeral_char_plain (c : ascii) :
  numeral_char c = true ->
  is_space c = false /\ is_char c "_" = false.
Proof.
  unfold numeral_char. intros H.
  apply orb_true_iff in H as [H|H]; [apply orb_true_iff in H as [H|H]|].
  - pose proof H as Hd.
    unfold is_digit in H. apply andb_true_iff in H as [H1 H2].
    apply Z.leb_le in H1, H2. split.
    + unfold is_space.
      destruct (Z.eqb_spec (code c) 32); [lia|].
      destruct (Z.leb_spec 9 (code c)), (Z.leb_spec (code c) 13);
        try reflexivity; lia.
    + unfold is_char. destruct (Ascii.eqb_spec c "_") as [->|]; [|reflexivity].
      discriminate Hd.
  - apply Ascii.eqb_eq in H as ->. split; reflexivity.
  - apply Ascii.eqb_eq in H as ->. split; reflexivity.
Qed.

Lemma digits_numeral (d : chars) :
  forallb is_digit d = true -> forallb numeral_char d = true.
Proof.
  intros H. apply forallb_forall. intros c Hc.
  rewrite forallb_forall in H. unfold numeral_char. now rewrite (H c Hc).
Qed.

Lemma numeral_plain (l : chars) :
  forallb numeral_char l = true ->
  strip l = l /\ remove_underscores None l = Some l.
Proof.
  intros H. split.
  - apply strip_no_space. apply forallb_forall. intros c Hc.
    rewrite forallb_forall in H.
    now rewrite (proj1 (numeral_char_plain c (H c Hc))).
  - apply remove_underscores_none; [exact I|].
    apply forallb_forall. intros c Hc. rewrite forallb_forall in H.
    now rewrite (proj2 (numeral_char_plain c (H c Hc))).
Qed.

Lemma digit_lower (c : ascii) : is_digit c = true -> lower c = c.
Proof.
  unfold is_digit, lower. intros H. apply andb_true_iff in H as [H1 H2].
  apply Z.leb_le in H1, H2.
  destruct (Z.leb_spec 65 (code c)); [lia|]. reflexivity.
Qed.

(** [float] reads a decimal numeral as the float nearest to the number it
    denotes. *)
Lemma py_float_decimal (neg : bool) (n p : Z) :
  0 <= n -> 0 <= p ->
  py_float (decimal neg n p)
  = Some (match n with
          | Z.pos m => decimal_to_float neg m (- p)
          | _ => S754_zero neg
          end).
Proof.
  intros Hn Hp.
  destruct (decimal_chars neg n p Hn Hp) as (c & d & fr & Hch & Hcd & Hfr & Hlen & Hv).
  unfold py_float. rewrite Hch.
  set (body := ((c :: d) ++ (if p =? 0 then [] else "."%char :: fr))%list).
  assert (Hbody : forallb numeral_char body = true).
  { unfold body. rewrite forallb_app, (digits_numeral _ Hcd).
    destruct (p =? 0); [reflexivity|]. cbn -[numeral_char].
    now rewrite (digits_numeral _ Hfr). }
  assert (Hall : forallb numeral_char ((if neg then ["-"%char] else []) ++ body)
                 = true).
  { rewrite forallb_app, Hbody. now destruct neg. }
  destruct (numeral_plain _ Hall) as [Hs Hu]. rewrite Hs, Hu.
  assert (Hc : is_digit c = true).
  { cbn in Hcd. now apply andb_true_iff in Hcd as [Hc _]. }
  assert (Hsign : read_sign ((if neg then ["-"%char] else []) ++ body)%list
                  = (neg, body)).
  { destruct neg; [reflexivity|]. unfold body. cbn.
    rewrite (digit_is_not_minus c Hc).
    unfold is_char. destruct (Ascii.eqb_spec c "+") as [->|]; [discriminate Hc|].
    reflexivity. }
  rewrite Hsign.
  assert (Hword : forall w, In w ["inf"; "infinity"; "nan"] ->
            (string_of_list_ascii (map lower body) =? w)%string = false).
  { intros w Hw. unfold body. cbn [app map string_of_list_ascii].
    rewrite (digit_lower c Hc).
    cbn in Hw. destruct Hw as [<-|[<-|[<-|[]]]]; cbn [String.eqb];
      (match goal with
       | |- context [Ascii.eqb c ?x] =>
           destruct (Ascii.eqb_spec c x) as [->|]; [discriminate Hc|reflexivity]
       end). }
  rewrite (Hword "inf"), (Hword "infinity"), (Hword "nan") by (cbn; tauto).
  cbn [orb]. unfold read_number, body.
  rewrite (span_digits_app (c :: d)); [|exact Hcd|now destruct (p =? 0)].
  assert (Hfp : span_digits fr = (fr, [])).
  { rewrite <- (app_nil_r fr) at 1. now apply span_digits_app. }
  assert (Hlen' : Z.of_nat (List.length fr) = p) by (rewrite Hlen; lia).
  destruct (Z.eqb_spec p 0) as [Hz|Hnz].
  - destruct fr as [|a fr]; [|exfalso; cbn [List.length] in Hlen'; lia].
    cbn [app read_exponent List.length].
    rewrite app_nil_r in *. rewrite Hv, Hz. destruct n; reflexivity.
  - unfold is_char. change (Ascii.eqb "." ".") with true. cbn iota.
    rewrite Hfp. cbn [app read_exponent]. rewrite Hlen'.
    change (digits_value (c :: (d ++ fr)%list)) with (digits_value ((c :: d) ++ fr)%list).
    rewrite Hv. destruct n; reflexivity.
Qed.

(** ** Rounding to decimals *)

Lemma round_half_even_nearest (num den k : Z) :
  0 < den -> - den < 2 * num - 2 * k * den < den ->
  round_half_even num den = k.
Proof.
  intros Hd H. unfold round_half_even.
  pose proof (Z.div_mod num den ltac:(lia)) as E.
  pose proof (Z.mod_pos_bound num den Hd) as Hr.
  set (q := num / den) in *. set (r := num mod den) in *.
  assert (Hq : forall j, j <= -1 \/ j = 0 \/ 1 <= j) by (intros; lia).
  destruct (Z.compare_spec (2 * r) den) as [C|C|C].
  - exfalso. destruct (Hq (q - k)) as [L|[L|L]]; nia.
  - destruct (Hq (q - k)) as [L|[L|L]]; nia.
  - destruct (Hq (q + 1 - k)) as [L|[L|L]]; nia.
Qed.

Lemma round_half_even_near (num den : Z) :
  0 < den ->
  - den <= 2 * num - 2 * round_half_even num den * den <= den.
Proof.
  intros Hd. unfold round_half_even.
  pose proof (Z.div_mod num den ltac:(lia)) as E.
  pose proof (Z.mod_pos_bound num den Hd) as Hr.
  set (q := num / den) in *. set (r := num mod den) in *.
  destruct (Z.compare_spec (2 * r) den) as [C|C|C];
    [destruct (Z.even q)| |]; nia.
Qed.

(** The magnitude of a finite float as a fraction. *)
Lemma magnitude_fraction (x : float) :
  Binary64.is_finite x = true ->
  exists num den : Z,
    0 <= num /\ 0 < den
    /\ (Qabs (Binary64.to_Q x) == inject_Z num / inject_Z den)%Q
    /\ forall p, 0 <= p ->
         scaled_magnitude x p
         = if den =? 1 then num * 10 ^ p
           else round_half_even (num * 10 ^ p) den.
Proof.
  intros Hx. unfold float in x. destruct x as [s|s| |s m e]; try discriminate Hx.
  - exists 0, 1. repeat split; try lia; try reflexivity.
  - assert (Habs : (Qabs (Binary64.to_Q (S754_finite s m e))
                    == inject_Z (Z.pos m) * pow2 e)%Q).
    { rewrite to_Q_finite. apply Qabs_sg.
      apply Qmult_le_0_compat; [|apply Qlt_le_weak, pow2_pos].
      change 0%Q with (inject_Z 0). apply inject_Z_le. lia. }
    destruct (Z.leb_spec 0 e) as [He|He].
    + exists (Z.pos m * 2 ^ e), 1. split; [apply Z.mul_nonneg_nonneg; lia|].
      split; [lia|]. split.
      * rewrite Habs, inject_Z_mult, pow2_inject by lia.
        unfold Qdiv. change (/ inject_Z 1)%Q with 1%Q. ring.
      * intros p Hp. cbn [scaled_magnitude].
        destruct (Z.leb_spec 0 e); [reflexivity | lia].
    + assert (Hpos : 0 < 2 ^ (- e)) by (apply Z.pow_pos_nonneg; lia).
      exists (Z.pos m), (2 ^ (- e)). split; [lia|]. split; [exact Hpos|]. split.
      * rewrite Habs, pow2_inject by lia. unfold Qdiv.
        apply Qmult_comp; [reflexivity|].
        unfold pow2. replace e with (- - e) at 1 by lia.
        now rewrite Qpower_opp.
      * intros p Hp. cbn [scaled_magnitude].
        destruct (Z.leb_spec 0 e); [lia|].
        destruct (Z.eqb_spec (2 ^ (- e)) 1) as [E|E]; [|reflexivity].
        exfalso. assert (2 ^ 1 <= 2 ^ (- e)) by (apply Z.pow_le_mono_r; lia).
        lia.
Qed.

Lemma fraction_near (a d k : Z) :
  0 < d ->
  (Qabs (inject_Z a / inject_Z d - inject_Z k) < 1 # 2)%Q ->
  - d < 2 * a - 2 * k * d < d.
Proof.
  intros Hd H. apply Qabs_Qlt_condition in H as [H1 H2].
  destruct d as [|d|d]; try lia.
  unfold Qdiv in *. change (/ inject_Z (Z.pos d))%Q with (1 # d)%Q in *.
  unfold Qlt, Qminus, Qplus, Qmult, Qopp, inject_Z in *. cbn in H1, H2.
  rewrite ?Pos.mul_1_r, ?Pos2Z.inj_mul in *. nia.
Qed.

Lemma fraction_near_le (a d k : Z) :
  0 < d -> - d <= 2 * a - 2 * k * d <= d ->
  (Qabs (inject_Z k - inject_Z a / inject_Z d) <= 1 # 2)%Q.
Proof.
  intros Hd H. apply Qabs_Qle_condition.
  destruct d as [|d|d]; try lia.
  unfold Qdiv. change (/ inject_Z (Z.pos d))%Q with (1 # d)%Q.
  unfold Qle, Qminus, Qplus, Qmult, Qopp, inject_Z. cbn.
  rewrite ?Pos.mul_1_r, ?Pos2Z.inj_mul. split; nia.
Qed.

(** [scaled_magnitude x p] is the integer nearest to [|x| * 10 ^ p]. *)
Lemma scaled_magnitude_nearest (x : float) (p k : Z) :
  Binary64.is_finite x = true -> 0 <= p ->
  (Qabs (Qabs (Binary64.to_Q x) * inject_Z (10 ^ p) - inject_Z k) < 1 # 2)%Q ->
  scaled_magnitude x p = k.
Proof.
  intros Hx Hp H.
  destruct (magnitude_fraction x Hx) as (num & den & Hnum & Hden & Habs & Hsm).
  rewrite Hsm by exact Hp.
  assert (H' : (Qabs (inject_Z (num * 10 ^ p) / inject_Z den - inject_Z k)
                < 1 # 2)%Q).
  { rewrite inject_Z_mult. rewrite Habs in H.
    eapply Qlt_le_trans; [|apply Qle_refl].
    eapply Qle_lt_trans; [|exact H]. apply Qle_lteq. right.
    apply Qabs_wd. unfold Qdiv. ring. }
  apply fraction_near in H'; [|exact Hden].
  destruct (Z.eqb_spec den 1) as [->|_]; [lia|].
  now apply round_half_even_nearest.
Qed.

Lemma scaled_magnitude_near (x : float) (p : Z) :
  Binary64.is_finite x = true -> 0 <= p ->
  0 <= scaled_magnitude x p
  /\ (Qabs (inject_Z (scaled_magnitude x p)
            - Qabs (Binary64.to_Q x) * inject_Z (10 ^ p)) <= 1 # 2)%Q.
Proof.
  intros Hx Hp.
  destruct (magnitude_fraction x Hx) as (num & den & Hnum & Hden & Habs & Hsm).
  rewrite Hsm by exact Hp.
  assert (H10 : 0 < 10 ^ p) by (apply Z.pow_pos_nonneg; lia).
  assert (Hn : - den <= 2 * (num * 10 ^ p)
                        - 2 * (if den =? 1 then num * 10 ^ p
                               else round_half_even (num * 10 ^ p) den) * den
                     <= den).
  { destruct (Z.eqb_spec den 1) as [->|_]; [lia|].
    now apply round_half_even_near. }
  split.
  - destruct (Z.eqb_spec den 1) as [->|_]; [nia|]. nia.
  - rewrite Habs.
    setoid_replace (inject_Z num / inject_Z den * inject_Z (10 ^ p))%Q
      with (inject_Z (num * 10 ^ p) / inject_Z den)%Q
      by (rewrite inject_Z_mult; unfold Qdiv; ring).
    now apply fraction_near_le.
Qed.

Lemma inject_Z_pos (z : Z) : 0 < z -> (0 < inject_Z z)%Q.
Proof. intros H. change 0%Q with (inject_Z 0). now rewrite <- Zlt_Qlt. Qed.

(** The float that a decimal numeral is read as is near the number that
    the numeral denotes. *)
Lemma decimal_to_float_close (neg : bool) (m : positive) (p : Z) :
  0 <= p ->
  (inject_Z (Z.pos m) / inject_Z (10 ^ p) < pow2 1023)%Q ->
  close (decimal_to_float neg m (- p))
        (sg neg * (inject_Z (Z.pos m) / inject_Z (10 ^ p))).
Proof.
  intros Hp Hb. unfold decimal_to_float.
  assert (H10 : 0 < 10 ^ p) by (apply Z.pow_pos_nonneg; lia).
  assert (Hv : (0 <= inject_Z (Z.pos m) / inject_Z (10 ^ p))%Q).
  { apply Qle_shift_div_l; [now apply inject_Z_pos|].
    rewrite Qmult_0_l. change 0%Q with (inject_Z 0). apply inject_Z_le. lia. }
  destruct (Z.leb_spec 0 (- p)) as [Hz|Hz].
  - assert (p = 0) by lia. subst p. cbn [Z.opp Z.pow] in *.
    eapply close_proper;
      [|apply (normalize_close ((if neg then Z.neg m else Z.pos m) * 1) 0)].
    + change (pow2 0) with 1%Q. rewrite Z.mul_1_r.
      unfold Qdiv. change (/ inject_Z 1)%Q with 1%Q.
      destruct neg; cbn [sg]; [|ring].
      change (Z.neg m) with (- Z.pos m). rewrite inject_Z_opp. ring.
    + change (pow2 0) with 1%Q. rewrite Z.mul_1_r, Qmult_1_r.
      unfold Qdiv in Hb. change (/ inject_Z 1)%Q with 1%Q in Hb.
      rewrite Qmult_1_r in Hb.
      destruct neg; [|rewrite Qabs_pos; [exact Hb|]].
      * change (Z.neg m) with (- Z.pos m). rewrite inject_Z_opp, Qabs_opp.
        rewrite Qabs_pos; [exact Hb|].
        change 0%Q with (inject_Z 0). apply inject_Z_le. lia.
      * change 0%Q with (inject_Z 0). apply inject_Z_le. lia.
  - assert (Hnum : (Binary64.to_Q (S754_finite neg m 0)
                    == sg neg * inject_Z (Z.pos m))%Q).
    { rewrite to_Q_finite. change (pow2 0) with 1%Q. ring. }
    assert (Hden : (Binary64.to_Q (S754_finite false (Z.to_pos (10 ^ p)) 0)
                    == inject_Z (10 ^ p))%Q).
    { rewrite to_Q_finite. change (pow2 0) with 1%Q. cbn [sg].
      rewrite Z2Pos.id by exact H10. ring. }
    replace (- - p) with p by lia.
    eapply close_proper; [|apply div_close; [reflexivity|]].
    + rewrite Hnum, Hden. unfold Qdiv. ring.
    + rewrite Hnum, Hden.
      setoid_replace (sg neg * inject_Z (Z.pos m) * / inject_Z (10 ^ p))%Q
        with (sg neg * (inject_Z (Z.pos m) / inject_Z (10 ^ p)))%Q
        by (unfold Qdiv; ring).
      rewrite Qabs_sg by exact Hv. exact Hb.
Qed.

(** The sign of a float that is near a number that is not too small. *)
Lemma to_Q_sign (r : float) :
  Binary64.is_finite r = true ->
  ((0 < Binary64.to_Q r)%Q -> sign_bit r = false)
  /\ ((Binary64.to_Q r < 0)%Q -> sign_bit r = true).
Proof.
  intros Hr. unfold float in r. destruct r as [s|s| |s m e]; try discriminate Hr.
  - split; intros H; cbn in H; lra.
  - assert (Hv : (0 < inject_Z (Z.pos m) * pow2 e)%Q).
    { apply Qmult_lt_0_compat; [now apply inject_Z_pos | apply pow2_pos]. }
    rewrite to_Q_finite. destruct s; cbn [sg sign_bit]; split; intros H;
      try reflexivity; lra.
Qed.

Lemma close_sign (r : float) (neg : bool) (v : Q) :
  close r (sg neg * v) -> (pow2 (-1000) <= v)%Q -> sign_bit r = neg.
Proof.
  intros [Hf H] Hv.
  assert (Hsmall : (pow2 (-1000) == 1024 * pow2 (-1010))%Q).
  { change 1024%Q with (pow2 10). now rewrite <- pow2_add. }
  assert (Heta : (eta64 <= pow2 (-1010))%Q) by (apply pow2_le; lia).
  pose proof (pow2_pos (-1010)) as Hpos.
  rewrite u64_value in H.
  assert (Habs : (Qabs (sg neg * v) == v)%Q) by (apply Qabs_sg; lra).
  rewrite Habs in H. apply Qabs_Qle_condition in H.
  destruct (to_Q_sign r Hf) as [Hp Hn].
  destruct neg; cbn [sg] in H; [apply Hn | apply Hp]; lra.
Qed.

Lemma pow10_pos (p : Z) : 0 <= p -> 0 < 10 ^ p.
Proof. intros H. apply Z.pow_pos_nonneg; lia. Qed.

Lemma pow10_le (p b : Z) : 0 <= p <= b -> 10 ^ p <= 10 ^ b.
Proof. intros H. apply Z.pow_le_mono_r; lia. Qed.

Lemma inject_Z_lt_pow2 (z e : Z) : 0 <= e -> z < 2 ^ e -> (inject_Z z < pow2 e)%Q.
Proof. intros He H. rewrite <- pow2_inject by exact He. now rewrite <- Zlt_Qlt. Qed.

Lemma fraction_le (n d : Z) : 0 <= n -> 0 < d -> (0 <= inject_Z n / inject_Z d <= inject_Z n)%Q.
Proof.
  intros Hn Hd. split.
  - apply Qle_shift_div_l; [now apply inject_Z_pos|].
    rewrite Qmult_0_l. change 0%Q with (inject_Z 0). now apply inject_Z_le.
  - apply Qle_shift_div_r; [now apply inject_Z_pos|].
    rewrite <- inject_Z_mult. apply inject_Z_le. nia.
Qed.

(** What [float] reads a decimal numeral as. *)
Lemma decimal_read (neg : bool) (n q : Z) :
  0 <= n < 2 ^ 60 -> 0 <= q <= 18 ->
  exists x : float,
    py_float (decimal neg n q) = Some x
    /\ sign_bit x = neg
    /\ close x (decimal_value neg n q).
Proof.
  intros Hn Hq. rewrite py_float_decimal by lia. unfold decimal_value.
  destruct n as [|m|m]; [| |lia].
  - exists (S754_zero neg). repeat split.
    apply close_exact; [reflexivity|]. rewrite to_Q_zero.
    unfold Qdiv. change (inject_Z 0) with 0%Q. ring.
  - pose proof (pow10_pos q ltac:(lia)) as H10.
    destruct (fraction_le (Z.pos m) (10 ^ q)) as [H0 H1]; [lia | exact H10 |].
    assert (Hb : (inject_Z (Z.pos m) / inject_Z (10 ^ q) < pow2 1023)%Q).
    { eapply Qle_lt_trans; [exact H1|].
      eapply Qlt_le_trans; [apply (inject_Z_lt_pow2 _ 60); lia|].
      apply pow2_le. lia. }
    pose proof (decimal_to_float_close neg m q ltac:(lia) Hb) as Hc.
    exists (decimal_to_float neg m (- q)). repeat split; try apply Hc.
    apply (close_sign _ _ _ Hc).
    apply Qle_shift_div_l; [now apply inject_Z_pos|].
    apply Qle_trans with 1%Q.
    + assert (Hp : (inject_Z (10 ^ q) <= pow2 1000)%Q).
      { apply Qlt_le_weak. apply inject_Z_lt_pow2; [lia|].
        apply Z.le_lt_trans with (10 ^ 18); [apply pow10_le; lia|].
        apply Z.lt_le_trans with (2 ^ 60); [reflexivity|].
        apply Z.pow_le_mono_r; lia. }
      assert (E : (pow2 (-1000) * pow2 1000 == 1)%Q)
        by (rewrite <- pow2_add; reflexivity).
      rewrite <- E. apply Qmult_le_l; [apply pow2_pos | exact Hp].
    + change 1%Q with (inject_Z 1). apply inject_Z_le. lia.
Qed.

Lemma Qabs_Qabs_diff (a b : Q) : (Qabs (Qabs a - Qabs b) <= Qabs (a - b))%Q.
Proof.
  apply Qabs_Qle_condition. split.
  - pose proof (Qabs_triangle_reverse b a) as H.
    setoid_replace (b - a)%Q with (- (a - b))%Q in H by ring.
    rewrite Qabs_opp in H. lra.
  - apply Qabs_triangle_reverse.
Qed.

(** A float that is near a multiple [k / 10 ^ p] of the decimal unit is
    written as that multiple. *)
Lemma format_fixed_near (x : float) (p k : Z) (neg : bool) :
  Binary64.is_finite x = true -> 0 <= p -> 0 <= k -> sign_bit x = neg ->
  (Qabs (Binary64.to_Q x * inject_Z (10 ^ p) - sg neg * inject_Z k) < 1 # 2)%Q ->
  format_fixed x p = decimal neg k p.
Proof.
  intros Hx Hp Hk Hs H. rewrite format_fixed_decimal by exact Hx.
  rewrite Hs. f_equal. apply scaled_magnitude_nearest; [exact Hx | exact Hp |].
  eapply Qle_lt_trans; [|exact H].
  assert (H10 : (0 <= inject_Z (10 ^ p))%Q).
  { apply Qlt_le_weak, inject_Z_pos, pow10_pos, Hp. }
  assert (E1 : (Qabs (Binary64.to_Q x) * inject_Z (10 ^ p)
                == Qabs (Binary64.to_Q x * inject_Z (10 ^ p)))%Q).
  { rewrite Qabs_Qmult, (Qabs_pos (inject_Z (10 ^ p))) by exact H10. reflexivity. }
  assert (E2 : (inject_Z k == Qabs (sg neg * inject_Z k))%Q).
  { rewrite Qabs_sg; [reflexivity|].
    change 0%Q with (inject_Z 0). now apply inject_Z_le. }
  rewrite E1, E2 at 1. apply Qabs_Qabs_diff.
Qed.

Lemma Qabs_mult_bound (a b A B : Q) :
  (Qabs a <= A)%Q -> (Qabs b <= B)%Q -> (Qabs (a * b) <= A * B)%Q.
Proof.
  intros Ha Hb. rewrite Qabs_Qmult.
  apply Qmult_le_compat_nonneg; split; auto using Qabs_nonneg.
Qed.

(** [int] reads the numeral of a natural number as that number. *)
Lemma py_int_decimal (p : Z) : 0 <= p -> py_int (decimal false p 0) = Some p.
Proof.
  intros Hp.
  destruct (decimal_chars false p 0 Hp ltac:(lia))
    as (c & d & fr & Hch & Hcd & Hfr & Hlen & Hv).
  destruct fr; [|discriminate Hlen].
  cbn [Z.eqb app] in Hch. rewrite !app_nil_r in *.
  unfold py_int. rewrite Hch.
  destruct (numeral_plain _ (digits_numeral _ Hcd)) as [Hs Hu]. rewrite Hs, Hu.
  assert (Hc : is_digit c = true).
  { cbn in Hcd. now apply andb_true_iff in Hcd as [Hc _]. }
  assert (Hsign : read_sign (c :: d) = (false, c :: d)).
  { cbn. rewrite (digit_is_not_minus c Hc).
    unfold is_char. destruct (Ascii.eqb_spec c "+") as [->|]; [discriminate Hc|].
    reflexivity. }
  rewrite Hsign. rewrite <- (app_nil_r (c :: d)) at 1.
  rewrite span_digits_app; [|exact Hcd|exact I]. now rewrite Hv.
Qed.

(** The two command lines with the value and the precision attached. *)
Lemma parse_fahrenheit_precision (v s : string) (x : float) :
  py_float v = Some x ->
  parse_args ["--fahrenheit=" ++ v; "--precision=" ++ s] =
  match py_int s with
  | Some n =>
      if in_choices n
      then Parsed {| celsius := None; fahrenheit := Some x; precision := n |}
      else UsageError (InvalidChoice Precision n)
  | None => UsageError (InvalidValue Precision s)
  end.
Proof.
  intros Hv. unfold parse_args.
  rewrite (classify_two _ _ Fahrenheit Precision "--fahrenheit" "--precision"
             (Some v) (Some s)) by reflexivity.
  cbn [and_then]. rewrite !consume_value_option by discriminate.
  unfold take_action at 1. rewrite Hv. cbn [conflicts filter seen initial
    seen_non_default_actions existsb and_then].
  rewrite consume_value_option by discriminate.
  unfold take_action. destruct (py_int s) as [n|]; [|reflexivity].
  destruct (in_choices n); [|reflexivity].
  destruct (n =? 2); reflexivity.
Qed.

Lemma main_with_precision (v : string) (x : float) (p : Z) :
  py_float v = Some x -> 0 <= p <= 5 ->
  main ["--celsius=" ++ v; "--precision=" ++ decimal false p 0] None
  = printed (conversion_line x (fahrenheit_of x) "C" "F" p)
  /\ main ["--fahrenheit=" ++ v; "--precision=" ++ decimal false p 0] None
     = printed (conversion_line x (celsius_of x) "F" "C" p).
Proof.
  intros Hv Hp.
  assert (Hc : in_choices p = true) by (apply in_choices_range; lia).
  split.
  - rewrite (main_parsed _ {| celsius := Some x; fahrenheit := None;
                              precision := p |}); [reflexivity|].
    rewrite (parse_celsius_precision _ _ _ Hv), py_int_decimal by lia.
    now rewrite Hc.
  - rewrite (main_parsed _ {| celsius := None; fahrenheit := Some x;
                              precision := p |}); [reflexivity|].
    rewrite (parse_fahrenheit_precision _ _ _ Hv), py_int_decimal by lia.
    now rewrite Hc.
Qed.

(** A float that is near a number [sg neg * v] which is itself near a
    multiple [k / 10 ^ p] of the decimal unit, and not near a tie, is
    written as that multiple. *)
Lemma printed_of_estimate (r : float) (p k : Z) (neg : bool) (v : Q) :
  Binary64.is_finite r = true -> 0 <= p <= 5 -> 0 <= k ->
  (Qabs (Binary64.to_Q r - sg neg * v) <= 1 # 2097152)%Q ->
  (1 # 1000000 <= v)%Q ->
  (Qabs (v * inject_Z (10 ^ p) - inject_Z k) <= 4 # 9)%Q ->
  format_fixed r p = decimal neg k p.
Proof.
  intros Hr Hp Hk He Hv Hn.
  assert (Hs : sign_bit r = neg).
  { destruct (to_Q_sign r Hr) as [Hpos Hneg].
    apply Qabs_Qle_condition in He.
    destruct neg; cbn [sg] in He; [apply Hneg | apply Hpos]; lra. }
  apply format_fixed_near; [exact Hr | lia | exact Hk | exact Hs |].
  assert (HP : (Qabs (inject_Z (10 ^ p)) <= 100000)%Q).
  { rewrite Qabs_pos by (apply Qlt_le_weak, inject_Z_pos, pow10_pos; lia).
    change 100000%Q with (inject_Z (10 ^ 5)). apply inject_Z_le, pow10_le. lia. }
  pose proof (Qabs_mult_bound _ _ _ _ He HP) as H1.
  apply Qabs_Qle_condition in H1.
  assert (H2 : (Qabs (sg neg * (v * inject_Z (10 ^ p) - inject_Z k)) <= 4 # 9)%Q).
  { rewrite Qabs_Qmult.
    replace (Qabs (sg neg)) with 1%Q by (now destruct neg).
    now rewrite Qmult_1_l. }
  apply Qabs_Qle_condition in H2.
  apply Qabs_lt_intro.
  set (R := Binary64.to_Q r) in *. set (P := inject_Z (10 ^ p)) in *.
  set (K := inject_Z k) in *. set (S := sg neg) in *.
  setoid_replace (R * P - S * K)%Q
    with ((R - S * v) * P + S * (v * P - K))%Q by ring.
  lra.
Qed.

Lemma pow10_split (q p : Z) :
  0 <= q <= p ->
  (inject_Z (10 ^ p) == inject_Z (10 ^ q) * inject_Z (10 ^ (p - q)))%Q.
Proof.
  intros H. rewrite <- inject_Z_mult, <- Z.pow_add_r by lia.
  now replace (q + (p - q)) with p by lia.
Qed.

Lemma inject_Z_pow10_neq (q : Z) : 0 <= q -> ~ (inject_Z (10 ^ q) == 0)%Q.
Proof.
  intros Hq E. pose proof (inject_Z_pos _ (pow10_pos q Hq)) as H.
  rewrite E in H. now apply Qlt_irrefl in H.
Qed.

Lemma decimal_value_bound (neg : bool) (n q : Z) :
  0 <= q -> 0 <= n <= 100000000 * 10 ^ q ->
  (Qabs (decimal_value neg n q) <= 100000000)%Q.
Proof.
  intros Hq Hn. unfold decimal_value.
  pose proof (pow10_pos q Hq) as H10.
  rewrite Qabs_sg by (apply fraction_le; lia).
  apply Qle_shift_div_r; [now apply inject_Z_pos|].
  change 100000000%Q with (inject_Z 100000000).
  rewrite <- inject_Z_mult. apply inject_Z_le. lia.
Qed.

(** The conversions of a float that is near a number of magnitude [10 ^ 8]
    at most are near the conversions of that number. *)
Lemma conversion_estimate (x : float) (C : Q) :
  close x C -> (Qabs C <= 100000000)%Q ->
  (Qabs (Binary64.to_Q x - C) <= 1 # 67108864)%Q
  /\ Binary64.is_finite (fahrenheit_of x) = true
  /\ (Qabs (Binary64.to_Q (fahrenheit_of x) - (C * 9 / 5 + 32))
      <= 1 # 4194304)%Q
  /\ Binary64.is_finite (celsius_of x) = true
  /\ (Qabs (Binary64.to_Q (celsius_of x) - ((C - 32) * 5 / 9))
      <= 1 # 4194304)%Q.
Proof.
  intros Hc HC.
  pose proof (close_bound x C 100000000 Hc HC) as Hx.
  pose proof eta64_pos as Heta0. pose proof eta64_small as Heta.
  apply Qabs_Qle_condition in HC.
  assert (HP1 : (1024 <= pow2 1019)%Q).
  { change 1024%Q with (pow2 10). apply pow2_le. lia. }
  assert (HP2 : (pow2 30 <= pow2 1019)%Q) by (apply pow2_le; lia).
  change (pow2 30) with 1073741824%Q in HP2.
  assert (HX : (Qabs (Binary64.to_Q x) <= 100000001)%Q)
    by (apply Qabs_le_intro; lra).
  assert (HXP : (Qabs (Binary64.to_Q x) <= pow2 1019)%Q) by lra.
  destruct Hc as [Hfx _].
  destruct (fahrenheit_of_accuracy x Hfx HXP) as [Hf Ef].
  destruct (celsius_of_accuracy x Hfx HXP) as [Hg Eg].
  revert Ef Eg.
  change (pow2 (-50)) with (1 # 1125899906842624)%Q.
  change (pow2 (-51)) with (1 # 2251799813685248)%Q.
  change (pow2 (-47)) with (1 # 140737488355328)%Q.
  unfold Qdiv. change (/ 5)%Q with (1 # 5)%Q. change (/ 9)%Q with (1 # 9)%Q.
  intros Ef Eg. apply Qabs_Qle_condition in Ef, Eg.
  set (X := Qabs (Binary64.to_Q x)) in *.
  set (F := Binary64.to_Q (fahrenheit_of x)) in *.
  set (G := Binary64.to_Q (celsius_of x)) in *.
  set (R := Binary64.to_Q x) in *.
  split; [apply Qabs_le_intro; lra|].
  split; [exact Hf|]. split; [apply Qabs_le_intro; lra|].
  split; [exact Hg|]. apply Qabs_le_intro; lra.
Qed.

(** A decimal numeral with [q] decimals is written back, with [p >= q]
    decimals, as itself with zeros added. *)
Lemma decimal_echo (neg : bool) (n q p : Z) (x : float) :
  0 <= q <= p -> p <= 5 -> 0 <= n <= 100000000 * 10 ^ q ->
  sign_bit x = neg -> close x (decimal_value neg n q) ->
  format_fixed x p = decimal neg (n * 10 ^ (p - q)) p.
Proof.
  intros Hq Hp Hn Hs Hc.
  pose proof (pow10_pos (p - q) ltac:(lia)) as H10.
  destruct (conversion_estimate x _ Hc (decimal_value_bound neg n q ltac:(lia) Hn))
    as (He & _).
  apply format_fixed_near; [apply Hc | lia | nia | exact Hs |].
  assert (HP : (Qabs (inject_Z (10 ^ p)) <= 100000)%Q).
  { rewrite Qabs_pos by (apply Qlt_le_weak, inject_Z_pos, pow10_pos; lia).
    change 100000%Q with (inject_Z (10 ^ 5)). apply inject_Z_le, pow10_le. lia. }
  pose proof (Qabs_mult_bound _ _ _ _ He HP) as H1.
  assert (E : (sg neg * inject_Z (n * 10 ^ (p - q))
               == decimal_value neg n q * inject_Z (10 ^ p))%Q).
  { unfold decimal_value. rewrite (pow10_split q p) by lia.
    rewrite inject_Z_mult. field. apply inject_Z_pow10_neq. lia. }
  rewrite E.
  setoid_replace (Binary64.to_Q x * inject_Z (10 ^ p)
                  - decimal_value neg n q * inject_Z (10 ^ p))%Q
    with ((Binary64.to_Q x - decimal_value neg n q) * inject_Z (10 ^ p))%Q
    by ring.
  eapply Qle_lt_trans; [exact H1|]. reflexivity.
Qed.

Lemma scaled_magnitude_bound (x : float) (p : Z) :
  Binary64.is_finite x = true -> 0 <= p ->
  (Qabs (Binary64.to_Q x) <= 100000000)%Q ->
  0 <= scaled_magnitude x p <= 100000000 * 10 ^ p.
Proof.
  intros Hx Hp Hb.
  destruct (scaled_magnitude_near x p Hx Hp) as [H0 H].
  split; [exact H0|].
  pose proof (inject_Z_pos _ (pow10_pos p Hp)) as H10.
  apply Qabs_Qle_condition in H.
  assert (H1 : (Qabs (Binary64.to_Q x) * inject_Z (10 ^ p)
                <= 100000000 * inject_Z (10 ^ p))%Q)
    by (apply Qmult_le_compat_r; [exact Hb | lra]).
  assert (H2 : (inject_Z (scaled_magnitude x p)
                < inject_Z (100000000 * 10 ^ p + 1))%Q).
  { rewrite inject_Z_plus, inject_Z_mult.
    change (inject_Z 100000000) with 100000000%Q.
    change (inject_Z 1) with 1%Q. lra. }
  rewrite <- Zlt_Qlt in H2. lia.
Qed.

(** X5: what the program prints can be read back. For a finite float [x]
    of magnitude [10 ^ 8] at most and a precision from 0 to 5, [float]
    accepts the numeral that [x] is written as; the float it gives is
    within one unit of the last decimal of [x] and is written as the same
    numeral; so the program, given the numeral as the temperature, echoes
    it. *)
Theorem printed_number_reads_back (x : float) (p : Z) :
  Binary64.is_finite x = true ->
  (Qabs (Binary64.to_Q x) <= 100000000)%Q ->
  0 <= p <= 5 ->
  exists x' : float,
    py_float (format_fixed x p) = Some x'
    /\ Binary64.is_finite x' = true
    /\ format_fixed x' p = format_fixed x p
    /\ (Qabs (Binary64.to_Q x' - Binary64.to_Q x) * inject_Z (10 ^ p) <= 1)%Q
    /\ main ["--celsius=" ++ format_fixed x p;
             "--precision=" ++ decimal false p 0] None
       = printed (format_fixed x p ++ degree ++ "C = "
                  ++ format_fixed (fahrenheit_of x') p ++ degree ++ "F").
Proof.
  intros Hx Hb Hp.
  pose proof (scaled_magnitude_bound x p Hx ltac:(lia) Hb) as Hn.
  pose proof (format_fixed_decimal x p Hx) as Hfmt.
  set (n := scaled_magnitude x p) in *. set (neg := sign_bit x) in *.
  assert (Hn60 : 0 <= n < 2 ^ 60).
  { split; [lia|]. apply Z.le_lt_trans with (100000000 * 10 ^ 5); [|reflexivity].
    pose proof (pow10_le p 5 ltac:(lia)). lia. }
  destruct (decimal_read neg n p Hn60 ltac:(lia)) as (x' & Hpy & Hs & Hc).
  exists x'. rewrite Hfmt, Hpy.
  assert (Hecho : format_fixed x' p = decimal neg n p).
  { rewrite (decimal_echo neg n p p x') by (auto; lia).
    now rewrite Z.sub_diag, Z.pow_0_r, Z.mul_1_r. }
  split; [reflexivity|]. split; [apply Hc|]. split; [exact Hecho|]. split.
  - (* both floats are within half a unit of n / 10 ^ p *)
    destruct (scaled_magnitude_near x p Hx ltac:(lia)) as [_ H1]. fold n in H1.
    destruct (conversion_estimate x' _ Hc
                (decimal_value_bound neg n p ltac:(lia) Hn)) as (He & _).
    pose proof (inject_Z_pos _ (pow10_pos p ltac:(lia))) as H10.
    assert (HP : (Qabs (inject_Z (10 ^ p)) <= 100000)%Q).
    { rewrite Qabs_pos by lra.
      change 100000%Q with (inject_Z (10 ^ 5)). apply inject_Z_le, pow10_le. lia. }
    pose proof (Qabs_mult_bound _ _ _ _ He HP) as H2.
    assert (E : (decimal_value neg n p * inject_Z (10 ^ p)
                 == sg neg * inject_Z n)%Q).
    { unfold decimal_value. field. apply inject_Z_pow10_neq. lia. }
    assert (Hxs : (Binary64.to_Q x == sg neg * Qabs (Binary64.to_Q x))%Q).
    { destruct (to_Q_sign x Hx) as [Hpos Hneg]. subst neg.
      destruct (Qlt_le_dec (Binary64.to_Q x) 0) as [L|L].
      - rewrite (Hneg L). cbn [sg]. rewrite Qabs_neg by lra. ring.
      - destruct (Qle_lt_or_eq _ _ L) as [L'|L'].
        + rewrite (Hpos L'). cbn [sg]. rewrite Qabs_pos by lra. ring.
        + rewrite <- L'. change (Qabs 0) with 0%Q. ring. }
    assert (H3 : (Qabs (sg neg * (inject_Z n
                                  - Qabs (Binary64.to_Q x) * inject_Z (10 ^ p)))
                  <= 1 # 2)%Q).
    { rewrite Qabs_Qmult.
      replace (Qabs (sg neg)) with 1%Q by (now destruct neg).
      now rewrite Qmult_1_l. }
    assert (EP : (Qabs (Binary64.to_Q x' - Binary64.to_Q x) * inject_Z (10 ^ p)
                  == Qabs ((Binary64.to_Q x' - Binary64.to_Q x)
                           * inject_Z (10 ^ p)))%Q).
    { rewrite Qabs_Qmult, (Qabs_pos (inject_Z (10 ^ p))) by lra. reflexivity. }
    rewrite EP.
    apply Qabs_Qle_condition in H2, H3. apply Qabs_le_intro.
    set (P := inject_Z (10 ^ p)) in *. set (R' := Binary64.to_Q x') in *.
    set (D := decimal_value neg n p) in *. set (N := inject_Z n) in *.
    set (A := Qabs (Binary64.to_Q x)) in *. set (S := sg neg) in *.
    assert (Eg : ((R' - Binary64.to_Q x) * P
                  == (R' - D) * P + S * (N - A * P))%Q).
    { rewrite Hxs.
      setoid_replace ((R' - D) * P)%Q with (R' * P - D * P)%Q by ring.
      rewrite E. ring. }
    rewrite Eg. lra.
  - destruct (main_with_precision _ x' p Hpy ltac:(lia)) as [Hm _].
    rewrite Hm. unfold conversion_line. now rewrite Hecho.
Qed.

Lemma printed_number_reads_back_witness :
  exists x' : float,
    py_float (format_fixed (S754_finite false 6938358175917670 (-46)) 1)
    = Some x'
    /\ Binary64.is_finite x' = true
    /\ format_fixed x' 1
       = format_fixed (S754_finite false 6938358175917670 (-46)) 1
    /\ (Qabs (Binary64.to_Q x'
              - Binary64.to_Q (S754_finite false 6938358175917670 (-46)))
        * inject_Z (10 ^ 1) <= 1)%Q
    /\ main ["--celsius="
             ++ format_fixed (S754_finite false 6938358175917670 (-46)) 1;
             "--precision=" ++ decimal false 1 0] None
       = printed (format_fixed (S754_finite false 6938358175917670 (-46)) 1
                  ++ degree ++ "C = "
                  ++ format_fixed (fahrenheit_of x') 1 ++ degree ++ "F").
Proof.
  apply (printed_number_reads_back
           (S754_finite false 6938358175917670 (-46)) 1).
  - reflexivity.
  - apply Qle_bool_iff. vm_compute. reflexivity.
  - lia.
Defined.

Lemma sg_abs (k : Z) : (sg (k <? 0) * inject_Z (Z.abs k) == inject_Z k)%Q.
Proof.
  destruct (Z.ltb_spec k 0) as [H|H]; cbn [sg].
  - rewrite Z.abs_neq by lia. rewrite inject_Z_opp. ring.
  - rewrite Z.abs_eq by lia. ring.
Qed.

Lemma signed_inject (neg : bool) (n : Z) :
  (inject_Z (if neg then - n else n) == sg neg * inject_Z n)%Q.
Proof. destruct neg; cbn [sg]; [rewrite inject_Z_opp|]; ring. Qed.

Lemma unit_fraction_bound (k p : Z) :
  0 <= p <= 5 -> 1 <= k ->
  (1 # 1000000 <= inject_Z k / inject_Z (10 ^ p))%Q.
Proof.
  intros Hp Hk. pose proof (pow10_pos p ltac:(lia)) as H10.
  apply Qle_shift_div_l; [now apply inject_Z_pos|].
  apply Qle_trans with 1%Q.
  - apply Qle_trans with ((1 # 1000000) * inject_Z (10 ^ 5))%Q;
      [|apply Qle_bool_iff; reflexivity].
    apply Qmult_le_l; [reflexivity|]. apply inject_Z_le, pow10_le. lia.
  - change 1%Q with (inject_Z 1). now apply inject_Z_le.
Qed.

(** X3: a Celsius temperature that is written as a decimal numeral with
    [q] decimals, of magnitude [10 ^ 8] at most, with a precision [p > q]:
    the program prints the numeral with [p] decimals, and the exact
    Fahrenheit value [c * 9 / 5 + 32] (which has [q + 1] decimals at
    most). The rounding of [float], of the three operations and of the
    formatting does not show. *)
Theorem celsius_decimal_is_converted_exactly (neg : bool) (n q p : Z) :
  0 <= q < p -> p <= 5 -> 0 <= n <= 100000000 * 10 ^ q ->
  let k := ((if neg then - n else n) * 18 + 320 * 10 ^ q) * 10 ^ (p - q - 1) in
  main ["--celsius=" ++ decimal neg n q;
        "--precision=" ++ decimal false p 0] None
  = printed (decimal neg (n * 10 ^ (p - q)) p ++ degree ++ "C = "
             ++ decimal (k <? 0) (Z.abs k) p ++ degree ++ "F").
Proof.
  intros Hq Hp Hn k.
  pose proof (pow10_pos q ltac:(lia)) as Hq10.
  pose proof (pow10_pos (p - q - 1) ltac:(lia)) as Hr10.
  assert (Hn60 : 0 <= n < 2 ^ 60).
  { split; [lia|]. apply Z.le_lt_trans with (100000000 * 10 ^ 5); [|reflexivity].
    pose proof (pow10_le q 5 ltac:(lia)). lia. }
  destruct (decimal_read neg n q Hn60 ltac:(lia)) as (x & Hpy & Hs & Hc).
  destruct (main_with_precision _ x p Hpy ltac:(lia)) as [Hm _].
  rewrite Hm. unfold conversion_line.
  rewrite (decimal_echo neg n q p x) by (auto; lia).
  destruct (conversion_estimate x _ Hc (decimal_value_bound neg n q ltac:(lia) Hn))
    as (_ & Hf & Ef & _).
  assert (Hk : k <> 0).
  { unfold k. intros E. apply Z.mul_eq_0 in E as [E|E]; [|lia].
    assert (Hq' : q = 0 \/ q = 1 \/ q = 2 \/ q = 3 \/ q = 4) by lia.
    destruct neg; destruct Hq' as [->|[->|[->|[->| ->]]]]; cbn in E; lia. }
  assert (Ek : (decimal_value neg n q * 9 / 5 + 32
                == sg (k <? 0) * (inject_Z (Z.abs k) / inject_Z (10 ^ p)))%Q).
  { unfold Qdiv at 2. rewrite Qmult_assoc, sg_abs. unfold k, decimal_value.
    replace p with (q + (1 + (p - q - 1))) at 2 by lia.
    rewrite !Z.pow_add_r by lia. change (10 ^ 1) with 10.
    rewrite !inject_Z_mult, inject_Z_plus, !inject_Z_mult, signed_inject.
    change (inject_Z 18) with 18%Q. change (inject_Z 320) with 320%Q.
    change (inject_Z 10) with 10%Q.
    field. split; apply inject_Z_pow10_neq; lia. }
  rewrite (printed_of_estimate (fahrenheit_of x) p (Z.abs k) (k <? 0)
             (inject_Z (Z.abs k) / inject_Z (10 ^ p))); [reflexivity | exact Hf | lia | lia | | |].
  - rewrite <- Ek. eapply Qle_trans; [exact Ef|]. discriminate.
  - apply unit_fraction_bound; lia.
  - setoid_replace (inject_Z (Z.abs k) / inject_Z (10 ^ p) * inject_Z (10 ^ p)
                    - inject_Z (Z.abs k))%Q with 0%Q
      by (field; apply inject_Z_pow10_neq; lia).
    discriminate.
Qed.

Lemma celsius_decimal_is_converted_exactly_witness :
  main ["--celsius=" ++ decimal false 366 1;
        "--precision=" ++ decimal false 2 0] None
  = printed (decimal false (366 * 10 ^ (2 - 1)) 2 ++ degree ++ "C = "
             ++ decimal ((366 * 18 + 320 * 10 ^ 1) * 10 ^ (2 - 1 - 1) <? 0)
                  (Z.abs ((366 * 18 + 320 * 10 ^ 1) * 10 ^ (2 - 1 - 1))) 2
             ++ degree ++ "F").
Proof.
  apply (celsius_decimal_is_converted_exactly false 366 1 2); lia.
Defined.

Lemma inject_Z_sub (a b : Z) : (inject_Z (a - b) == inject_Z a - inject_Z b)%Q.
Proof. unfold Z.sub. rewrite inject_Z_plus, inject_Z_opp. ring. Qed.

Lemma ninths_nearest (m : Z) :
  0 <= m ->
  0 <= round_half_even m 9
  /\ (Qabs (inject_Z m / 9 - inject_Z (round_half_even m 9)) <= 4 # 9)%Q.
Proof.
  intros Hm. pose proof (round_half_even_near m 9 ltac:(lia)) as H.
  set (k := round_half_even m 9) in *.
  split; [lia|].
  apply Qabs_Qle_condition.
  unfold Qdiv. change (/ 9)%Q with (1 # 9)%Q.
  unfold Qle, Qminus, Qplus, Qmult, Qopp, inject_Z. cbn. lia.
Qed.

(** X4: a Fahrenheit temperature that is written as a decimal numeral
    with [q] decimals, of magnitude [10 ^ 8] at most and other than 32,
    with a precision [p >= q]: the program prints the numeral with [p]
    decimals, and the number with [p] decimals that is nearest to the
    exact Celsius value [(f - 32) * 5 / 9], with the sign of that value.
    The exact value times [10 ^ p] is [N / 9] for an integer [N], so
    there is no tie. *)
Theorem fahrenheit_decimal_is_converted_correctly (neg : bool) (n q p : Z) :
  0 <= q <= p -> p <= 5 -> 0 <= n <= 100000000 * 10 ^ q ->
  let N := ((if neg then - n else n) - 32 * 10 ^ q) * 5 * 10 ^ (p - q) in
  N <> 0 ->
  main ["--fahrenheit=" ++ decimal neg n q;
        "--precision=" ++ decimal false p 0] None
  = printed (decimal neg (n * 10 ^ (p - q)) p ++ degree ++ "F = "
             ++ decimal (N <? 0) (round_half_even (Z.abs N) 9) p
             ++ degree ++ "C").
Proof.
  intros Hq Hp Hn N HN.
  pose proof (pow10_pos q ltac:(lia)) as Hq10.
  pose proof (pow10_pos (p - q) ltac:(lia)) as Hr10.
  assert (Hn60 : 0 <= n < 2 ^ 60).
  { split; [lia|]. apply Z.le_lt_trans with (100000000 * 10 ^ 5); [|reflexivity].
    pose proof (pow10_le q 5 ltac:(lia)). lia. }
  destruct (decimal_read neg n q Hn60 ltac:(lia)) as (x & Hpy & Hs & Hc).
  destruct (main_with_precision _ x p Hpy ltac:(lia)) as [_ Hm].
  rewrite Hm. unfold conversion_line.
  rewrite (decimal_echo neg n q p x) by (auto; lia).
  destruct (conversion_estimate x _ Hc (decimal_value_bound neg n q ltac:(lia) Hn))
    as (_ & _ & _ & Hg & Eg).
  destruct (ninths_nearest (Z.abs N) ltac:(lia)) as [Hk0 Hk].
  set (k := round_half_even (Z.abs N) 9) in *.
  set (v := (inject_Z (Z.abs N) / 9 / inject_Z (10 ^ p))%Q).
  assert (Ev : ((decimal_value neg n q - 32) * 5 / 9 == sg (N <? 0) * v)%Q).
  { unfold v, Qdiv. rewrite !Qmult_assoc, sg_abs. unfold N, decimal_value.
    replace p with (q + (p - q)) at 2 by lia.
    rewrite !Z.pow_add_r by lia.
    rewrite !inject_Z_mult, inject_Z_sub, !inject_Z_mult, signed_inject.
    change (inject_Z 32) with 32%Q. change (inject_Z 5) with 5%Q.
    field. split; apply inject_Z_pow10_neq; lia. }
  rewrite (printed_of_estimate (celsius_of x) p k (N <? 0) v);
    [reflexivity | exact Hg | lia | exact Hk0 | | |].
  - rewrite <- Ev. eapply Qle_trans; [exact Eg|]. discriminate.
  - unfold v.
    setoid_replace (inject_Z (Z.abs N) / 9 / inject_Z (10 ^ p))%Q
      with ((1 # 9) * (inject_Z (Z.abs N) / inject_Z (10 ^ p)))%Q
      by (field; apply inject_Z_pow10_neq; lia).
    apply Qle_trans with ((1 # 9) * (1 # 100000))%Q; [discriminate|].
    apply Qmult_le_l; [reflexivity|].
    apply Qle_shift_div_l; [apply inject_Z_pos, pow10_pos; lia|].
    apply Qle_trans with 1%Q.
    + apply Qle_trans with ((1 # 100000) * inject_Z (10 ^ 5))%Q;
        [|apply Qle_bool_iff; reflexivity].
      apply Qmult_le_l; [reflexivity|]. apply inject_Z_le, pow10_le. lia.
    + change 1%Q with (inject_Z 1). apply inject_Z_le. lia.
  - unfold v.
    setoid_replace (inject_Z (Z.abs N) / 9 / inject_Z (10 ^ p)
                    * inject_Z (10 ^ p))%Q
      with (inject_Z (Z.abs N) / 9)%Q
      by (field; apply inject_Z_pow10_neq; lia).
    exact Hk.
Qed.

Lemma fahrenheit_decimal_is_converted_correctly_witness :
  main ["--fahrenheit=" ++ decimal false 986 1;
        "--precision=" ++ decimal false 2 0] None
  = printed (decimal false (986 * 10 ^ (2 - 1)) 2 ++ degree ++ "F = "
             ++ decimal ((986 - 32 * 10 ^ 1) * 5 * 10 ^ (2 - 1) <? 0)
                  (round_half_even
                     (Z.abs ((986 - 32 * 10 ^ 1) * 5 * 10 ^ (2 - 1))) 9) 2
             ++ degree ++ "C").
Proof.
  apply (fahrenheit_decimal_is_converted_correctly false 986 1 2); lia.
Defined.

(** X10: a value option, in front of a command line or behind an accepted
    one, that is not followed by a word (it is the last argument, or the
    next argument is read as an option, as [-inf] is) is the usage error
    "expected one argument". *)
Theorem option_without_value_is_refused (argv rest : list string)
  (o os : string) (a : action) (items : list item) :
  argv = [] \/ (exists ns, parse_args argv = Parsed ns) ->
  o <> "--" -> parse_optional o = Option (Some a) os None -> a <> Help ->
  classify rest = Parsed items -> next_argument items = None ->
  parse_args (argv ++ o :: rest) = UsageError (ExpectedOneArgument a)
  /\ main (argv ++ o :: rest) None = refused (ExpectedOneArgument a).
Proof.
  intros Hargv Hne Ho Ha Hrest Hnext.
  assert (Hcl : classify (o :: rest) = Parsed (Opt o (Some a) os None :: items)).
  { rewrite classify_cons by now apply String.eqb_neq.
    now rewrite Ho, Hrest. }
  assert (Hstep : forall st,
            consume (Opt o (Some a) os None :: items) st
            = UsageError (ExpectedOneArgument a)).
  { intros st. rewrite consume_value_option by exact Ha.
    destruct items as [|[| s |] items']; try reflexivity. discriminate Hnext. }
  assert (H : parse_args (argv ++ o :: rest) = UsageError (ExpectedOneArgument a)).
  { destruct Hargv as [-> | [ns H]].
    - unfold parse_args. cbn [app]. rewrite Hcl. apply Hstep.
    - destruct (parse_args_app _ _ H) as (st' & _ & _ & _ & _ & Happ).
      rewrite Happ, Hcl. apply Hstep. }
  split; [exact H | now apply main_usage_error].
Qed.

Lemma option_without_value_is_refused_witness :
  parse_args (["-p"; "3"; "-f"; "98.6"] ++ "--celsius" :: ["-inf"])
  = UsageError (ExpectedOneArgument Celsius)
  /\ main (["-p"; "3"; "-f"; "98.6"] ++ "--celsius" :: ["-inf"]) None
     = refused (ExpectedOneArgument Celsius).
Proof.
  apply (option_without_value_is_refused ["-p"; "3"; "-f"; "98.6"] ["-inf"]
           "--celsius" "--celsius" Celsius
           [Opt "-inf" None "-inf" None]).
  - right. eexists. vm_compute. reflexivity.
  - discriminate.
  - reflexivity.
  - discriminate.
  - reflexivity.
  - reflexivity.
Defined.

(** X2: the infinities and NaN are converted to themselves, in both
    directions, and they are written by name ([inf], [-inf], [nan])
    whatever the precision is. *)
Theorem non_finite_values_pass_through (x : float) (p : Z) :
  Binary64.is_finite x = false -> 0 <= p <= 5 ->
  celsius_to_fahrenheit x = Ok x
  /\ fahrenheit_to_celsius x = Ok x
  /\ In (format_fixed x p) ["inf"; "-inf"; "nan"]
  /\ format_output x x "C" "F" p
     = Ok (format_fixed x 0 ++ degree ++ "C = " ++ format_fixed x 0
           ++ degree ++ "F").
Proof.
  intros Hx Hp. unfold float in x.
  rewrite format_output_ok by exact Hp. unfold conversion_line.
  destruct x as [s|[|]| |s m e]; try discriminate Hx;
    (split; [reflexivity|]; split; [reflexivity|]; split; [cbn; tauto|]);
    reflexivity.
Qed.

Lemma non_finite_values_pass_through_witness :
  celsius_to_fahrenheit (S754_infinity true : float) = Ok (S754_infinity true)
  /\ fahrenheit_to_celsius (S754_infinity true : float)
     = Ok (S754_infinity true)
  /\ In (format_fixed (S754_infinity true) 3) ["inf"; "-inf"; "nan"]
  /\ format_output (S754_infinity true) (S754_infinity true) "C" "F" 3
     = Ok (format_fixed (S754_infinity true) 0 ++ degree ++ "C = "
           ++ format_fixed (S754_infinity true) 0 ++ degree ++ "F").
Proof.
  apply (non_finite_values_pass_through (S754_infinity true) 3);
    [reflexivity | lia].
Defined.



(** ** Short options *)

Lemma substring_all (s : string) : substring 0 (String.length s) s = s.
Proof. induction s as [|c s IH]; cbn; [reflexivity | now rewrite IH]. Qed.

(** A short value option with characters attached. *)
Lemma option_tuples_short (short long : string) (a : action) (c : ascii)
  (v : string) :
  In (short, long, a) value_options ->
  get_option_tuples (short ++ String c v) = [(a, short, Some (String c v))].
Proof.
  intros Hin.
  assert (Hp : forall x os,
            In x ["c"; "f"; "p"]%char ->
            In os (map fst option_string_actions) ->
            prefix (String "-" (String x (String c v))) os = false).
  { intros x os Hx Hos. cbn in Hx, Hos.
    destruct Hx as [<-|[<-|[<-|[]]]];
      repeat (destruct Hos as [<-|Hos]; [vm_compute; reflexivity|]);
      contradiction. }
  cbn in Hin.
  destruct Hin as [[= <- <- <-]|[[= <- <- <-]|[[= <- <- <-]|[]]]];
    unfold get_option_tuples; cbn [append second_is_dash]; unfold is_char;
    cbn [Ascii.eqb Bool.eqb]; cbn iota;
    cbn [substring String.length Nat.sub]; rewrite (substring_all v);
    unfold option_string_actions; cbn -[prefix];
    rewrite !Hp by (cbn; tauto); reflexivity.
Qed.

Lemma parse_optional_short (short long : string) (a : action) (c : ascii)
  (v : string) :
  In (short, long, a) value_options ->
  parse_optional (short ++ String c v)
  = Option (Some a) short (Some (if is_char c "=" then v else String c v)).
Proof.
  intros Hin. pose proof (option_tuples_short short long a c v Hin) as Ht.
  unfold parse_optional. rewrite Ht. clear Ht.
  cbn in Hin.
  destruct Hin as [[= <- <- <-]|[[= <- <- <-]|[[= <- <- <-]|[]]]];
    cbn [first_is_dash append]; unfold is_char;
    change (Ascii.eqb "-" "-") with true; cbn [negb];
    (destruct (Ascii.eqb_spec c "=") as [->|Hc];
     [ reflexivity
     | unfold lookup at 1; cbn [find option_string_actions fst String.eqb];
       cbn [Ascii.eqb Bool.eqb andb option_map String.length Nat.eqb];
       cbn [split_equals]; unfold is_char;
       cbn [Ascii.eqb Bool.eqb];
       replace (Ascii.eqb c "=") with false
         by (symmetry; now apply Ascii.eqb_neq);
       cbn iota;
       destruct (split_equals v) as [[l r]|]; reflexivity ]).
Qed.

Lemma parse_args_value_option (o os : string) (a : action)
  (ex : option string) (rest : list string) :
  String.eqb o "--" = false -> parse_optional o = Option (Some a) os ex ->
  a <> Help ->
  parse_args (o :: rest)
  = and_then (classify rest) (fun items =>
      match ex with
      | Some e => and_then (take_action a [e] initial) (consume items)
      | None =>
          match items with
          | Arg s :: items' =>
              and_then (take_action a [s] initial) (consume items')
          | _ => UsageError (ExpectedOneArgument a)
          end
      end).
Proof.
  intros Hne Ho Ha. unfold parse_args. rewrite classify_cons by exact Hne.
  rewrite Ho. destruct (classify rest) as [items| |e]; cbn [and_then];
    [|reflexivity|reflexivity].
  now rewrite consume_value_option.
Qed.

(** X17: the short form of a value option stands for the long form, and
    the characters attached to a short option are its value, after an
    equals sign or without one: [-c25] and [-c=25] are [--celsius=25]. *)
Theorem short_options_stand_for_long_ones (short long : string) (a : action)
  (c : ascii) (v : string) (rest : list string) (interrupt : option nat) :
  In (short, long, a) value_options ->
  main (short :: rest) interrupt = main (long :: rest) interrupt
  /\ main ((short ++ String c v) :: rest) interrupt
     = main ((long ++ "="
              ++ (if is_char c "=" then v else String c v)) :: rest) interrupt
  /\ main ["-c25"; "-p=1"] None = printed "25.0°C = 77.0°F".
Proof.
  intros Hin.
  pose proof (parse_optional_short short long a c v Hin) as Hs.
  assert (H : a <> Help
              /\ parse_optional short = Option (Some a) short None
              /\ parse_optional long = Option (Some a) long None
              /\ (forall w, parse_optional (long ++ "=" ++ w)
                            = Option (Some a) long (Some w))
              /\ String.eqb short "--" = false
              /\ String.eqb long "--" = false
              /\ (forall w, String.eqb (long ++ "=" ++ w) "--" = false)
              /\ String.eqb (short ++ String c v) "--" = false).
  { cbn in Hin.
    destruct Hin as [[= <- <- <-]|[[= <- <- <-]|[[= <- <- <-]|[]]]];
      repeat split; discriminate. }
  destruct H as (Ha & H1 & H2 & H3 & N1 & N2 & N3 & N4).
  split; [|split; [|reflexivity]]; apply main_parse_args.
  - now rewrite (parse_args_value_option short short a None),
                (parse_args_value_option long long a None).
  - now rewrite (parse_args_value_option _ short a _ rest N4 Hs Ha),
                (parse_args_value_option _ long a _ rest (N3 _) (H3 _) Ha).
Qed.

Lemma short_options_stand_for_long_ones_witness :
  main ("-f" :: ["-p"; "1"]) (Some 2%nat)
  = main ("--fahrenheit" :: ["-p"; "1"]) (Some 2%nat)
  /\ main (("-f" ++ String "9" "8.6") :: ["-p"; "1"]) (Some 2%nat)
     = main (("--fahrenheit" ++ "="
              ++ (if is_char "9" "=" then "8.6" else String "9" "8.6"))
             :: ["-p"; "1"]) (Some 2%nat)
  /\ main ["-c25"; "-p=1"] None = printed "25.0°C = 77.0°F".
Proof.
  apply (short_options_stand_for_long_ones "-f" "--fahrenheit" Fahrenheit).
  cbn. tauto.
Defined.

(** ** The order of temperatures *)

Lemma conversions_separate (x y : float) :
  Binary64.is_finite x = true -> Binary64.is_finite y = true ->
  (Qabs (Binary64.to_Q x) <= pow2 1019)%Q ->
  (Qabs (Binary64.to_Q y) <= pow2 1019)%Q ->
  (pow2 (-49) * (Qabs (Binary64.to_Q x) + Qabs (Binary64.to_Q y)) + pow2 (-45)
   < Binary64.to_Q y - Binary64.to_Q x)%Q ->
  (Binary64.to_Q (fahrenheit_of x) < Binary64.to_Q (fahrenheit_of y))%Q
  /\ (Binary64.to_Q (celsius_of x) < Binary64.to_Q (celsius_of y))%Q.
Proof.
  intros Hx Hy HX HY Hd.
  destruct (fahrenheit_of_accuracy x Hx HX) as [_ Fx].
  destruct (fahrenheit_of_accuracy y Hy HY) as [_ Fy].
  destruct (celsius_of_accuracy x Hx HX) as [_ Cx].
  destruct (celsius_of_accuracy y Hy HY) as [_ Cy].
  revert Fx Fy Cx Cy Hd.
  change (pow2 (-50)) with (1 # 1125899906842624)%Q.
  change (pow2 (-51)) with (1 # 2251799813685248)%Q.
  change (pow2 (-47)) with (1 # 140737488355328)%Q.
  change (pow2 (-49)) with (1 # 562949953421312)%Q.
  change (pow2 (-45)) with (1 # 35184372088832)%Q.
  unfold Qdiv. change (/ 5)%Q with (1 # 5)%Q. change (/ 9)%Q with (1 # 9)%Q.
  intros Fx Fy Cx Cy Hd.
  apply Qabs_Qle_condition in Fx, Fy, Cx, Cy.
  pose proof (Qabs_nonneg (Binary64.to_Q x)).
  pose proof (Qabs_nonneg (Binary64.to_Q y)).
  set (X := Qabs (Binary64.to_Q x)) in *. set (Y := Qabs (Binary64.to_Q y)) in *.
  split; lra.
Qed.

(** X18: the conversions keep the order of two temperatures that are not
    too near to each other. For finite floats [x] and [y] of magnitude
    [2 ^ 1019] at most, with [y - x] above
    [2 ^ -49 * (|x| + |y|) + 2 ^ -45], the Fahrenheit value of [x] is
    below that of [y], and so is the Celsius value. *)
Theorem conversions_keep_the_order (x y : float) :
  Binary64.is_finite x = true -> Binary64.is_finite y = true ->
  (Qabs (Binary64.to_Q x) <= pow2 1019)%Q ->
  (Qabs (Binary64.to_Q y) <= pow2 1019)%Q ->
  (pow2 (-49) * (Qabs (Binary64.to_Q x) + Qabs (Binary64.to_Q y)) + pow2 (-45)
   < Binary64.to_Q y - Binary64.to_Q x)%Q ->
  (exists fx fy : float,
     celsius_to_fahrenheit x = Ok fx /\ celsius_to_fahrenheit y = Ok fy
     /\ (Binary64.to_Q fx < Binary64.to_Q fy)%Q)
  /\ (exists cx cy : float,
        fahrenheit_to_celsius x = Ok cx /\ fahrenheit_to_celsius y = Ok cy
        /\ (Binary64.to_Q cx < Binary64.to_Q cy)%Q).
Proof.
  intros Hx Hy HX HY Hd.
  destruct (conversions_separate x y Hx Hy HX HY Hd) as [HF HC]. split.
  - exists (fahrenheit_of x), (fahrenheit_of y).
    split; [apply celsius_to_fahrenheit_float|].
    split; [apply celsius_to_fahrenheit_float | exact HF].
  - exists (celsius_of x), (celsius_of y).
    split; [apply fahrenheit_to_celsius_float|].
    split; [apply fahrenheit_to_celsius_float | exact HC].
Qed.

Lemma conversions_keep_the_order_witness :
  (exists fx fy : float,
     celsius_to_fahrenheit (S754_finite false 7036874417766400 (-48)) = Ok fx
     /\ celsius_to_fahrenheit (S754_finite false 7318349394477056 (-48)) = Ok fy
     /\ (Binary64.to_Q fx < Binary64.to_Q fy)%Q)
  /\ (exists cx cy : float,
        fahrenheit_to_celsius (S754_finite false 7036874417766400 (-48)) = Ok cx
        /\ fahrenheit_to_celsius (S754_finite false 7318349394477056 (-48))
           = Ok cy
        /\ (Binary64.to_Q cx < Binary64.to_Q cy)%Q).
Proof.
  apply (conversions_keep_the_order
           (S754_finite false 7036874417766400 (-48))
           (S754_finite false 7318349394477056 (-48)));
    try reflexivity; apply Qle_bool_iff || idtac; vm_compute; reflexivity.
Defined.
